(** * tsrpc-cli [dev] command: debounced watch engine and dev-server supervisor

    A shallow embedding of the source of the [dev] command ([cmdDev] and
    [delayWatch]); line numbers refer to that file.

    JavaScript runs the program on a single-threaded event loop.  The
    embedding makes that loop explicit: closure variables become record
    fields, every suspension point of an [async] function becomes a pending
    task of the runtime, and the runtime picks the pending task that is due
    first.  Time is counted in milliseconds. *)

From Stdlib Require Import List String Ascii Arith NArith Bool Lia PeanoNat.
Import ListNotations.

(** ** A terminating "run until quiescent" loop

    The event loop runs due tasks until none is left.  Every task of this
    program strictly decreases a measure of the pending work, so the loop is
    total; [settle] iterates [step] exactly as long as it is enabled. *)

Section Loop.
Context {St : Type}.
Variable step : St -> option St.
Variable measure : St -> nat.

Fixpoint iter (n : nat) (s : St) : St :=
  match n with
  | O => s
  | S n' =>
      match step s with
      | Some s' => iter n' s'
      | None => s
      end
  end.

Definition settle (s : St) : St := iter (measure s) s.

Hypothesis step_decr :
  forall s s', step s = Some s' -> measure s' < measure s.

Lemma iter_stable : forall n m s,
    measure s <= n -> measure s <= m -> iter n s = iter m s.
Proof.
  induction n as [|n IH]; intros m s Hn Hm.
  - destruct m as [|m]; [reflexivity|]. simpl.
    destruct (step s) as [s'|] eqn:Hs; [|reflexivity].
    apply step_decr in Hs. lia.
  - simpl. destruct (step s) as [s'|] eqn:Hs.
    + pose proof (step_decr _ _ Hs) as Hd.
      destruct m as [|m]; [lia|]. simpl. rewrite Hs.
      apply IH; lia.
    + destruct m; simpl; rewrite ?Hs; reflexivity.
Qed.

Lemma settle_unfold : forall s,
    settle s = match step s with
               | Some s' => settle s'
               | None => s
               end.
Proof.
  intros s. unfold settle.
  destruct (step s) as [s'|] eqn:Hs.
  - pose proof (step_decr _ _ Hs) as Hd.
    destruct (measure s) as [|m] eqn:Hm; [lia|].
    simpl. rewrite Hs. apply iter_stable; lia.
  - destruct (measure s); simpl; rewrite ?Hs; reflexivity.
Qed.

Lemma settle_ind (P : St -> Prop) :
  (forall s s', P s -> step s = Some s' -> P s') ->
  forall s, P s -> P (settle s).
Proof.
  intros Hstep s. unfold settle.
  generalize (measure s) as n. intros n. revert s.
  induction n as [|n IH]; intros s Hs; simpl; [exact Hs|].
  destruct (step s) as [s'|] eqn:E; [|exact Hs].
  apply IH. eapply Hstep; eauto.
Qed.

Lemma settle_quiescent : forall s, step (settle s) = None.
Proof.
  intros s.
  remember (measure s) as n eqn:Hn.
  revert s Hn. induction n as [n IH] using lt_wf_ind. intros s Hn.
  rewrite settle_unfold.
  destruct (step s) as [s'|] eqn:Hs; [|exact Hs].
  apply (IH (measure s')); [|reflexivity].
  subst n. eapply step_decr; eauto.
Qed.
End Loop.

(** ** Change events (chokidar's ['all'] event) *)

Inductive EventName := add | addDir | change | unlink | unlinkDir.

Definition eventName_string (n : EventName) : string :=
  match n with
  | add => "add"
  | addDir => "addDir"
  | change => "change"
  | unlink => "unlink"
  | unlinkDir => "unlinkDir"
  end%string.

(** [stats] is an [fs.Stats] object; the program only passes it on. *)
Record ChangeEvent := mkEvent {
  eventName : EventName;
  filepath : string;
  stats : option nat
}.

(** ** delayWatch *)

Module Engine.
Section WithUser.
(** [U] is the state owned by the code that registers the watch (the
    variables its callbacks close over).  [K] names the points at which
    the user's [onWillTrigger] can be suspended: the rest of its body,
    from such a point on, is [willTriggerRest]. *)
Context {U K : Type}.

(** What a call of the user's [onWillTrigger] does after its synchronous
    part: the returned promise fulfils [d] ms later, after the rest [k]
    of the callback's body has run at that point; or it rejects [d] ms
    later; or the call throws; or the promise never settles.  A callback
    that returns nothing, or whose promise is already settled, is
    [Resolves 0]: [await] then resumes in a microtask, before any other task
    of the loop. *)
Inductive Outcome :=
| Resolves (d : nat) (k : K)
| Rejects (d : nat)
| Throws
| Never.

(** [options]: [matches] and [ignore] only configure chokidar, [watchId] is
    unused by [delayWatch]; they are left out.  Callbacks receive the event,
    the current time and the user state. *)
Record Options := mkOptions {
  delay : nat;
  onWillTrigger : option (ChangeEvent -> nat -> U -> U * Outcome);
  onTrigger : option (ChangeEvent -> nat -> U -> U);
  willTriggerRest : K -> U -> U
}.

(** A timeout pending in the runtime, created by line 180: its callback
    closes over the event of the handler call that created it. *)
Record Timeout := mkTimeout {
  tid : nat;
  due : nat;
  payload : ChangeEvent
}.

(** The handler suspended at [await options.onWillTrigger?.(...)], on a
    promise that settles at [settles]. *)
Record Awaiting := mkAwaiting {
  settles : nat;
  fulfilled : bool;
  cont : option K;
  captured : ChangeEvent
}.

(** Calls of the user's callbacks, oldest first. *)
Inductive Call :=
| WillTrigger (t : nat) (e : ChangeEvent)
| Trigger (t : nat) (e : ChangeEvent).

(** The closure of one [delayWatch] call ([timer], [isProcessing]) together
    with the part of the runtime it talks to: the clock, the suspended
    handler, the pending timeouts it created and the handle counter. *)
Record State := mkState {
  now : nat;
  timer : option nat;
  isProcessing : bool;
  awaiting : option Awaiting;
  timers : list Timeout;
  next_tid : nat;
  calls : list Call;
  user : U
}.

Definition init (u : U) : State :=
  {| now := 0; timer := None; isProcessing := false; awaiting := None;
     timers := []; next_tid := 1; calls := []; user := u |}.

Definition set_now (v : nat) (s : State) : State :=
  {| now := v; timer := timer s; isProcessing := isProcessing s;
     awaiting := awaiting s; timers := timers s; next_tid := next_tid s;
     calls := calls s; user := user s |}.

Definition set_timer (v : option nat) (s : State) : State :=
  {| now := now s; timer := v; isProcessing := isProcessing s;
     awaiting := awaiting s; timers := timers s; next_tid := next_tid s;
     calls := calls s; user := user s |}.

Definition set_isProcessing (v : bool) (s : State) : State :=
  {| now := now s; timer := timer s; isProcessing := v;
     awaiting := awaiting s; timers := timers s; next_tid := next_tid s;
     calls := calls s; user := user s |}.

Definition set_awaiting (v : option Awaiting) (s : State) : State :=
  {| now := now s; timer := timer s; isProcessing := isProcessing s;
     awaiting := v; timers := timers s; next_tid := next_tid s;
     calls := calls s; user := user s |}.

Definition set_timers (v : list Timeout) (s : State) : State :=
  {| now := now s; timer := timer s; isProcessing := isProcessing s;
     awaiting := awaiting s; timers := v; next_tid := next_tid s;
     calls := calls s; user := user s |}.

Definition set_user (v : U) (s : State) : State :=
  {| now := now s; timer := timer s; isProcessing := isProcessing s;
     awaiting := awaiting s; timers := timers s; next_tid := next_tid s;
     calls := calls s; user := v |}.

Definition record (c : Call) (s : State) : State :=
  {| now := now s; timer := timer s; isProcessing := isProcessing s;
     awaiting := awaiting s; timers := timers s; next_tid := next_tid s;
     calls := calls s ++ [c]; user := user s |}.

(** Node runs a timer after the delay it is given only if that delay is
    between 1 and [TIMEOUT_MAX] = 2^31 - 1; any other delay is set to 1.
    (A configured delay is taken to be a whole number of milliseconds, not
    negative.) *)
Definition TIMEOUT_MAX : N := 2147483647.

Definition timer_ms (d : nat) : nat :=
  if (1 <=? d) && (N.of_nat d <=? TIMEOUT_MAX)%N then d else 1.

(** [setTimeout(cb, d)]: a fresh handle, due [timer_ms d] ms from now. *)
Definition setTimeout (d : nat) (e : ChangeEvent) (s : State) : nat * State :=
  (next_tid s,
   {| now := now s; timer := timer s; isProcessing := isProcessing s;
      awaiting := awaiting s;
      timers := timers s ++ [mkTimeout (next_tid s) (now s + timer_ms d) e];
      next_tid := S (next_tid s);
      calls := calls s; user := user s |}).

(** [clearTimeout(h)]: the timeout with that handle, if still pending, is
    dropped. *)
Definition clearTimeout (h : nat) (s : State) : State :=
  set_timers (filter (fun t => negb (tid t =? h)) (timers s)) s.

(** Lines 179-185: arm the delay timer, leave the critical section. *)
Definition arm (o : Options) (e : ChangeEvent) (s : State) : State :=
  let (h, s1) := setTimeout (delay o) e s in
  set_isProcessing false (set_timer (Some h) s1).

(** Lines 164-186, up to the first suspension: the inner function
    [onWillTrigger] of [delayWatch], the listener registered with
    [chokidar.watch(...).on('all', ...)].  It is called [handler] here,
    [onWillTrigger] being the field of [options].  When the user's callback
    throws, the handler is left on line 177; when its promise never
    settles, the handler stays suspended there for good: either way nothing
    of it is pending in the runtime, and [isProcessing] stays [true]. *)
Definition handler (o : Options) (e : ChangeEvent) (s : State) : State :=
  if isProcessing s then s
  else
    let s := set_isProcessing true s in
    match timer s with
    | Some h => arm o e (set_timer None (clearTimeout h s))
    | None =>
        match onWillTrigger o with
        | None =>
            set_awaiting (Some (mkAwaiting (now s) true None e)) s
        | Some f =>
            let (u', r) := f e (now s) (user s) in
            let s := record (WillTrigger (now s) e) (set_user u' s) in
            match r with
            | Resolves d k =>
                set_awaiting (Some (mkAwaiting (now s + d) true (Some k) e)) s
            | Rejects d =>
                set_awaiting (Some (mkAwaiting (now s + d) false None e)) s
            | Throws => s
            | Never => s
            end
        end
    end.

(** What is left of the user's [onWillTrigger] when its promise settles. *)
Definition rest (o : Options) (c : option K) (u : U) : U :=
  match c with
  | Some k => willTriggerRest o k u
  | None => u
  end.

(** The awaited promise has settled.  Fulfilled: the handler continues at
    line 179.  Rejected: the handler's own promise rejects and nothing
    after line 177 runs. *)
Definition resume (o : Options) (s : State) : State :=
  match awaiting s with
  | None => s
  | Some a =>
      let s := set_awaiting None (set_user (rest o (cont a) (user s)) s) in
      if fulfilled a then arm o (captured a) s else s
  end.

(** Lines 180-183: the timeout [t] expires; the runtime drops it and runs
    its callback. *)
Definition fire (o : Options) (t : Timeout) (s : State) : State :=
  let s := clearTimeout (tid t) s in
  let s := set_timer None s in
  match onTrigger o with
  | None => s
  | Some g =>
      record (Trigger (now s) (payload t))
             (set_user (g (payload t) (now s) (user s)) s)
  end.

(** *** The event loop for one watch *)

(** The pending timeout that is due first (the oldest among equals). *)
Fixpoint earliest (ts : list Timeout) : option Timeout :=
  match ts with
  | [] => None
  | t :: ts' =>
      match earliest ts' with
      | Some t' => if due t' <? due t then Some t' else Some t
      | None => Some t
      end
  end.

Inductive Task := TResume | TFire (t : Timeout).

Definition next_task (s : State) : option (nat * Task) :=
  match awaiting s, earliest (timers s) with
  | Some a, Some t =>
      if settles a <=? due t then Some (settles a, TResume)
      else Some (due t, TFire t)
  | Some a, None => Some (settles a, TResume)
  | None, Some t => Some (due t, TFire t)
  | None, None => None
  end.

Definition run_task (o : Options) (k : Task) (s : State) : State :=
  match k with
  | TResume => resume o s
  | TFire t => fire o t s
  end.

(** Run the next pending task if it is due by [target]. *)
Definition step (o : Options) (target : nat) (s : State) : option State :=
  match next_task s with
  | Some (d, k) =>
      if d <=? target then Some (run_task o k (set_now (Nat.max (now s) d) s))
      else None
  | None => None
  end.

Definition pending (s : State) : nat :=
  (match awaiting s with Some _ => 2 | None => 0 end) + List.length (timers s).

(** Let the clock reach [target], running everything that falls due. *)
Definition advance (o : Options) (target : nat) (s : State) : State :=
  let s' := settle (step o target) pending s in
  set_now (Nat.max (now s') target) s'.

(** What the environment does: chokidar emits an event (consecutive [Emit]s
    happen in one tick, with no microtask in between), or the program is
    left alone for [dt] ms. *)
Inductive Action := Emit (e : ChangeEvent) | Sleep (dt : nat).

Definition exec (o : Options) (s : State) (a : Action) : State :=
  match a with
  | Emit e => handler o e s
  | Sleep dt => advance o (now s + dt) s
  end.

Definition run (o : Options) (acts : list Action) (s : State) : State :=
  fold_left (exec o) acts s.

(** *** Basic facts about the loop *)

Lemma timer_ms_pos : forall d, 1 <= timer_ms d.
Proof.
  intros d. unfold timer_ms.
  destruct (Nat.leb_spec 1 d); simpl; [|lia].
  destruct (N.of_nat d <=? TIMEOUT_MAX)%N; lia.
Qed.

Lemma timer_ms_in_range : forall d,
    1 <= d -> (N.of_nat d <= TIMEOUT_MAX)%N -> timer_ms d = d.
Proof.
  intros d H1 H2. unfold timer_ms.
  destruct (Nat.leb_spec 1 d); [|lia].
  destruct (N.leb_spec (N.of_nat d) TIMEOUT_MAX); [reflexivity|lia].
Qed.

Lemma timer_ms_out_of_range : forall d,
    d = 0 \/ (TIMEOUT_MAX < N.of_nat d)%N -> timer_ms d = 1.
Proof.
  intros d H. unfold timer_ms.
  destruct (Nat.leb_spec 1 d); [|reflexivity].
  destruct (N.leb_spec (N.of_nat d) TIMEOUT_MAX); [|reflexivity].
  destruct H; lia.
Qed.

Arguments timer_ms : simpl never.

Lemma earliest_In : forall ts t, earliest ts = Some t -> In t ts.
Proof.
  induction ts as [|a ts IH]; simpl; intros t H; [discriminate|].
  destruct (earliest ts) as [t'|] eqn:E.
  - destruct (due t' <? due a); inversion H; subst; auto.
  - inversion H; auto.
Qed.

Lemma filter_drops : forall (ts : list Timeout) (t : Timeout),
    In t ts ->
    List.length (filter (fun x => negb (tid x =? tid t)) ts) < List.length ts.
Proof.
  induction ts as [|a ts IH]; simpl; intros t H; [contradiction|].
  destruct H as [->|H].
  - rewrite Nat.eqb_refl. simpl.
    pose proof (filter_length_le (fun x => negb (tid x =? tid t)) ts). lia.
  - specialize (IH t H).
    destruct (negb (tid a =? tid t)); simpl; lia.
Qed.

Lemma step_decr : forall o target s s',
    step o target s = Some s' -> pending s' < pending s.
Proof.
  intros o target s s'. unfold step, next_task.
  destruct (awaiting s) as [a|] eqn:Ha;
    destruct (earliest (timers s)) as [t|] eqn:Ht;
    try discriminate.
  - destruct (settles a <=? due t).
    + destruct (settles a <=? target); [|discriminate].
      intros H; inversion H; subst; clear H.
      unfold pending, run_task, resume; simpl. rewrite Ha.
      destruct (fulfilled a); simpl; rewrite ?length_app; simpl; lia.
    + destruct (due t <=? target); [|discriminate].
      intros H; inversion H; subst; clear H.
      apply earliest_In in Ht.
      pose proof (filter_drops _ _ Ht).
      unfold pending, run_task, fire; simpl.
      destruct (onTrigger o); simpl; rewrite Ha; lia.
  - destruct (settles a <=? target); [|discriminate].
    intros H; inversion H; subst; clear H.
    unfold pending, run_task, resume; simpl. rewrite Ha.
    destruct (fulfilled a); simpl; rewrite ?length_app; simpl; lia.
  - destruct (due t <=? target); [|discriminate].
    intros H; inversion H; subst; clear H.
    apply earliest_In in Ht.
    pose proof (filter_drops _ _ Ht).
    unfold pending, run_task, fire; simpl.
    destruct (onTrigger o); simpl; rewrite Ha; lia.
Qed.

Lemma advance_idle : forall o target s,
    next_task s = None ->
    advance o target s = set_now (Nat.max (now s) target) s.
Proof.
  intros o target s H. unfold advance.
  rewrite (settle_unfold _ _ (step_decr o target)).
  unfold step. rewrite H. reflexivity.
Qed.

Lemma advance_wait : forall o target s d k,
    next_task s = Some (d, k) -> target < d ->
    advance o target s = set_now (Nat.max (now s) target) s.
Proof.
  intros o target s d k H Hlt. unfold advance.
  rewrite (settle_unfold _ _ (step_decr o target)).
  unfold step. rewrite H.
  destruct (Nat.leb_spec d target); [lia|reflexivity].
Qed.

Lemma advance_step : forall o target s d k,
    next_task s = Some (d, k) -> d <= target ->
    advance o target s =
    advance o target (run_task o k (set_now (Nat.max (now s) d) s)).
Proof.
  intros o target s d k H Hle.
  assert (Hs : step o target s =
               Some (run_task o k (set_now (Nat.max (now s) d) s))).
  { unfold step. rewrite H.
    destruct (Nat.leb_spec d target); [reflexivity|lia]. }
  unfold advance.
  rewrite (settle_unfold _ _ (step_decr o target) s), Hs. reflexivity.
Qed.

(** The loop stops only when nothing more is due: [advance] does not run
    out of fuel. *)
Lemma advance_quiescent : forall o target s,
    step o target (advance o target s) = None.
Proof.
  intros o target s. unfold advance.
  pose proof (settle_quiescent _ _ (step_decr o target) s) as Hq.
  set (s' := settle (step o target) pending s) in *.
  unfold step in *. change (next_task (set_now (Nat.max (now s') target) s'))
    with (next_task s').
  destruct (next_task s') as [[d k]|]; [|reflexivity].
  destruct (d <=? target); [discriminate|reflexivity].
Qed.

Lemma run_app : forall o a1 a2 s,
    run o (a1 ++ a2) s = run o a2 (run o a1 s).
Proof. intros. unfold run. apply fold_left_app. Qed.

(** *** Reachable states and invariants

    [reachable] lets the runtime run pending tasks in any order and at any
    time: it covers every interleaving the event loop can produce. *)

Inductive reachable (o : Options) : State -> Prop :=
| reach_init : forall u, reachable o (init u)
| reach_emit : forall s e, reachable o s -> reachable o (handler o e s)
| reach_resume : forall s, reachable o s -> reachable o (resume o s)
| reach_fire : forall s t,
    reachable o s -> In t (timers s) -> reachable o (fire o t s)
| reach_clock : forall s n, reachable o s -> reachable o (set_now n s).

(** The variable [timer] and the runtime agree, and a timer is only armed
    outside the critical section. *)
Definition wf (s : State) : Prop :=
  match timer s with
  | Some h =>
      exists t, timers s = [t] /\ tid t = h /\
                isProcessing s = false /\ awaiting s = None
  | None =>
      timers s = [] /\ (awaiting s <> None -> isProcessing s = true)
  end.

(** No window is open. *)
Definition closed (s : State) : Prop :=
  isProcessing s = false /\ timer s = None.

Definition ends_with_will (l : list Call) : Prop :=
  exists l' t e, l = l' ++ [WillTrigger t e].

(** No two calls of [onWillTrigger] without a call of [onTrigger] in
    between. *)
Definition no_double_will (l : list Call) : Prop :=
  forall l1 l2 t1 e1 t2 e2,
    l <> l1 ++ WillTrigger t1 e1 :: WillTrigger t2 e2 :: l2.

Lemma ends_with_will_snoc_trigger : forall l t e,
    ~ ends_with_will (l ++ [Trigger t e]).
Proof.
  intros l t e (l' & t' & e' & H).
  apply app_inj_tail in H. destruct H as [_ H]. discriminate.
Qed.

Lemma ends_with_will_snoc_will : forall l t e,
    ends_with_will (l ++ [WillTrigger t e]).
Proof. intros l t e. exists l, t, e. reflexivity. Qed.

Lemma no_double_will_nil : no_double_will [].
Proof.
  intros l1 l2 t1 e1 t2 e2 H. destruct l1; discriminate.
Qed.

Lemma no_double_will_snoc_trigger : forall l t e,
    no_double_will l -> no_double_will (l ++ [Trigger t e]).
Proof.
  intros l t e Hl l1 l2 t1 e1 t2 e2 H.
  destruct (exists_last (l := WillTrigger t2 e2 :: l2)) as (m & x & Hm);
    [discriminate|].
  change (l ++ [Trigger t e] =
          l1 ++ [WillTrigger t1 e1] ++ WillTrigger t2 e2 :: l2) in H.
  rewrite Hm in H. rewrite !app_assoc in H.
  apply app_inj_tail in H. destruct H as [H Hx]. subst x.
  destruct m as [|c m].
  - simpl in Hm. inversion Hm.
  - simpl in Hm. injection Hm as Hc _. subst c.
    apply (Hl l1 m t1 e1 t2 e2). rewrite H, <- app_assoc. reflexivity.
Qed.

Lemma no_double_will_snoc_will : forall l t e,
    no_double_will l -> ~ ends_with_will l ->
    no_double_will (l ++ [WillTrigger t e]).
Proof.
  intros l t e Hl Hend l1 l2 t1 e1 t2 e2 H.
  destruct (exists_last (l := WillTrigger t2 e2 :: l2)) as (m & x & Hm);
    [discriminate|].
  change (l ++ [WillTrigger t e] =
          l1 ++ [WillTrigger t1 e1] ++ WillTrigger t2 e2 :: l2) in H.
  rewrite Hm in H. rewrite !app_assoc in H.
  apply app_inj_tail in H. destruct H as [H Hx]. subst x.
  destruct m as [|c m].
  - apply Hend. exists l1, t1, e1. rewrite H, app_nil_r. reflexivity.
  - simpl in Hm. injection Hm as Hc _. subst c.
    apply (Hl l1 m t1 e1 t2 e2). rewrite H, <- app_assoc. reflexivity.
Qed.

Definition inv (o : Options) (s : State) : Prop :=
  wf s /\
  (onTrigger o <> None ->
   no_double_will (calls s) /\ (closed s -> ~ ends_with_will (calls s))) /\
  (onWillTrigger o <> None -> ~ closed s -> ends_with_will (calls s)).

Lemma inv_init : forall o u, inv o (init u).
Proof.
  intros o u. unfold inv, wf, closed; simpl.
  split; [split; [reflexivity|intros H; contradiction]|]. split.
  - intros _. split; [apply no_double_will_nil|].
    intros _ (l' & t & e & H). destruct l'; discriminate.
  - intros _ H. exfalso. apply H. auto.
Qed.

Lemma inv_set_now : forall o s n, inv o s -> inv o (set_now n s).
Proof. intros o s n H. exact H. Qed.

Lemma inv_handler : forall o s e, inv o s -> inv o (handler o e s).
Proof.
  intros o s e Hinv. pose proof Hinv as (Hwf & HT & HW). unfold handler.
  destruct (isProcessing s) eqn:Hp; [exact Hinv|].
  unfold wf in Hwf. simpl.
  destruct (timer s) as [h|] eqn:Htm.
  - (* a timer is armed: slide the window *)
    destruct Hwf as (t & Hts & Hid & _ & Haw).
    unfold inv, wf, closed, arm; simpl. rewrite Hts; simpl.
    rewrite Hid, Nat.eqb_refl; simpl.
    split; [eexists; repeat split; eauto|].
    split.
    + intros Ho. destruct (HT Ho) as [Hnd _]. split; [exact Hnd|].
      intros [_ H]; discriminate.
    + intros Ho _. apply HW; [exact Ho|].
      unfold closed. rewrite Htm. intros [_ H]; discriminate.
  - (* no timer: leading edge *)
    destruct Hwf as [Hts Haw].
    assert (Hclosed : closed s) by (split; assumption).
    assert (Hnone : awaiting s = None).
    { destruct (awaiting s) eqn:E; [|reflexivity].
      assert (isProcessing s = true) by (apply Haw; discriminate).
      congruence. }
    destruct (onWillTrigger o) as [f|] eqn:Hf.
    + destruct (f e (now s) (user s)) as [u' r].
      assert (Hrec : forall s',
                 timer s' = None -> timers s' = [] ->
                 isProcessing s' = true ->
                 calls s' = calls s ++ [WillTrigger (now s) e] ->
                 inv o s').
      { intros s' H1 H2 H3 H4. unfold inv, wf, closed.
        rewrite H1, H2, H3, H4.
        split; [split; auto|]. split.
        - intros Ho. split; [|intros [H _]; discriminate].
          apply no_double_will_snoc_will; apply HT; assumption.
        - intros; apply ends_with_will_snoc_will. }
      destruct r; apply Hrec; simpl; auto.
    + unfold inv, wf, closed; simpl. rewrite Htm, Hts.
      split; [split; auto|]. split.
      * intros Ho. split; [apply HT; assumption|].
        intros [H _]; discriminate.
      * intros H; congruence.
Qed.

Lemma inv_resume : forall o s, inv o s -> inv o (resume o s).
Proof.
  intros o s Hinv. pose proof Hinv as (Hwf & HT & HW). unfold resume.
  destruct (awaiting s) as [a|] eqn:Ha; [|exact Hinv].
  unfold wf in Hwf.
  destruct (timer s) as [h|] eqn:Htm.
  { destruct Hwf as (t & _ & _ & _ & H). congruence. }
  destruct Hwf as [Hts Hp].
  assert (Hproc : isProcessing s = true) by (apply Hp; congruence).
  assert (Hopen : ~ closed s) by (intros [H _]; congruence).
  destruct (fulfilled a).
  - unfold inv, wf, closed, arm; simpl. rewrite Hts; simpl.
    split; [eexists; repeat split; eauto|]. split.
    + intros Ho. split; [apply HT; assumption|].
      intros [_ H]; discriminate.
    + intros Ho _. apply HW; assumption.
  - unfold inv, wf, closed; simpl. rewrite Htm, Hts, Hproc.
    split; [split; auto|]. split.
    + intros Ho. split; [apply HT; assumption|].
      intros [H _]; discriminate.
    + intros Ho _. apply HW; assumption.
Qed.

Lemma inv_fire : forall o s t,
    inv o s -> In t (timers s) -> inv o (fire o t s).
Proof.
  intros o s t (Hwf & HT & HW) Hin. unfold wf in Hwf.
  destruct (timer s) as [h|] eqn:Htm.
  2:{ destruct Hwf as [Hts _]. rewrite Hts in Hin. contradiction. }
  destruct Hwf as (t0 & Hts & Hid & Hp & Ha).
  rewrite Hts in Hin. destruct Hin as [<-|[]].
  unfold fire. destruct (onTrigger o) as [g|] eqn:Hg.
  - unfold inv, wf, closed, clearTimeout; simpl.
    rewrite Hts; simpl. rewrite Nat.eqb_refl; simpl. rewrite Ha, Hp.
    split; [split; [reflexivity|intros H; contradiction]|]. split.
    + intros _. split.
      * apply no_double_will_snoc_trigger. apply HT. discriminate.
      * intros _. apply ends_with_will_snoc_trigger.
    + intros _ H. exfalso. apply H. auto.
  - unfold inv, wf, closed, clearTimeout; simpl.
    rewrite Hts; simpl. rewrite Nat.eqb_refl; simpl. rewrite Ha, Hp.
    split; [split; [reflexivity|intros H; contradiction]|]. split.
    + intros H; contradiction.
    + intros _ H. exfalso. apply H. auto.
Qed.

Lemma reachable_inv : forall o s, reachable o s -> inv o s.
Proof.
  intros o s H. induction H.
  - apply inv_init.
  - apply inv_handler; assumption.
  - apply inv_resume; assumption.
  - apply inv_fire; assumption.
  - apply inv_set_now; assumption.
Qed.

Lemma reachable_exec : forall o s a,
    reachable o s -> reachable o (exec o s a).
Proof.
  intros o s [e|dt] H; simpl.
  - apply reach_emit; exact H.
  - unfold advance. apply reach_clock.
    apply settle_ind; [|exact H].
    intros s1 s2 H1. unfold step.
    destruct (next_task s1) as [[d k]|] eqn:Hn; [|discriminate].
    destruct (d <=? now s + dt); [|discriminate].
    intros E; inversion E; subst; clear E.
    destruct k as [|t]; simpl.
    + apply reach_resume, reach_clock, H1.
    + apply reach_fire; [apply reach_clock, H1|].
      simpl. unfold next_task in Hn.
      destruct (awaiting s1) as [a|];
        destruct (earliest (timers s1)) as [t'|] eqn:Et; try discriminate.
      * destruct (settles a <=? due t'); inversion Hn; subst.
        apply earliest_In; exact Et.
      * inversion Hn; subst. apply earliest_In; exact Et.
Qed.

Lemma reachable_run : forall o acts s,
    reachable o s -> reachable o (run o acts s).
Proof.
  intros o acts. induction acts as [|a acts IH]; intros s H; simpl.
  - exact H.
  - apply IH, reachable_exec, H.
Qed.

(** *** The guard [isProcessing] *)

Lemma handler_processing : forall o e s,
    isProcessing s = true -> handler o e s = s.
Proof. intros o e s H. unfold handler. rewrite H. reflexivity. Qed.

Lemma awaiting_processing : forall o s,
    reachable o s -> awaiting s <> None -> isProcessing s = true.
Proof.
  intros o s Hr Ha. destruct (reachable_inv _ _ Hr) as (Hwf & _).
  unfold wf in Hwf. destruct (timer s).
  - destruct Hwf as (t & _ & _ & _ & H). contradiction.
  - apply Hwf, Ha.
Qed.

(** A watch whose handler never left the critical section: [isProcessing]
    is stuck at [true], nothing is pending that could reset it. *)
Definition stuck (s : State) : Prop :=
  isProcessing s = true /\ timer s = None /\ timers s = [] /\
  match awaiting s with
  | Some a => fulfilled a = false
  | None => True
  end.

Lemma stuck_exec : forall o s a,
    stuck s -> stuck (exec o s a) /\ calls (exec o s a) = calls s.
Proof.
  intros o s [e|dt] (Hp & Htm & Hts & Ha);
    [simpl|change (exec o s (Sleep dt)) with (advance o (now s + dt) s)].
  - rewrite handler_processing by exact Hp. repeat split; assumption.
  - destruct (awaiting s) as [a|] eqn:Haw.
    + assert (Hn : next_task s = Some (settles a, TResume)).
      { unfold next_task. rewrite Haw, Hts. reflexivity. }
      assert (Hres : forall n, next_task (resume o (set_now n s)) = None).
      { intros n. unfold resume, next_task; simpl. rewrite Haw, Ha; simpl.
        rewrite Hts. reflexivity. }
      destruct (Nat.le_gt_cases (settles a) (now s + dt)) as [Hle|Hgt].
      * rewrite (advance_step _ _ _ _ _ Hn Hle).
        unfold run_task. rewrite advance_idle by apply Hres.
        unfold stuck, resume; simpl. rewrite Haw, Ha; simpl.
        repeat split; assumption.
      * rewrite (advance_wait _ _ _ _ _ Hn Hgt).
        unfold stuck; simpl. rewrite Haw. repeat split; assumption.
    + rewrite advance_idle.
      * unfold stuck; simpl. rewrite Haw. repeat split; assumption.
      * unfold next_task. rewrite Haw, Hts. reflexivity.
Qed.

Lemma stuck_run : forall o acts s,
    stuck s -> stuck (run o acts s) /\ calls (run o acts s) = calls s.
Proof.
  intros o acts. induction acts as [|a acts IH]; intros s H; simpl.
  - split; [exact H|reflexivity].
  - destruct (stuck_exec o s a H) as [H1 H2].
    destruct (IH _ H1) as [H3 H4]. split; [exact H3|congruence].
Qed.

(** *** One burst, step by step *)

(** The window is open and its timer armed: one timeout pending, due at
    [d], carrying [e]. *)
Definition armed (s : State) (d : nat) (e : ChangeEvent) : Prop :=
  isProcessing s = false /\ awaiting s = None /\
  exists h, timer s = Some h /\ timers s = [mkTimeout h d e].

(** Nothing is open and nothing is pending. *)
Definition idle (s : State) : Prop :=
  closed s /\ awaiting s = None /\ timers s = [].

Lemma closed_idle : forall o s, reachable o s -> closed s -> idle s.
Proof.
  intros o s Hr Hc. split; [exact Hc|].
  destruct (reachable_inv _ _ Hr) as (Hwf & _).
  destruct Hc as [Hp Htm]. unfold wf in Hwf. rewrite Htm in Hwf.
  destruct Hwf as [Hts Ha]. split; [|exact Hts].
  destruct (awaiting s); [|reflexivity].
  assert (isProcessing s = true) by (apply Ha; discriminate). congruence.
Qed.

Lemma armed_set_now : forall s d e n, armed s d e -> armed (set_now n s) d e.
Proof. intros s d e n H. exact H. Qed.

Lemma armed_advance_short : forall o s d e target,
    armed s d e -> target < d ->
    advance o target s = set_now (Nat.max (now s) target) s.
Proof.
  intros o s d e target (Hp & Ha & h & Htm & Hts) Hlt.
  apply advance_wait with (d := d) (k := TFire (mkTimeout h d e)); [|exact Hlt].
  unfold next_task. rewrite Ha, Hts. reflexivity.
Qed.

Lemma armed_advance_fire : forall o g s d e target,
    onTrigger o = Some g ->
    armed s d e -> d <= target ->
    let s' := advance o target s in
    calls s' = calls s ++ [Trigger (Nat.max (now s) d) e] /\
    idle s' /\ now s' = Nat.max (Nat.max (now s) d) target.
Proof.
  intros o g s d e target Hg (Hp & Ha & h & Htm & Hts) Hle s'. subst s'.
  rewrite advance_step with (d := d) (k := TFire (mkTimeout h d e));
    [|unfold next_task; rewrite Ha, Hts; reflexivity|exact Hle].
  rewrite advance_idle.
  - unfold run_task, fire, idle, closed, clearTimeout. rewrite Hg; simpl.
    rewrite Hts; simpl. rewrite Nat.eqb_refl; simpl.
    repeat split; assumption.
  - unfold run_task, fire, next_task, clearTimeout. rewrite Hg; simpl.
    rewrite Hts; simpl. rewrite Nat.eqb_refl; simpl. rewrite Ha.
    reflexivity.
Qed.

Lemma armed_emit : forall o s d e0 e,
    armed s d e0 ->
    let s' := handler o e s in
    armed s' (now s + timer_ms (delay o)) e /\ calls s' = calls s /\
    now s' = now s /\ user s' = user s.
Proof.
  intros o s d e0 e (Hp & Ha & h & Htm & Hts) s'. subst s'.
  unfold handler. rewrite Hp; simpl. rewrite Htm.
  unfold armed, arm, clearTimeout; simpl. rewrite Hts; simpl.
  rewrite Nat.eqb_refl; simpl. repeat split; try assumption.
  eexists; split; reflexivity.
Qed.

(** The state in which the handler waits for the user's [onWillTrigger]. *)
Definition waiting (s : State) (a : Awaiting) : Prop :=
  isProcessing s = true /\ timer s = None /\ timers s = [] /\
  awaiting s = Some a.

Lemma idle_emit : forall o f s e u1 d k,
    idle s -> onWillTrigger o = Some f ->
    f e (now s) (user s) = (u1, Resolves d k) ->
    let s' := handler o e s in
    waiting s' (mkAwaiting (now s + d) true (Some k) e) /\
    calls s' = calls s ++ [WillTrigger (now s) e] /\ now s' = now s.
Proof.
  intros o f s e u1 d k ((Hp & Htm) & Ha & Hts) Hf Hr s'. subst s'.
  unfold handler. rewrite Hp; simpl. rewrite Htm, Hf, Hr.
  unfold waiting; simpl. repeat split; assumption.
Qed.

Lemma waiting_advance_resume : forall o s a target,
    waiting s a -> fulfilled a = true -> settles a <= target ->
    advance o target s =
    advance o target
      (arm o (captured a)
         (set_awaiting None
            (set_user (rest o (cont a) (user s))
               (set_now (Nat.max (now s) (settles a)) s)))).
Proof.
  intros o s a target (Hp & Htm & Hts & Ha) Hful Hle.
  rewrite advance_step with (d := settles a) (k := TResume);
    [|unfold next_task; rewrite Ha, Hts; reflexivity|exact Hle].
  unfold run_task, resume; simpl. rewrite Ha, Hful. reflexivity.
Qed.

Lemma resumed_armed : forall o s a n,
    waiting s a ->
    armed (arm o (captured a)
             (set_awaiting None
                (set_user (rest o (cont a) (user s)) (set_now n s))))
          (n + timer_ms (delay o)) (captured a).
Proof.
  intros o s a n (Hp & Htm & Hts & Ha).
  unfold armed, arm; simpl. rewrite Hts; simpl.
  repeat split. eexists; split; reflexivity.
Qed.

(** The events of a burst after its first: each arrives [gap] ms after
    the one before it, in a task of its own. *)
Definition burst_actions (tail : list (nat * ChangeEvent)) : list Action :=
  flat_map (fun ge => [Sleep (fst ge); Emit (snd ge)]) tail.

Definition elapsed (tail : list (nat * ChangeEvent)) : nat :=
  fold_right (fun ge acc => fst ge + acc) 0 tail.

Lemma last_cons_default : forall (A : Type) (l : list A) (a d : A),
    last (a :: l) d = last l a.
Proof.
  intros A l. induction l as [|b l IH]; intros a d; [reflexivity|].
  change (last (a :: b :: l) d) with (last (b :: l) d).
  rewrite (IH b d), (IH b a). reflexivity.
Qed.

Lemma burst_tail : forall o tail s D e0,
    armed s D e0 ->
    (forall gp e, In (gp, e) tail -> gp < timer_ms (delay o)) ->
    match tail with
    | (gp, _) :: _ => now s + gp < D
    | [] => True
    end ->
    let s' := run o (burst_actions tail) s in
    armed s' (match tail with [] => D | _ => now s' + timer_ms (delay o) end)
          (last (map snd tail) e0) /\
    calls s' = calls s /\ now s' = now s + elapsed tail.
Proof.
  intros o tail. induction tail as [|[gp e] rest IH];
    intros s D e0 Harm Hgaps Hfirst; simpl.
  - split; [exact Harm|]. split; [reflexivity|lia].
  - rewrite (armed_advance_short o s D e0 (now s + gp) Harm Hfirst).
    rewrite Nat.max_r by lia.
    pose proof (armed_emit o (set_now (now s + gp) s) D e0 e
                  (armed_set_now _ _ _ _ Harm)) as (Ha2 & Hc2 & Hn2 & _).
    simpl in Ha2, Hc2, Hn2.
    specialize (IH (handler o e (set_now (now s + gp) s))
                   (now s + gp + timer_ms (delay o)) e Ha2).
    destruct IH as (Ha3 & Hc3 & Hn3).
    + intros gp' e' Hin. apply (Hgaps gp' e'). right; exact Hin.
    + destruct rest as [|[gp' e'] rest']; [exact I|].
      rewrite Hn2.
      assert (gp' < timer_ms (delay o))
        by (apply (Hgaps gp' e'); right; left; reflexivity).
      lia.
    + change (run o (burst_actions rest)
                (handler o e (set_now (now s + gp) s)))
        with (fold_left (exec o) (burst_actions rest)
                (handler o e (set_now (now s + gp) s))) in *.
      split; [|split].
      * destruct rest as [|ge rest'].
        -- simpl in Ha3 |- *. rewrite Hn2. exact Ha3.
        -- cbn [map] in Ha3 |- *. cbn iota.
           rewrite last_cons_default.
           rewrite last_cons_default in Ha3. exact Ha3.
      * rewrite Hc3, Hc2. reflexivity.
      * rewrite Hn3, Hn2. lia.
Qed.

(** While the timer is armed and not yet due, a gap of 0 ms changes
    nothing: an event emitted in the same tick as the one before it is
    handled like one that arrives in a task of its own at the same
    millisecond. *)
Lemma armed_same_tick : forall o s D e0,
    armed s D e0 -> now s < D -> exec o s (Sleep 0) = s.
Proof.
  intros o s D e0 Harm Hlt. simpl.
  rewrite (armed_advance_short o s D e0 (now s + 0) Harm) by lia.
  rewrite Nat.max_r by lia. rewrite Nat.add_0_r.
  destruct s; reflexivity.
Qed.

Lemma same_calls : forall (l : list Call) (c : Call) x y e,
    x = y -> l ++ [c; Trigger x e] = l ++ [c; Trigger y e].
Proof. intros; subst; reflexivity. Qed.

Lemma single_event : forall o f g s e u1 d k H,
    idle s ->
    onWillTrigger o = Some f -> onTrigger o = Some g ->
    f e (now s) (user s) = (u1, Resolves d k) ->
    d + timer_ms (delay o) <= H ->
    let s' := run o [Emit e; Sleep H] s in
    calls s' = calls s ++ [WillTrigger (now s) e;
                           Trigger (now s + d + timer_ms (delay o)) e] /\
    idle s'.
Proof.
  intros o f g s e u1 d k H Hidle Hf Hg Hr HH s'. subst s'.
  destruct (idle_emit o f s e u1 d k Hidle Hf Hr) as (Hw & Hc & Hn).
  change (run o [Emit e; Sleep H] s)
    with (advance o (now (handler o e s) + H) (handler o e s)).
  set (s1 := handler o e s) in *.
  rewrite (waiting_advance_resume o s1 _ (now s1 + H) Hw eq_refl)
    by (simpl; rewrite Hn; lia).
  pose proof (resumed_armed o s1 _ (Nat.max (now s1) (now s + d)) Hw) as Ha.
  cbn [settles captured cont] in Ha |- *.
  set (s2 := arm o e _) in *.
  assert (Hc2 : calls s2 = calls s1) by reflexivity.
  assert (Hn2 : now s2 = Nat.max (now s1) (now s + d)) by reflexivity.
  destruct (armed_advance_fire o g s2 _ _ (now s1 + H) Hg Ha)
    as (Hc3 & Hi3 & _); [lia|].
  split; [|exact Hi3].
  rewrite Hc3, Hc2, Hc, Hn2, Hn, <- app_assoc.
  apply same_calls. lia.
Qed.

Lemma last_call_trigger_closed : forall o s l t e,
    reachable o s -> onWillTrigger o <> None ->
    calls s = l ++ [Trigger t e] -> closed s.
Proof.
  intros o s l t e Hr Hw Hc.
  destruct (reachable_inv _ _ Hr) as (_ & _ & HW).
  destruct (isProcessing s) eqn:Hp.
  - exfalso. apply (ends_with_will_snoc_trigger l t e). rewrite <- Hc.
    apply HW; [exact Hw|]. intros [H _]. congruence.
  - destruct (timer s) as [h|] eqn:Htm.
    + exfalso. apply (ends_with_will_snoc_trigger l t e). rewrite <- Hc.
      apply HW; [exact Hw|]. intros [_ H]. congruence.
    + split; assumption.
Qed.

(** *** The claims about one watch *)

(** C1 (as amended).  [D] is the time the timer runs: [delay] if that is
    between 1 and 2^31 - 1, and 1 otherwise.  On a watch that has both
    callbacks, take a state with no window open and a burst of events in
    which the call of [onWillTrigger] for the first event fulfils after [d]
    ms, every later event comes in a task of its own, less than [D] ms
    after the event before it, and the second event comes no sooner than
    [d] ms after the first.  Left alone afterwards for [D] ms (for a single
    event: [d + D] ms), the watch has made exactly one call of
    [onWillTrigger], with the first event and at its arrival, and exactly
    one call of [onTrigger], with the last event, [D] ms after that event
    arrived (for a single event: [D] ms after [onWillTrigger] fulfilled);
    the window is closed afterwards. *)
Theorem debounce_burst : forall o f g s e1 u1 d k tail H,
    reachable o s -> closed s ->
    onWillTrigger o = Some f -> onTrigger o = Some g ->
    f e1 (now s) (user s) = (u1, Resolves d k) ->
    (forall gp e, In (gp, e) tail -> gp < timer_ms (delay o)) ->
    match tail with
    | (gp, _) :: _ => d <= gp
    | [] => d + timer_ms (delay o) <= H
    end ->
    timer_ms (delay o) <= H ->
    let s' := run o (Emit e1 :: burst_actions tail ++ [Sleep H]) s in
    calls s' =
    calls s ++
      [WillTrigger (now s) e1;
       Trigger (match tail with
                | [] => now s + d + timer_ms (delay o)
                | _ => now s + elapsed tail + timer_ms (delay o)
                end) (last (map snd tail) e1)] /\
    closed s'.
Proof.
  intros o f g s e1 u1 d k tail H Hr Hcl Hf Hg Hres Hgaps Hfirst HH s'.
  subst s'.
  pose proof (closed_idle o s Hr Hcl) as Hidle.
  destruct tail as [|[gp e2] rest].
  - destruct (single_event o f g s e1 u1 d k H Hidle Hf Hg Hres Hfirst)
      as [Hc Hi].
    split; [exact Hc|apply Hi].
  - destruct (idle_emit o f s e1 u1 d k Hidle Hf Hres) as (Hw & Hc & Hn).
    assert (Hgp : gp < timer_ms (delay o))
      by (apply (Hgaps gp e2); left; reflexivity).
    change (run o (Emit e1 :: burst_actions ((gp, e2) :: rest) ++ [Sleep H]) s)
      with (run o (burst_actions rest ++ [Sleep H])
              (handler o e2 (advance o (now (handler o e1 s) + gp)
                               (handler o e1 s)))).
    set (s1 := handler o e1 s) in *.
    rewrite (waiting_advance_resume o s1 _ (now s1 + gp) Hw eq_refl)
      by (simpl; rewrite Hn; lia).
    pose proof (resumed_armed o s1 _ (Nat.max (now s1) (now s + d)) Hw) as Ha.
    cbn [settles captured cont] in Ha |- *.
    set (s2 := arm o e1 _) in *.
    assert (Hc2 : calls s2 = calls s1) by reflexivity.
    assert (Hn2 : now s2 = Nat.max (now s1) (now s + d)) by reflexivity.
    rewrite (armed_advance_short o s2 _ _ (now s1 + gp) Ha) by lia.
    set (s3 := set_now _ s2).
    assert (Hc3 : calls s3 = calls s2) by reflexivity.
    assert (Hn3 : now s3 = Nat.max (now s2) (now s1 + gp)) by reflexivity.
    destruct (armed_emit o s3 _ _ e2 (armed_set_now _ _ _ (now s3) Ha))
      as (Ha4 & Hc4 & Hn4 & _).
    change (set_now (now s3) s2) with s3 in Ha4, Hc4, Hn4.
    set (s4 := handler o e2 s3) in *.
    rewrite run_app.
    destruct (burst_tail o rest s4 _ _ Ha4) as (Ha5 & Hc5 & Hn5).
    { intros gp' e' Hin. apply (Hgaps gp' e'). right; exact Hin. }
    { destruct rest as [|[gp' e'] rest']; [exact I|].
      assert (gp' < timer_ms (delay o))
        by (apply (Hgaps gp' e'); right; left; reflexivity).
      lia. }
    set (s5 := run o (burst_actions rest) s4) in *.
    assert (Hdue : armed s5 (now s5 + timer_ms (delay o))
                         (last (map snd rest) e2)).
    { destruct rest; [|exact Ha5].
      assert (E : now s5 = now s3) by (rewrite Hn5, Hn4; simpl; lia).
      rewrite E. exact Ha5. }
    change (run o [Sleep H] s5) with (advance o (now s5 + H) s5).
    destruct (armed_advance_fire o g s5 _ _ (now s5 + H) Hg Hdue)
      as (Hc6 & Hi6 & _); [lia|].
    split; [|apply Hi6].
    rewrite Hc6, Hc5, Hc4, Hc3, Hc2, Hc, <- app_assoc.
    cbn [map snd]. rewrite last_cons_default.
    cbn [elapsed fold_right fst]. fold (elapsed rest).
    apply same_calls. lia.
Qed.

(** C2 (as amended).  On a watch that has both callbacks, whenever the
    last call made so far is a call of [onTrigger], the window is closed:
    the next event gets a call of [onWillTrigger] of its own, at its
    arrival; and if that call fulfils after [d] ms and the watch is then
    left alone for [d + D] ms, a separate call of [onTrigger] follows, with
    that event, [D] ms after [onWillTrigger] fulfilled ([D] is [delay] if
    that is between 1 and 2^31 - 1, and 1 otherwise). *)
Theorem fresh_burst_after_trigger : forall o f g u pre l t0 e0 e u1 d k H,
    onWillTrigger o = Some f -> onTrigger o = Some g ->
    calls (run o pre (init u)) = l ++ [Trigger t0 e0] ->
    f e (now (run o pre (init u))) (user (run o pre (init u))) =
      (u1, Resolves d k) ->
    d + timer_ms (delay o) <= H ->
    closed (run o pre (init u)) /\
    calls (run o (pre ++ [Emit e]) (init u)) =
      l ++ [Trigger t0 e0; WillTrigger (now (run o pre (init u))) e] /\
    calls (run o (pre ++ [Emit e; Sleep H]) (init u)) =
      l ++ [Trigger t0 e0;
            WillTrigger (now (run o pre (init u))) e;
            Trigger (now (run o pre (init u)) + d + timer_ms (delay o)) e].
Proof.
  intros o f g u pre l t0 e0 e u1 d k H Hf Hg Hlast Hres HH.
  set (s := run o pre (init u)) in *.
  assert (Hr : reachable o s) by (apply reachable_run, reach_init).
  assert (Hcl : closed s).
  { apply (last_call_trigger_closed o s l t0 e0 Hr); [|exact Hlast].
    rewrite Hf. discriminate. }
  pose proof (closed_idle o s Hr Hcl) as Hidle.
  split; [exact Hcl|]. split.
  - rewrite run_app. fold s. simpl.
    destruct (idle_emit o f s e u1 d k Hidle Hf Hres) as (_ & Hc & _).
    rewrite Hc, Hlast, <- app_assoc. reflexivity.
  - rewrite run_app. fold s.
    destruct (single_event o f g s e u1 d k H Hidle Hf Hg Hres HH) as [Hc _].
    rewrite Hc, Hlast, <- app_assoc. reflexivity.
Qed.

Lemma handler_calls_only_when_closed : forall o e s,
    calls (handler o e s) <> calls s -> closed s.
Proof.
  intros o e s. unfold handler, closed.
  destruct (isProcessing s); [intros H; exfalso; apply H; reflexivity|].
  simpl. destruct (timer s); [|auto].
  intros H. exfalso. apply H. reflexivity.
Qed.

(** C3.  In every reachable state at most one timeout of the watch is
    pending; an event that finds the timer armed cancels it and arms a new
    one, set to [delay] and carrying the new event, without calling
    [onWillTrigger]; an event leads to a call of [onWillTrigger] only when
    no window is open; and [onWillTrigger] is never called twice without a
    call of [onTrigger] in between, whatever the interleaving (events of
    one tick included). *)
Theorem single_timer_sliding_window : forall o s,
    reachable o s ->
    List.length (timers s) <= 1 /\
    (timer s = None -> timers s = []) /\
    (forall h e, timer s = Some h ->
       calls (handler o e s) = calls s /\
       user (handler o e s) = user s /\
       timer (handler o e s) = Some (next_tid s) /\
       timers (handler o e s) =
         [mkTimeout (next_tid s) (now s + timer_ms (delay o)) e]) /\
    (forall e, calls (handler o e s) <> calls s -> closed s) /\
    (onTrigger o <> None -> no_double_will (calls s)).
Proof.
  intros o s Hr. destruct (reachable_inv _ _ Hr) as (Hwf & HT & _).
  unfold wf in Hwf. destruct (timer s) as [h|] eqn:Htm.
  - destruct Hwf as (t & Hts & Hid & Hp & Ha).
    split; [rewrite Hts; simpl; lia|].
    split; [discriminate|]. split; [|split; [|apply HT]].
    + intros h' e Hh. unfold handler. rewrite Hp; simpl. rewrite Htm.
      unfold arm, clearTimeout; simpl. rewrite Hts; simpl.
      rewrite Hid, Nat.eqb_refl; simpl. auto.
    + intros e. apply handler_calls_only_when_closed.
  - destruct Hwf as [Hts _].
    split; [rewrite Hts; simpl; lia|].
    split; [auto|]. split; [discriminate|]. split; [|apply HT].
    intros e. apply handler_calls_only_when_closed.
Qed.

(** C10.  An event that arrives while the handler is suspended on the
    user's [onWillTrigger] leaves the state of the watch exactly as it
    was: no callback runs, the timer is untouched, and the rest of the run
    is the run without that event, so its payload reaches no later call. *)
Theorem event_while_awaiting_discarded : forall o u pre e post,
    awaiting (run o pre (init u)) <> None ->
    handler o e (run o pre (init u)) = run o pre (init u) /\
    run o (pre ++ Emit e :: post) (init u) = run o (pre ++ post) (init u).
Proof.
  intros o u pre e post Ha.
  assert (Hh : handler o e (run o pre (init u)) = run o pre (init u)).
  { apply handler_processing.
    apply (awaiting_processing o); [|exact Ha].
    apply reachable_run, reach_init. }
  split; [exact Hh|].
  rewrite !run_app. simpl. rewrite Hh. reflexivity.
Qed.

(** C4 (what the code does).  If the user's [onWillTrigger] throws, or
    returns a promise that rejects, line 185 is never reached:
    [isProcessing] stays [true] and every later event of the watch is
    dropped, whatever happens next. *)
Theorem failed_onWillTrigger_kills_watch : forall o f s e u1 r acts,
    idle s ->
    onWillTrigger o = Some f ->
    f e (now s) (user s) = (u1, r) ->
    (r = Throws \/ exists d, r = Rejects d) ->
    calls (run o (Emit e :: acts) s) = calls s ++ [WillTrigger (now s) e] /\
    isProcessing (run o (Emit e :: acts) s) = true.
Proof.
  intros o f s e u1 r acts ((Hp & Htm) & Ha & Hts) Hf Hr Hfail.
  assert (Hstuck : stuck (handler o e s) /\
                   calls (handler o e s) = calls s ++ [WillTrigger (now s) e]).
  { unfold handler. rewrite Hp; simpl. rewrite Htm, Hf, Hr.
    destruct Hfail as [->|[d ->]]; unfold stuck; simpl;
      rewrite ?Ha; repeat split; assumption. }
  destruct Hstuck as [Hst Hc].
  simpl. destruct (stuck_run o acts _ Hst) as [Hst' Hc'].
  split; [congruence|apply Hst'].
Qed.

End WithUser.
Arguments timer_ms : simpl never.
Arguments Outcome : clear implicits.
Arguments Options : clear implicits.
Arguments State : clear implicits.
Arguments Awaiting : clear implicits.

(** *** Concrete runs *)

Definition ev_a : ChangeEvent := mkEvent change "src/a.ts" None.
Definition ev_b : ChangeEvent := mkEvent change "src/b.ts" None.

(** Callbacks without state; [onWillTrigger] settles after [d] ms. *)
Definition settling_after (d : nat) : Options unit unit :=
  mkOptions 1000
    (Some (fun _ _ u => (u, Resolves d tt)))
    (Some (fun _ _ u => u))
    (fun _ u => u).

Definition instant : Options unit unit := settling_after 0.
Definition slow : Options unit unit := settling_after 50.

(** [onWillTrigger] throws. *)
Definition failing : Options unit unit :=
  mkOptions 1000 (Some (fun _ _ u => (u, Throws))) (Some (fun _ _ u => u))
    (fun _ u => u).

(** [delay] 1000, [a] changes at 0 and [b] at 300: one [onWillTrigger] at 0,
    one [onTrigger] at 1300, for [b]. *)
Example scenario_two_changes :
  calls (run instant [Emit ev_a; Sleep 300; Emit ev_b; Sleep 1000] (init tt))
  = [WillTrigger 0 ev_a; Trigger 1300 ev_b].
Proof. reflexivity. Qed.

(** Two events emitted in one tick: the second one meets the guard. *)
Example same_tick_second_event_lost :
  calls (run instant [Emit ev_a; Emit ev_b; Sleep 2000] (init tt))
  = [WillTrigger 0 ev_a; Trigger 1000 ev_a].
Proof. reflexivity. Qed.

Lemma debounce_burst_witness :
  closed (init tt : State unit unit) /\
  calls (run instant (Emit ev_a :: burst_actions [(300, ev_b)] ++ [Sleep 1000])
           (init tt))
  = [WillTrigger 0 ev_a; Trigger 1300 ev_b].
Proof.
  split; [split; reflexivity|].
  refine (proj1 (debounce_burst instant
                   (fun _ _ u => (u, Resolves 0 tt))
                   (fun _ _ u => u)
                   (init tt) ev_a tt 0 tt [(300, ev_b)] 1000
                   (reach_init _ tt) (conj eq_refl eq_refl) eq_refl eq_refl
                   eq_refl _ _ _)).
  - intros gp e [E|[]]. inversion E. apply Nat.ltb_lt. reflexivity.
  - simpl. lia.
  - apply Nat.leb_le. reflexivity.
Defined.

(** C1 (as stated) fails: [b] follows [a] by 10 ms, well within [delay],
    but arrives while the call of [onWillTrigger] for [a] is still pending
    (it takes 50 ms).  The guard drops [b], and [onTrigger] receives [a],
    which is not the last event of the burst. *)
Lemma debounce_burst_last_event_counterexample :
  (forall gp e, In (gp, e) [(10, ev_b)] -> gp < delay slow) /\
  calls (run slow (Emit ev_a :: burst_actions [(10, ev_b)] ++ [Sleep 2000])
           (init tt))
  = [WillTrigger 0 ev_a; Trigger 1050 ev_a] /\
  ev_a <> last (map snd [(10, ev_b)]) ev_a.
Proof.
  split; [|split].
  - intros gp e [E|[]]. inversion E. simpl. lia.
  - reflexivity.
  - simpl. discriminate.
Qed.

Lemma fresh_burst_after_trigger_witness :
  calls (run instant [Emit ev_a; Sleep 1000] (init tt))
  = [WillTrigger 0 ev_a] ++ [Trigger 1000 ev_a] /\
  calls (run instant ([Emit ev_a; Sleep 1000] ++ [Emit ev_b; Sleep 1000])
           (init tt))
  = [WillTrigger 0 ev_a] ++
    [Trigger 1000 ev_a; WillTrigger 1000 ev_b; Trigger 2000 ev_b].
Proof.
  split; [reflexivity|].
  refine (proj2 (proj2 (fresh_burst_after_trigger instant
                   (fun _ _ u => (u, Resolves 0 tt))
                   (fun _ _ u => u)
                   tt [Emit ev_a; Sleep 1000] [WillTrigger 0 ev_a] 1000 ev_a
                   ev_b tt 0 tt 1000
                   eq_refl eq_refl eq_refl eq_refl _))).
  apply Nat.leb_le. reflexivity.
Defined.

(** [onWillTrigger] takes 1200 ms. *)
Definition sluggish : Options unit unit := settling_after 1200.

Definition ev_c : ChangeEvent := mkEvent change "src/c.ts" None.

(** C2 (as stated) fails: the first burst's [onTrigger] has fired at 2200;
    [b] arrives at 2300 and [c] at 3400, which is 1100 ms of silence after
    [b], more than [delay].  But the call of [onWillTrigger] for [b] is
    still awaited at 3400, so the guard drops [c]: it gets no
    [onWillTrigger] and no [onTrigger] of its own, and the window that [b]
    opened goes on across the silence. *)
Lemma fresh_burst_after_gap_counterexample :
  calls (run sluggish [Emit ev_a; Sleep 2300] (init tt))
  = [WillTrigger 0 ev_a; Trigger 2200 ev_a] /\
  delay sluggish < 1100 /\
  calls (run sluggish [Emit ev_a; Sleep 2300; Emit ev_b; Sleep 1100;
                       Emit ev_c; Sleep 3000] (init tt))
  = [WillTrigger 0 ev_a; Trigger 2200 ev_a;
     WillTrigger 2300 ev_b; Trigger 4500 ev_b] /\
  forall t,
    ~ In (WillTrigger t ev_c)
         (calls (run sluggish [Emit ev_a; Sleep 2300; Emit ev_b; Sleep 1100;
                               Emit ev_c; Sleep 3000] (init tt))) /\
    ~ In (Trigger t ev_c)
         (calls (run sluggish [Emit ev_a; Sleep 2300; Emit ev_b; Sleep 1100;
                               Emit ev_c; Sleep 3000] (init tt))).
Proof.
  assert (E : calls (run sluggish [Emit ev_a; Sleep 2300; Emit ev_b;
                                   Sleep 1100; Emit ev_c; Sleep 3000]
                         (init tt))
              = [WillTrigger 0 ev_a; Trigger 2200 ev_a;
                 WillTrigger 2300 ev_b; Trigger 4500 ev_b])
    by (vm_compute; reflexivity).
  split; [vm_compute; reflexivity|]. split; [apply Nat.ltb_lt; reflexivity|].
  split; [exact E|].
  intros t. rewrite E. split; intros H;
    repeat (destruct H as [H|H]; [discriminate|]); exact H.
Qed.

Lemma single_timer_sliding_window_witness :
  reachable instant (run instant [Emit ev_a; Sleep 300] (init tt)) /\
  List.length (timers (run instant [Emit ev_a; Sleep 300] (init tt))) <= 1.
Proof.
  split.
  - apply reachable_run, reach_init.
  - apply (single_timer_sliding_window instant).
    apply reachable_run, reach_init.
Defined.

Lemma event_while_awaiting_discarded_witness :
  awaiting (run slow [Emit ev_a; Sleep 10] (init tt)) <> None /\
  run slow ([Emit ev_a; Sleep 10] ++ Emit ev_b :: [Sleep 2000]) (init tt)
  = run slow ([Emit ev_a; Sleep 10] ++ [Sleep 2000]) (init tt).
Proof.
  split.
  - simpl. discriminate.
  - apply (event_while_awaiting_discarded slow tt [Emit ev_a; Sleep 10]).
    simpl. discriminate.
Defined.

Lemma failed_onWillTrigger_kills_watch_witness :
  idle (init tt : State unit unit) /\
  calls (run failing [Emit ev_a; Sleep 4000; Emit ev_b; Sleep 4000] (init tt))
  = [WillTrigger 0 ev_a].
Proof.
  split; [repeat split|].
  refine (proj1 (failed_onWillTrigger_kills_watch failing
                   (fun _ _ u => (u, Throws)) (init tt) ev_a tt Throws
                   [Sleep 4000; Emit ev_b; Sleep 4000]
                   (conj (conj eq_refl eq_refl) (conj eq_refl eq_refl))
                   eq_refl eq_refl (or_introl eq_refl))).
Defined.

(** The same events with a callback that succeeds: both bursts are served. *)
Example succeeded_onWillTrigger_keeps_watch :
  calls (run instant [Emit ev_a; Sleep 4000; Emit ev_b; Sleep 4000] (init tt))
  = [WillTrigger 0 ev_a; Trigger 1000 ev_a;
     WillTrigger 4000 ev_b; Trigger 5000 ev_b].
Proof. reflexivity. Qed.

(** ** More about one watch *)

Section Provenance.
Context {U K : Type}.

Definition call_event (c : Call) : ChangeEvent :=
  match c with
  | WillTrigger _ e => e
  | Trigger _ e => e
  end.

Definition call_time (c : Call) : nat :=
  match c with
  | WillTrigger t _ => t
  | Trigger t _ => t
  end.

(** The events chokidar emitted, in order. *)
Definition emitted (acts : list Action) : list ChangeEvent :=
  flat_map (fun a => match a with
                     | Emit e => [e]
                     | Sleep _ => []
                     end) acts.

(** Every event the watch holds on to (in its log, in a pending timeout,
    in the suspended handler) is one of [E]. *)
Definition known (E : list ChangeEvent) (s : State U K) : Prop :=
  (forall c, In c (calls s) -> In (call_event c) E) /\
  (forall t, In t (timers s) -> In (payload t) E) /\
  (forall a, awaiting s = Some a -> In (captured a) E).

Lemma known_incl : forall E E' (s : State U K),
    incl E E' -> known E s -> known E' s.
Proof.
  intros E E' s Hi (Hc & Ht & Ha). repeat split; intros; apply Hi; auto.
Qed.

Lemma known_handler : forall (o : Options U K) E e s,
    known E s -> In e E -> known E (handler o e s).
Proof.
  intros o E e s HK He. pose proof HK as (Hc & Ht & Ha). unfold handler.
  destruct (isProcessing s); [exact HK|]. simpl.
  destruct (timer s) as [h|].
  - unfold known, arm, clearTimeout; simpl. split; [exact Hc|]. split.
    + intros t Hin. apply in_app_or in Hin. destruct Hin as [Hin|[<-|[]]].
      * apply filter_In in Hin. apply Ht, Hin.
      * exact He.
    + exact Ha.
  - destruct (onWillTrigger o) as [f|].
    + destruct (f e (now s) (user s)) as [u' r].
      assert (Hc' : forall c, In c (calls s ++ [WillTrigger (now s) e]) ->
                              In (call_event c) E).
      { intros c Hin. apply in_app_or in Hin.
        destruct Hin as [Hin|[<-|[]]]; [apply Hc, Hin|exact He]. }
      destruct r; unfold known; simpl; (split; [exact Hc'|split; [exact Ht|]]).
      * intros a Heq. inversion Heq; subst. exact He.
      * intros a Heq. inversion Heq; subst. exact He.
      * exact Ha.
      * exact Ha.
    + unfold known; simpl. split; [exact Hc|]. split; [exact Ht|].
      intros a Heq. inversion Heq; subst. exact He.
Qed.

Lemma known_resume : forall (o : Options U K) E s,
    known E s -> known E (resume o s).
Proof.
  intros o E s HK. pose proof HK as (Hc & Ht & Ha). unfold resume.
  destruct (awaiting s) as [a|] eqn:Haw; [|exact HK].
  specialize (Ha a eq_refl).
  destruct (fulfilled a); unfold known, arm; simpl.
  - split; [exact Hc|]. split; [|discriminate].
    intros t Hin. apply in_app_or in Hin.
    destruct Hin as [Hin|[<-|[]]]; [apply Ht, Hin|exact Ha].
  - split; [exact Hc|]. split; [exact Ht|discriminate].
Qed.

Lemma known_fire : forall (o : Options U K) E t s,
    known E s -> In t (timers s) -> known E (fire o t s).
Proof.
  intros o E t s (Hc & Ht & Ha) Hin. unfold fire, clearTimeout.
  assert (Ht' : forall t', In t' (filter (fun x => negb (tid x =? tid t))
                                         (timers s)) -> In (payload t') E).
  { intros t' H. apply filter_In in H. apply Ht, H. }
  destruct (onTrigger o) as [g|]; unfold known; simpl.
  - split; [|split; [exact Ht'|exact Ha]].
    intros c Hc'. apply in_app_or in Hc'.
    destruct Hc' as [Hc'|[<-|[]]]; [apply Hc, Hc'|apply Ht, Hin].
  - split; [exact Hc|]. split; [exact Ht'|exact Ha].
Qed.

Lemma next_task_fire_In : forall (s : State U K) d t,
    next_task s = Some (d, TFire t) -> In t (timers s).
Proof.
  intros s d t H. unfold next_task in H.
  destruct (awaiting s) as [a|];
    destruct (earliest (timers s)) as [t'|] eqn:Et; try discriminate.
  - destruct (settles a <=? due t'); inversion H; subst.
    apply earliest_In; exact Et.
  - inversion H; subst. apply earliest_In; exact Et.
Qed.

Lemma known_exec : forall (o : Options U K) E s a,
    known E s -> known (E ++ emitted [a]) (exec o s a).
Proof.
  intros o E s [e|dt] HK; simpl.
  - apply known_handler.
    + eapply known_incl; [|exact HK]. apply incl_appl, incl_refl.
    + apply in_or_app. right. left. reflexivity.
  - rewrite app_nil_r. unfold advance.
    assert (HS : known E (settle (step o (now s + dt)) pending s)).
    { apply settle_ind; [|exact HK].
      intros s1 s2 H1. unfold step.
      destruct (next_task s1) as [[d k]|] eqn:Hn; [|discriminate].
      destruct (d <=? now s + dt); [|discriminate].
      intros Heq; inversion Heq; subst; clear Heq.
      destruct k as [|t]; simpl.
      - apply known_resume. exact H1.
      - apply known_fire; [exact H1|].
        apply (next_task_fire_In s1 d t Hn). }
    exact HS.
Qed.

Lemma known_run : forall (o : Options U K) acts E s,
    known E s -> known (E ++ emitted acts) (run o acts s).
Proof.
  intros o acts. induction acts as [|a acts IH]; intros E s HK; simpl.
  - rewrite app_nil_r. exact HK.
  - specialize (IH _ _ (known_exec o E s a HK)).
    change (emitted (a :: acts)) with (emitted [a] ++ emitted acts).
    unfold emitted in *. simpl in *. rewrite app_nil_r in IH.
    rewrite app_assoc. exact IH.
Qed.

(** X1.  The watch never invents an event: whatever it passes to
    [onWillTrigger] or [onTrigger] was emitted by chokidar earlier in the
    run. *)
Theorem callbacks_get_emitted_events : forall (o : Options U K) u acts c,
    In c (calls (run o acts (init u))) -> In (call_event c) (emitted acts).
Proof.
  intros o u acts c Hin.
  assert (HK : known [] (init u : State U K)).
  { repeat split; simpl; intros; try contradiction; discriminate. }
  destruct (known_run o acts [] (init u) HK) as (Hc & _).
  apply (Hc c Hin).
Qed.

(** Every call of [onTrigger] in [l] comes right after a call of
    [onWillTrigger]. *)
Definition triggers_led (l : list Call) : Prop :=
  forall l1 t e l2, l = l1 ++ Trigger t e :: l2 -> ends_with_will l1.

Lemma triggers_led_snoc_will : forall l t e,
    triggers_led l -> triggers_led (l ++ [WillTrigger t e]).
Proof.
  intros l t e Hl l1 t' e' l2 H.
  destruct (exists_last (l := Trigger t' e' :: l2)) as (m & x & Hm);
    [discriminate|].
  rewrite Hm, app_assoc in H. apply app_inj_tail in H.
  destruct H as [H Hx]. subst x.
  destruct m as [|c m].
  - simpl in Hm. inversion Hm.
  - simpl in Hm. injection Hm as Hc _. subst c.
    apply (Hl l1 t' e' m). exact H.
Qed.

Lemma triggers_led_snoc_trigger : forall l t e,
    triggers_led l -> ends_with_will l -> triggers_led (l ++ [Trigger t e]).
Proof.
  intros l t e Hl Hend l1 t' e' l2 H.
  destruct (exists_last (l := Trigger t' e' :: l2)) as (m & x & Hm);
    [discriminate|].
  rewrite Hm, app_assoc in H. apply app_inj_tail in H.
  destruct H as [H Hx]. subst x.
  destruct m as [|c m].
  - rewrite app_nil_r in H. subst l1. exact Hend.
  - simpl in Hm. injection Hm as Hc _. subst c.
    apply (Hl l1 t' e' m). exact H.
Qed.

Lemma reachable_triggers_led : forall (o : Options U K) s,
    onWillTrigger o <> None -> reachable o s -> triggers_led (calls s).
Proof.
  intros o s Hw Hr. induction Hr as [u|s e Hr IH|s Hr IH|s t Hr IH Hin|s n Hr IH].
  - intros l1 t e l2 H. destruct l1; discriminate.
  - unfold handler. destruct (isProcessing s); [exact IH|]. simpl.
    destruct (timer s); [exact IH|].
    destruct (onWillTrigger o) as [f|]; [|exact IH].
    destruct (f e (now s) (user s)) as [u' r].
    destruct r; simpl; apply triggers_led_snoc_will; exact IH.
  - unfold resume. destruct (awaiting s) as [a|]; [|exact IH].
    destruct (fulfilled a); exact IH.
  - destruct (reachable_inv _ _ Hr) as (Hwf & _ & HW).
    assert (Hend : ends_with_will (calls s)).
    { apply HW; [exact Hw|]. intros [_ Ht]. unfold wf in Hwf.
      rewrite Ht in Hwf. destruct Hwf as [Hts _]. rewrite Hts in Hin.
      contradiction. }
    unfold fire. destruct (onTrigger o); simpl; [|exact IH].
    apply triggers_led_snoc_trigger; assumption.
  - exact IH.
Qed.

(** X2.  On a watch that has an [onWillTrigger], every call of [onTrigger]
    comes right after a call of [onWillTrigger]: the trailing call of a
    burst is never made without its leading call, and never twice. *)
Theorem trigger_follows_will : forall (o : Options U K) s l1 t e l2,
    reachable o s -> onWillTrigger o <> None ->
    calls s = l1 ++ Trigger t e :: l2 ->
    exists l0 t0 e0, l1 = l0 ++ [WillTrigger t0 e0].
Proof.
  intros o s l1 t e l2 Hr Hw Hc.
  apply (reachable_triggers_led o s Hw Hr l1 t e l2 Hc).
Qed.

End Provenance.

Section Timing.
Context {U K : Type}.

(** The last call recorded is a call of [onWillTrigger], made at [t1]. *)
Definition last_will (l : list Call) (t1 : nat) : Prop :=
  exists l' e, l = l' ++ [WillTrigger t1 e].

(** Wherever a call of [onTrigger] follows a call of [onWillTrigger], at
    least [d] ms lie between them. *)
Definition respected (d : nat) (l : list Call) : Prop :=
  forall l1 t1 e1 t2 e2 l2,
    l = l1 ++ WillTrigger t1 e1 :: Trigger t2 e2 :: l2 -> t1 + d <= t2.

Lemma respected_snoc_will : forall d l t e,
    respected d l -> respected d (l ++ [WillTrigger t e]).
Proof.
  intros d l t e Hl l1 t1 e1 t2 e2 l2 H.
  destruct (exists_last (l := Trigger t2 e2 :: l2)) as (m & x & Hm);
    [discriminate|].
  change (l ++ [WillTrigger t e] =
          l1 ++ [WillTrigger t1 e1] ++ Trigger t2 e2 :: l2) in H.
  rewrite Hm, !app_assoc in H. apply app_inj_tail in H.
  destruct H as [H Hx]. subst x.
  destruct m as [|c m].
  - simpl in Hm. inversion Hm.
  - simpl in Hm. injection Hm as Hc _. subst c.
    apply (Hl l1 t1 e1 t2 e2 m). rewrite H, <- app_assoc. reflexivity.
Qed.

Lemma respected_snoc_trigger : forall d l t e,
    respected d l -> (forall t1, last_will l t1 -> t1 + d <= t) ->
    respected d (l ++ [Trigger t e]).
Proof.
  intros d l t e Hl Hlast l1 t1 e1 t2 e2 l2 H.
  destruct (exists_last (l := Trigger t2 e2 :: l2)) as (m & x & Hm);
    [discriminate|].
  change (l ++ [Trigger t e] =
          l1 ++ [WillTrigger t1 e1] ++ Trigger t2 e2 :: l2) in H.
  rewrite Hm, !app_assoc in H. apply app_inj_tail in H.
  destruct H as [H Hx]. subst x.
  destruct m as [|c m].
  - simpl in Hm. inversion Hm; subst. apply Hlast.
    exists l1, e1. rewrite app_nil_r. reflexivity.
  - simpl in Hm. injection Hm as Hc _. subst c.
    apply (Hl l1 t1 e1 t2 e2 m). rewrite H, <- app_assoc. reflexivity.
Qed.

Lemma last_will_snoc : forall l c t1,
    last_will (l ++ [c]) t1 -> exists e, c = WillTrigger t1 e.
Proof.
  intros l c t1 (l' & e & H). apply app_inj_tail in H.
  destruct H as [_ H]. exists e. exact H.
Qed.

(** What the clock tells about a state: no call lies in the future, the
    delay was respected so far, and after a call of [onWillTrigger] at [t1]
    nothing pending can lead to [onTrigger] before [t1 + delay]. *)
Definition timed (o : Options U K) (s : State U K) : Prop :=
  inv o s /\
  (forall c, In c (calls s) -> call_time c <= now s) /\
  respected (timer_ms (delay o)) (calls s) /\
  (forall t1, last_will (calls s) t1 ->
     (forall tm, In tm (timers s) -> t1 + timer_ms (delay o) <= due tm) /\
     (forall a, awaiting s = Some a -> t1 <= settles a)).

Lemma last_will_before_now : forall (o : Options U K) s t1,
    timed o s -> last_will (calls s) t1 -> t1 <= now s.
Proof.
  intros o s t1 (_ & Ha & _) (l' & e & H).
  apply (Ha (WillTrigger t1 e)). rewrite H. apply in_or_app. right. left.
  reflexivity.
Qed.

Lemma timed_clock : forall (o : Options U K) s n,
    timed o s -> now s <= n -> timed o (set_now n s).
Proof.
  intros o s n (Hi & Ha & Hr & Hp) Hn. split; [exact Hi|].
  split; [|split; assumption].
  intros c Hc. simpl. specialize (Ha c Hc). lia.
Qed.

Lemma timed_handler : forall (o : Options U K) s e,
    timed o s -> timed o (handler o e s).
Proof.
  intros o s e HT. pose proof HT as (Hi & Ha & Hr & Hp).
  pose proof (inv_handler o s e Hi) as Hi'.
  split; [exact Hi'|]. clear Hi'.
  pose proof (proj1 Hi) as Hwf. unfold wf in Hwf.
  destruct (isProcessing s) eqn:Hproc.
  { unfold handler. rewrite Hproc. exact (proj2 HT). }
  unfold handler. rewrite Hproc.
  simpl. destruct (timer s) as [h|] eqn:Htm.
  - (* the timer slides *)
    unfold arm, clearTimeout; simpl.
    split; [exact Ha|]. split; [exact Hr|].
    intros t1 Hl. destruct (Hp t1 Hl) as [Hts Haw]. split; [|exact Haw].
    intros tm Hin. apply in_app_or in Hin. destruct Hin as [Hin|[<-|[]]].
    + apply filter_In in Hin. apply Hts, Hin.
    + simpl. pose proof (last_will_before_now o s t1 HT Hl). lia.
  - destruct Hwf as [Hts Hnone].
    assert (Haw : awaiting s = None).
    { destruct (awaiting s) as [a0|] eqn:E0; [|reflexivity]. exfalso.
      assert (Hx : Some a0 <> None) by discriminate.
      apply Hnone in Hx. congruence. }
    destruct (onWillTrigger o) as [f|].
    + destruct (f e (now s) (user s)) as [u' r].
      assert (Ha' : forall c, In c (calls s ++ [WillTrigger (now s) e]) ->
                              call_time c <= now s).
      { intros c Hin. apply in_app_or in Hin.
        destruct Hin as [Hin|[<-|[]]]; [apply Ha, Hin|simpl; lia]. }
      pose proof (respected_snoc_will (timer_ms (delay o)) (calls s) (now s)
                    e Hr) as Hr'.
      destruct r; simpl; (split; [exact Ha'|split; [exact Hr'|]]);
        intros t1 Hl; apply last_will_snoc in Hl; destruct Hl as [e' He'];
        inversion He'; subst; rewrite Hts;
        (split; [intros tm []|]); intros a Heq.
      * inversion Heq; subst. simpl. lia.
      * inversion Heq; subst. simpl. lia.
      * congruence.
      * congruence.
    + simpl. split; [exact Ha|]. split; [exact Hr|].
      intros t1 Hl. rewrite Hts. split; [intros tm []|].
      intros a Heq. inversion Heq; subst. simpl.
      apply (last_will_before_now o s t1 HT Hl).
Qed.

Lemma timed_resume : forall (o : Options U K) s,
    timed o s -> timed o (resume o s).
Proof.
  intros o s HT. pose proof HT as (Hi & Ha & Hr & Hp).
  pose proof (inv_resume o s Hi) as Hi'.
  split; [exact Hi'|]. clear Hi'.
  destruct (awaiting s) as [a|] eqn:Haw.
  2:{ unfold resume. rewrite Haw. exact (proj2 HT). }
  unfold resume. rewrite Haw.
  destruct (fulfilled a); unfold arm; simpl.
  - split; [exact Ha|]. split; [exact Hr|].
    intros t1 Hl. destruct (Hp t1 Hl) as [Hts _].
    split; [|discriminate].
    intros tm Hin. apply in_app_or in Hin. destruct Hin as [Hin|[<-|[]]].
    + apply Hts, Hin.
    + simpl. pose proof (last_will_before_now o s t1 HT Hl). lia.
  - split; [exact Ha|]. split; [exact Hr|].
    intros t1 Hl. destruct (Hp t1 Hl) as [Hts _].
    split; [exact Hts|discriminate].
Qed.

Lemma timed_fire : forall (o : Options U K) s t,
    timed o s -> In t (timers s) -> due t <= now s -> timed o (fire o t s).
Proof.
  intros o s t HT Hin Hdue. pose proof HT as (Hi & Ha & Hr & Hp).
  pose proof (inv_fire o s t Hi Hin) as Hi'.
  split; [exact Hi'|]. clear Hi'.
  unfold fire, clearTimeout. destruct (onTrigger o) as [g|]; simpl.
  - split; [|split].
    + intros c Hc. apply in_app_or in Hc.
      destruct Hc as [Hc|[<-|[]]]; [apply Ha, Hc|simpl; lia].
    + apply respected_snoc_trigger; [exact Hr|].
      intros t1 Hl. destruct (Hp t1 Hl) as [Hts _].
      specialize (Hts t Hin). lia.
    + intros t1 Hl. apply last_will_snoc in Hl. destruct Hl as [e' He'].
      discriminate.
  - split; [exact Ha|]. split; [exact Hr|].
    intros t1 Hl. destruct (Hp t1 Hl) as [Hts Haw]. split; [|exact Haw].
    intros tm Htm. apply filter_In in Htm. apply Hts, Htm.
Qed.

Lemma next_task_fire_due : forall (s : State U K) d t,
    next_task s = Some (d, TFire t) -> d = due t.
Proof.
  intros s d t H. unfold next_task in H.
  destruct (awaiting s) as [a|];
    destruct (earliest (timers s)) as [t'|]; try discriminate.
  - destruct (settles a <=? due t'); inversion H; subst. reflexivity.
  - inversion H; subst. reflexivity.
Qed.

Lemma timed_exec : forall (o : Options U K) s a,
    timed o s -> timed o (exec o s a).
Proof.
  intros o s [e|dt] HT; simpl.
  - apply timed_handler; exact HT.
  - unfold advance. apply timed_clock; [|lia].
    apply settle_ind; [|exact HT].
    intros s1 s2 H1. unfold step.
    destruct (next_task s1) as [[d k]|] eqn:Hn; [|discriminate].
    destruct (d <=? now s + dt); [|discriminate].
    intros Heq; inversion Heq; subst; clear Heq.
    assert (H1' : timed o (set_now (Nat.max (now s1) d) s1))
      by (apply timed_clock; [exact H1|lia]).
    destruct k as [|t]; simpl.
    + apply timed_resume; exact H1'.
    + apply timed_fire; [exact H1'| |].
      * apply (next_task_fire_In s1 d t Hn).
      * simpl. rewrite (next_task_fire_due s1 d t Hn). lia.
Qed.

Lemma timed_run : forall (o : Options U K) acts s,
    timed o s -> timed o (run o acts s).
Proof.
  intros o acts. induction acts as [|a acts IH]; intros s HT; simpl.
  - exact HT.
  - apply IH, timed_exec, HT.
Qed.

Lemma timed_init : forall (o : Options U K) u, timed o (init u).
Proof.
  intros o u. split; [apply inv_init|]. simpl.
  split; [intros c []|]. split.
  - intros l1 t1 e1 t2 e2 l2 H. destruct l1; discriminate.
  - intros t1 (l' & e & H). destruct l'; discriminate.
Qed.

(** X3.  The timer is respected: in any run, a call of [onTrigger] that
    follows a call of [onWillTrigger] is made at least [D] ms after it,
    where [D] is the time the timer runs.  That is [delay] ms if [delay] is
    between 1 and 2^31 - 1, and 1 ms for any other [delay]. *)
Theorem trigger_waits_delay :
  forall (o : Options U K) u acts l1 t1 e1 t2 e2 l2,
    calls (run o acts (init u)) =
      l1 ++ WillTrigger t1 e1 :: Trigger t2 e2 :: l2 ->
    t1 + timer_ms (delay o) <= t2 /\
    (1 <= delay o -> (N.of_nat (delay o) <= TIMEOUT_MAX)%N ->
     t1 + delay o <= t2) /\
    (delay o = 0 \/ (TIMEOUT_MAX < N.of_nat (delay o))%N ->
     timer_ms (delay o) = 1) /\
    t1 < t2.
Proof.
  intros o u acts l1 t1 e1 t2 e2 l2 H.
  destruct (timed_run o acts (init u) (timed_init o u)) as (_ & _ & Hr & _).
  pose proof (Hr l1 t1 e1 t2 e2 l2 H) as Ht.
  pose proof (timer_ms_pos (delay o)) as Hpos.
  split; [exact Ht|]. split; [|split; [apply timer_ms_out_of_range|lia]].
  intros H1 H2. rewrite (timer_ms_in_range _ H1 H2) in Ht. exact Ht.
Qed.

End Timing.

Section Trailing.
Context {U K : Type}.

Lemma same_trigger : forall (l : list Call) x y e,
    x = y -> l ++ [Trigger x e] = l ++ [Trigger y e].
Proof. intros; subst; reflexivity. Qed.

(** From the state in which the handler is suspended: the rest of a
    burst. *)
Lemma waiting_burst : forall (o : Options U K) g s1 a tail H,
    onTrigger o = Some g ->
    waiting s1 a -> fulfilled a = true -> now s1 <= settles a ->
    (forall gp e, In (gp, e) tail -> gp < timer_ms (delay o)) ->
    match tail with
    | (gp, _) :: _ => settles a <= now s1 + gp
    | [] => settles a + timer_ms (delay o) <= now s1 + H
    end ->
    timer_ms (delay o) <= H ->
    calls (run o (burst_actions tail ++ [Sleep H]) s1) =
      calls s1 ++
      [Trigger (match tail with
                | [] => settles a + timer_ms (delay o)
                | _ => now s1 + elapsed tail + timer_ms (delay o)
                end) (last (map snd tail) (captured a))] /\
    closed (run o (burst_actions tail ++ [Sleep H]) s1).
Proof.
  intros o g s1 a tail H Hg Hw Hful Hnow Hgaps Hfirst HH.
  destruct tail as [|[gp e2] rest].
  - change (run o (burst_actions [] ++ [Sleep H]) s1)
      with (advance o (now s1 + H) s1).
    rewrite (waiting_advance_resume o s1 a (now s1 + H) Hw Hful) by lia.
    pose proof (resumed_armed o s1 a (Nat.max (now s1) (settles a)) Hw) as Ha.
    set (s2 := arm o (captured a) _) in *.
    assert (Hc2 : calls s2 = calls s1) by reflexivity.
    assert (Hn2 : now s2 = Nat.max (now s1) (settles a)) by reflexivity.
    destruct (armed_advance_fire o g s2 _ _ (now s1 + H) Hg Ha)
      as (Hc3 & Hi3 & _); [lia|].
    split; [|apply Hi3].
    rewrite Hc3, Hc2, Hn2. apply same_trigger. simpl. lia.
  - assert (Hgp : gp < timer_ms (delay o))
      by (apply (Hgaps gp e2); left; reflexivity).
    change (run o (burst_actions ((gp, e2) :: rest) ++ [Sleep H]) s1)
      with (run o (burst_actions rest ++ [Sleep H])
              (handler o e2 (advance o (now s1 + gp) s1))).
    rewrite (waiting_advance_resume o s1 a (now s1 + gp) Hw Hful) by exact Hfirst.
    pose proof (resumed_armed o s1 a (Nat.max (now s1) (settles a)) Hw) as Ha.
    set (s2 := arm o (captured a) _) in *.
    assert (Hc2 : calls s2 = calls s1) by reflexivity.
    assert (Hn2 : now s2 = Nat.max (now s1) (settles a)) by reflexivity.
    rewrite (armed_advance_short o s2 _ _ (now s1 + gp) Ha) by lia.
    set (s3 := set_now _ s2).
    assert (Hc3 : calls s3 = calls s2) by reflexivity.
    assert (Hn3 : now s3 = Nat.max (now s2) (now s1 + gp)) by reflexivity.
    destruct (armed_emit o s3 _ _ e2 (armed_set_now _ _ _ (now s3) Ha))
      as (Ha4 & Hc4 & Hn4 & _).
    change (set_now (now s3) s2) with s3 in Ha4, Hc4, Hn4.
    set (s4 := handler o e2 s3) in *.
    rewrite run_app.
    destruct (burst_tail o rest s4 _ _ Ha4) as (Ha5 & Hc5 & Hn5).
    { intros gp' e' Hin. apply (Hgaps gp' e'). right; exact Hin. }
    { destruct rest as [|[gp' e'] rest']; [exact I|].
      assert (gp' < timer_ms (delay o))
        by (apply (Hgaps gp' e'); right; left; reflexivity).
      lia. }
    set (s5 := run o (burst_actions rest) s4) in *.
    assert (Hdue : armed s5 (now s5 + timer_ms (delay o))
                         (last (map snd rest) e2)).
    { destruct rest; [|exact Ha5].
      assert (E : now s5 = now s3) by (rewrite Hn5, Hn4; simpl; lia).
      rewrite E. exact Ha5. }
    change (run o [Sleep H] s5) with (advance o (now s5 + H) s5).
    destruct (armed_advance_fire o g s5 _ _ (now s5 + H) Hg Hdue)
      as (Hc6 & Hi6 & _); [lia|].
    split; [|apply Hi6].
    rewrite Hc6, Hc5, Hc4, Hc3, Hc2.
    cbn [map snd]. rewrite last_cons_default.
    cbn [elapsed fold_right fst]. fold (elapsed rest).
    apply same_trigger. lia.
Qed.

(** X4.  A watch without [onWillTrigger] (the proto and copy watches)
    debounces all the same: from a closed window, a burst of events, each in
    a task of its own and less than [D] ms after the one before it, leads
    to one call of [onTrigger], with the last event, [D] ms after that
    event; the window is closed again afterwards.  [D] is the time the
    timer runs: [delay] if that is between 1 and 2^31 - 1, and 1
    otherwise. *)
Theorem debounce_without_onWillTrigger :
  forall (o : Options U K) g s e1 tail H,
    reachable o s -> closed s ->
    onWillTrigger o = None -> onTrigger o = Some g ->
    (forall gp e, In (gp, e) tail -> gp < timer_ms (delay o)) ->
    timer_ms (delay o) <= H ->
    calls (run o (Emit e1 :: burst_actions tail ++ [Sleep H]) s) =
      calls s ++
      [Trigger (now s + elapsed tail + timer_ms (delay o))
               (last (map snd tail) e1)] /\
    closed (run o (Emit e1 :: burst_actions tail ++ [Sleep H]) s).
Proof.
  intros o g s e1 tail H Hr Hcl Hw Hg Hgaps HH.
  destruct (closed_idle o s Hr Hcl) as ((Hp & Htm) & Ha & Hts).
  assert (Hs1 : handler o e1 s =
                set_awaiting (Some (mkAwaiting (now s) true None e1))
                             (set_isProcessing true s)).
  { unfold handler. rewrite Hp. simpl. rewrite Htm, Hw. reflexivity. }
  change (run o (Emit e1 :: burst_actions tail ++ [Sleep H]) s)
    with (run o (burst_actions tail ++ [Sleep H]) (handler o e1 s)).
  rewrite Hs1.
  set (s1 := set_awaiting _ _).
  assert (Hwait : waiting s1 (mkAwaiting (now s) true None e1 : Awaiting K)).
  { unfold waiting, s1; simpl. auto. }
  destruct (waiting_burst o g s1 _ tail H Hg Hwait eq_refl) as [Hc Hclosed].
  - simpl. lia.
  - exact Hgaps.
  - destruct tail as [|[gp e2] rest]; simpl; lia.
  - exact HH.
  - split; [|exact Hclosed].
    rewrite Hc. simpl. apply same_trigger.
    destruct tail; simpl; lia.
Qed.

End Trailing.

(** *** Concrete runs, continued *)

(** A watch registered like the proto and copy watches: no
    [onWillTrigger]. *)
Definition trailing_only : Options unit unit :=
  mkOptions 1000 None (Some (fun _ _ u => u)) (fun _ u => u).

Definition two_changes : list Action :=
  [Emit ev_a; Sleep 300; Emit ev_b; Sleep 1000].

Lemma callbacks_get_emitted_events_witness :
  In (Trigger 1300 ev_b) (calls (run instant two_changes (init tt))) /\
  In ev_b (emitted two_changes).
Proof.
  assert (Hin : In (Trigger 1300 ev_b)
                   (calls (run instant two_changes (init tt)))).
  { unfold two_changes. rewrite scenario_two_changes.
    right; left; reflexivity. }
  split; [exact Hin|].
  apply (callbacks_get_emitted_events instant tt two_changes
                                      (Trigger 1300 ev_b) Hin).
Defined.

Lemma trigger_follows_will_witness :
  calls (run instant two_changes (init tt))
  = [WillTrigger 0 ev_a] ++ Trigger 1300 ev_b :: [] /\
  exists l0 t0 e0, [WillTrigger 0 ev_a] = l0 ++ [WillTrigger t0 e0].
Proof.
  split; [reflexivity|].
  apply (trigger_follows_will instant (run instant two_changes (init tt))
                              [WillTrigger 0 ev_a] 1300 ev_b []).
  - apply reachable_run, reach_init.
  - discriminate.
  - reflexivity.
Defined.

Lemma trigger_waits_delay_witness :
  calls (run instant two_changes (init tt))
  = [] ++ WillTrigger 0 ev_a :: Trigger 1300 ev_b :: [] /\
  0 + delay instant <= 1300.
Proof.
  split; [reflexivity|].
  refine (proj1 (proj2 (trigger_waits_delay instant tt two_changes
                          [] 0 ev_a 1300 ev_b [] eq_refl)) _ _).
  - apply Nat.leb_le. reflexivity.
  - apply N.leb_le. reflexivity.
Defined.

(** A delay of 0 is run as 1 ms. *)
Definition zero_delay : Options unit unit :=
  mkOptions 0 None (Some (fun _ _ u => u)) (fun _ u => u).

Example zero_delay_runs_after_1ms :
  calls (run zero_delay [Emit ev_a; Sleep 0] (init tt)) = [] /\
  calls (run zero_delay [Emit ev_a; Sleep 1] (init tt)) = [Trigger 1 ev_a].
Proof. split; reflexivity. Qed.

Lemma debounce_without_onWillTrigger_witness :
  closed (init tt : State unit unit) /\
  calls (run trailing_only
           (Emit ev_a :: burst_actions [(300, ev_b)] ++ [Sleep 1000])
           (init tt))
  = [Trigger 1300 ev_b].
Proof.
  split; [split; reflexivity|].
  refine (proj1 (debounce_without_onWillTrigger trailing_only
                   (fun _ _ u => u) (init tt) ev_a [(300, ev_b)] 1000
                   (reach_init _ tt) (conj eq_refl eq_refl) eq_refl eq_refl
                   _ _)).
  - intros gp e [E|[]]. inversion E. apply Nat.ltb_lt. reflexivity.
  - apply Nat.leb_le. reflexivity.
Defined.

End Engine.

(** ** cmdDev: configuration and trigger callbacks *)

Module Dev.

(** [TsrpcConfig] is declared in [models/TsrpcConfig], outside these
    sources; the records keep the fields [cmdDev] reads.  An absent
    optional field is [None]. *)
Record ProtoConf := mkProtoConf {
  ptlDir : string;
  output : string;
  apiDir : option string
}.

Record SyncConf := mkSyncConf {
  type : string;
  from : string;
  to : string
}.

Record DevConf := mkDevConf {
  autoProto : option bool;
  autoSync : option bool;
  autoApi : option bool;
  command : option string;
  watch : option (list string);
  delay : option nat
}.

Record TsrpcConfig := mkConfig {
  proto : option (list ProtoConf);
  sync : option (list SyncConf);
  dev : option DevConf;
  verbose : option bool
}.

Definition DEFAULT_DELAY : nat := 1000.

(** [a ?? d] *)
Definition nullish {A : Type} (a : option A) (d : A) : A :=
  match a with
  | Some v => v
  | None => d
  end.

(** [conf.dev?.field] *)
Definition dev_field {A : Type} (conf : TsrpcConfig) (f : DevConf -> option A)
  : option A :=
  match dev conf with
  | Some d => f d
  | None => None
  end.

(** Truthiness of an optional string: absent and empty are falsy. *)
Definition truthy_string (s : option string) : bool :=
  match s with
  | Some v => negb (String.eqb v "")
  | None => false
  end.

Definition startsWith (s p : string) : bool := String.prefix p s.

Definition endsWith (s p : string) : bool :=
  (String.length p <=? String.length s) &&
  String.eqb (String.substring (String.length s - String.length p)
                               (String.length p) s) p.

(** *** Session start (lines 21-38, and the order of what follows) *)

Inductive WatchId :=
| AutoProto (i : nat)
| AutoSync (idx : nat)
| DEV_SERVER.

(** What [cmdDev] itself does, in order: calls of [ensureSymlink] and of
    [ProtoUtil.loadOldProtoByConfigItem], calls of [delayWatch], and the
    call of [startDevServer] on line 147. *)
Inductive Effect :=
| Link (src dst : string)
| LoadOldProto (c : ProtoConf)
| Watch (id : WatchId) (matches : list string) (ms : nat)
| StartDevServer.

(** An [async] body: the effects performed, and its value unless an awaited
    promise rejected. *)
Definition Async (A : Type) : Type := list Effect * option A.

Definition ret {A : Type} (a : A) : Async A := ([], Some a).

Definition bind {A B : Type} (m : Async A) (f : A -> Async B) : Async B :=
  match m with
  | (l, Some a) => let (l', r) := f a in (l ++ l', r)
  | (l, None) => (l, None)
  end.

(** Perform [e]; [ok] tells whether the call comes back normally. *)
Definition perform (e : Effect) (ok : bool) : Async unit :=
  ([e], if ok then Some tt else None).

Notation "m ;; k" := (bind m (fun _ => k))
  (at level 61, right associativity).

(** [for (let x of l) { await body(x) }] *)
Fixpoint forOf {A : Type} (l : list A) (body : A -> Async unit) : Async unit :=
  match l with
  | [] => ret tt
  | x :: l' => body x ;; forOf l' body
  end.

(** [l.forEach((x, idx) => body(x, idx))], from index [i] on. *)
Fixpoint forEach_from {A : Type} (i : nat) (l : list A)
         (body : A -> nat -> Async unit) : Async unit :=
  match l with
  | [] => ret tt
  | x :: l' => body x i ;; forEach_from (S i) l' body
  end.

Section CmdDev.
(** The collaborators that can fail during start-up: does the call for
    this item come back normally? *)
Variable ensureSymlink : string -> string -> bool.
Variable loadOldProtoByConfigItem : ProtoConf -> bool.

Definition is_symlink (v : SyncConf) : bool := String.eqb (type v) "symlink".

Definition linkConfs (conf : TsrpcConfig) : list SyncConf :=
  filter is_symlink (nullish (sync conf) []).

Definition autoLink (conf : TsrpcConfig) : Async unit :=
  match sync conf with
  | Some l =>
      forOf (filter is_symlink l)
            (fun item =>
               perform (Link (from item) (to item))
                       (ensureSymlink (from item) (to item)))
  | None => ret tt
  end.

Definition watchDelay (conf : TsrpcConfig) : nat :=
  nullish (dev_field conf delay) DEFAULT_DELAY.

Definition autoProtoWatches (conf : TsrpcConfig) : Async unit :=
  match nullish (dev_field conf autoProto) true, proto conf with
  | true, Some l =>
      forEach_from 0 l
        (fun confItem i =>
           perform (LoadOldProto confItem) (loadOldProtoByConfigItem confItem) ;;
           perform (Watch (AutoProto i) [ptlDir confItem] (watchDelay conf)) true)
  | _, _ => ret tt
  end.

Definition autoSyncWatches (conf : TsrpcConfig) : Async unit :=
  if nullish (dev_field conf autoSync) true then
    forEach_from 0 (nullish (sync conf) [])
      (fun confItem idx =>
         if negb (String.eqb (type confItem) "copy") then ret tt
         else perform (Watch (AutoSync idx) [from confItem] (watchDelay conf))
                      true)
  else ret tt.

Definition devServerWatch (conf : TsrpcConfig) : Async unit :=
  perform (Watch DEV_SERVER (nullish (dev_field conf watch) ["src"%string])
                 (watchDelay conf)) true ;;
  perform StartDevServer true.

Definition cmdDev (conf : TsrpcConfig) : Async unit :=
  autoLink conf ;;
  autoProtoWatches conf ;;
  autoSyncWatches conf ;;
  devServerWatch conf.

Definition link_of (v : SyncConf) : Effect := Link (from v) (to v).

Definition link_ok (v : SyncConf) : bool := ensureSymlink (from v) (to v).

Definition is_link (e : Effect) : bool :=
  match e with
  | Link _ _ => true
  | _ => false
  end.

(** No call of [ensureSymlink] among the effects of [m]. *)
Definition no_link {A : Type} (m : Async A) : Prop :=
  forallb (fun e => negb (is_link e)) (fst m) = true.

Lemma bind_rejected : forall (A B : Type) l (f : A -> Async B),
    bind (l, None) f = (l, None).
Proof. reflexivity. Qed.

Lemma no_link_bind : forall (A B : Type) (m : Async A) (f : A -> Async B),
    no_link m -> (forall a, no_link (f a)) -> no_link (bind m f).
Proof.
  intros A B [l [a|]] f Hm Hf; unfold no_link in *; simpl in *.
  - specialize (Hf a). destruct (f a) as [l' r]. simpl in *.
    rewrite forallb_app, Hm, Hf. reflexivity.
  - exact Hm.
Qed.

Lemma no_link_ret : forall (A : Type) (a : A), no_link (ret a).
Proof. reflexivity. Qed.

Lemma no_link_forEach_from :
  forall (A : Type) (l : list A) (i : nat) (body : A -> nat -> Async unit),
    (forall x j, no_link (body x j)) -> no_link (forEach_from i l body).
Proof.
  intros A l. induction l as [|x l IH]; intros i body Hb; simpl.
  - apply no_link_ret.
  - apply no_link_bind; [apply Hb|]. intros _. apply IH, Hb.
Qed.

Lemma no_link_watches : forall conf,
    no_link (autoProtoWatches conf ;; autoSyncWatches conf ;;
             devServerWatch conf).
Proof.
  intros conf. apply no_link_bind; [|intros _; apply no_link_bind].
  - unfold autoProtoWatches.
    destruct (nullish (dev_field conf autoProto) true);
      [|apply no_link_ret].
    destruct (proto conf) as [l|]; [|apply no_link_ret].
    apply no_link_forEach_from. intros x j.
    apply no_link_bind; [|intros _].
    + unfold perform, no_link. reflexivity.
    + unfold perform, no_link. reflexivity.
  - unfold autoSyncWatches.
    destruct (nullish (dev_field conf autoSync) true);
      [|apply no_link_ret].
    apply no_link_forEach_from. intros x j.
    destruct (negb (String.eqb (type x) "copy")); [apply no_link_ret|].
    unfold perform, no_link. reflexivity.
  - intros _. unfold devServerWatch, perform, no_link. reflexivity.
Qed.

Lemma links_all_ok : forall l,
    forallb link_ok l = true ->
    forOf l (fun item =>
               perform (Link (from item) (to item))
                       (ensureSymlink (from item) (to item)))
    = (map link_of l, Some tt).
Proof.
  induction l as [|x l IH]; intros H; [reflexivity|].
  simpl in H. apply andb_prop in H. destruct H as [Hx Hl].
  unfold link_ok in Hx. cbn [forOf map]. rewrite (IH Hl).
  unfold bind, perform. rewrite Hx. reflexivity.
Qed.

Lemma links_first_failure : forall l1 x l2,
    forallb link_ok l1 = true -> link_ok x = false ->
    forOf (l1 ++ x :: l2)
          (fun item =>
             perform (Link (from item) (to item))
                     (ensureSymlink (from item) (to item)))
    = (map link_of (l1 ++ [x]), None).
Proof.
  induction l1 as [|y l1 IH]; intros x l2 Hl Hx.
  - unfold link_ok in Hx. cbn [app forOf map].
    unfold bind, perform. rewrite Hx. reflexivity.
  - simpl in Hl. apply andb_prop in Hl. destruct Hl as [Hy Hl].
    unfold link_ok in Hy. cbn [app forOf map]. rewrite (IH x l2 Hl Hx).
    unfold bind, perform. rewrite Hy. reflexivity.
Qed.

Lemma autoLink_forOf : forall conf,
    autoLink conf =
    forOf (linkConfs conf)
          (fun item =>
             perform (Link (from item) (to item))
                     (ensureSymlink (from item) (to item))).
Proof.
  intros conf. unfold autoLink, linkConfs.
  destruct (sync conf); reflexivity.
Qed.

(** C9.  [cmdDev] first calls [ensureSymlink] for the symlink items of
    [conf.sync], one after the other in configuration order.  If all of them
    succeed, everything else (watches, the dev server) comes after them; if
    one fails, [cmdDev] rejects right there: no later symlink, no watch and
    no [startDevServer]. *)
Theorem symlinks_first_or_abort : forall conf,
    (forallb link_ok (linkConfs conf) = true ->
     exists rest,
       fst (cmdDev conf) = map link_of (linkConfs conf) ++ rest /\
       forallb (fun e => negb (is_link e)) rest = true) /\
    (forall l1 x l2,
        linkConfs conf = l1 ++ x :: l2 ->
        forallb link_ok l1 = true -> link_ok x = false ->
        cmdDev conf = (map link_of (l1 ++ [x]), None)).
Proof.
  intros conf. unfold cmdDev. rewrite autoLink_forOf. split.
  - intros Hok. rewrite (links_all_ok _ Hok).
    pose proof (no_link_watches conf) as Hn. unfold no_link in Hn.
    destruct (autoProtoWatches conf ;; autoSyncWatches conf ;;
              devServerWatch conf) as [rest r].
    exists rest. split; [reflexivity|exact Hn].
  - intros l1 x l2 Hl Hl1 Hx. rewrite Hl.
    rewrite (links_first_failure l1 x l2 Hl1 Hx). reflexivity.
Qed.

End CmdDev.

(** *** The AutoProto trigger (lines 49-63) *)

Section AutoProto.
(** [ServiceProto] comes from the package [tsrpc-proto]. *)
Variable ServiceProto : Type.

(** How the call of [ProtoUtil.genProtoByConfigItem] comes back: with a
    proto, with [undefined], or rejected with an error message. *)
Inductive GenProto :=
| Generated (p : ServiceProto)
| NoProto
| GenFailed (message : string).

Inductive ProtoOp :=
| CallGenProto (c : ProtoConf)
| ConsoleError (message : string)
| GenApiFiles (p : ServiceProto) (ptl api : string).

(** Returns the calls made and whether the trigger's promise fulfils. *)
Definition autoProto_onTrigger (autoApi : bool) (confItem : ProtoConf)
           (gen : GenProto) (genApiFiles_ok : bool) : list ProtoOp * bool :=
  let '(ops, newProto) :=
    match gen with
    | Generated p => ([CallGenProto confItem], Some p)
    | NoProto => ([CallGenProto confItem], None)
    | GenFailed m => ([CallGenProto confItem; ConsoleError m], None)
    end in
  match newProto with
  | Some p =>
      if autoApi && truthy_string (apiDir confItem) then
        (ops ++ [GenApiFiles p (ptlDir confItem)
                             (nullish (apiDir confItem) ""%string)],
         genApiFiles_ok)
      else (ops, true)
  | None => (ops, true)
  end.

(** C8.  When regeneration fails the trigger logs the message and is done:
    it fulfils, having made no other call (no API stubs).  When it comes
    back with a proto, [autoApi] is on and [apiDir] is set, the same trigger
    goes on to call [genApiFiles] with that proto. *)
Theorem autoProto_trigger : forall autoApi c gen api_ok,
    (forall m, gen = GenFailed m ->
       autoProto_onTrigger autoApi c gen api_ok =
       ([CallGenProto c; ConsoleError m], true)) /\
    (forall p d, gen = Generated p -> autoApi = true ->
       apiDir c = Some d -> d <> ""%string ->
       autoProto_onTrigger autoApi c gen api_ok =
       ([CallGenProto c; GenApiFiles p (ptlDir c) d], api_ok)).
Proof.
  intros autoApi c gen api_ok. split.
  - intros m ->. reflexivity.
  - intros p d -> -> Hd Hne. unfold autoProto_onTrigger, truthy_string.
    rewrite Hd. destruct (String.eqb_spec d ""); [contradiction|].
    reflexivity.
Qed.

End AutoProto.

(** *** The AutoSync trigger (lines 77-103) *)

Definition mode_0o444 : nat := 4 * 64 + 4 * 8 + 4.

Inductive SyncOp :=
| SyncByConfigItem (c : SyncConf)
| Remove (dst : string)
| Copy (src dst : string)
| Chmod (dst : string) (mode : nat)
| ConsoleLog (src dst : string).

Section AutoSync.
(** [path.resolve] and [path.relative]. *)
Variable resolve : string -> string -> string.
Variable relative : string -> string -> string.
(** Does this call to [syncByConfigItem] or [fse] come back normally? *)
Variable ok : SyncOp -> bool.

Definition comes_back (op : SyncOp) : bool :=
  match op with
  | ConsoleLog _ _ => true
  | _ => ok op
  end.

(** Calls in sequence, up to the first that rejects. *)
Fixpoint attempt (ops : list SyncOp) : list SyncOp * bool :=
  match ops with
  | [] => ([], true)
  | op :: r =>
      if comes_back op then let (l, b) := attempt r in (op :: l, b)
      else ([op], false)
  end.

Definition dstPath (confItem : SyncConf) (file : string) : string :=
  resolve (to confItem) (relative (from confItem) file).

(** One call of the trigger, run to its end before the next one starts.
    Returns the calls made, the value of [isInited] afterwards and whether
    the trigger's promise fulfils. *)
Definition autoSync_onTrigger (confItem : SyncConf) (isInited : bool)
           (e : ChangeEvent) : list SyncOp * bool * bool :=
  if negb isInited then
    let (l, b) := attempt [SyncByConfigItem confItem] in
    (l, b, b)
  else
    let dst := dstPath confItem (filepath e) in
    let name := eventName_string (eventName e) in
    let ops :=
      if startsWith name "unlink" then [Remove dst]
      else
        [Copy (filepath e) dst] ++
        (if negb (endsWith name "Dir") then [Chmod dst mode_0o444] else []) ++
        [ConsoleLog (filepath e) dst] in
    let (l, b) := attempt ops in
    (l, true, b).

(** The triggers of one watch, one after the other. *)
Fixpoint fires (confItem : SyncConf) (isInited : bool)
         (es : list ChangeEvent) : list (list SyncOp) * bool :=
  match es with
  | [] => ([], isInited)
  | e :: es' =>
      let '(l, i, _) := autoSync_onTrigger confItem isInited e in
      let (ls, i') := fires confItem i es' in
      (l :: ls, i')
  end.

Lemma attempt_all_ok : forall ops,
    (forall op, ok op = true) -> attempt ops = (ops, true).
Proof.
  intros ops Hok. induction ops as [|op r IH]; [reflexivity|].
  simpl. rewrite IH.
  unfold comes_back. destruct op; rewrite ?Hok; reflexivity.
Qed.

Lemma fires_inited : forall c es,
    (forall op, ok op = true) -> snd (fires c true es) = true.
Proof.
  intros c es Hok. induction es as [|e es IH]; [reflexivity|].
  simpl. unfold autoSync_onTrigger. simpl.
  rewrite attempt_all_ok by exact Hok.
  destruct (fires c true es) as [ls i]. exact IH.
Qed.

(** C7 (as amended).  With every call succeeding and each trigger run to
    its end before the next: the first trigger of a copy-sync watch does the
    bulk sync; any trigger after it acts on the single path of its event: it
    removes the mapped destination for [unlink] and [unlinkDir]; it copies
    the path to the mapped destination otherwise, and then sets mode 0444
    when the event is [add] or [change], but not when it is [addDir]. *)
Theorem copy_sync_fires : forall c e es e',
    (forall op, ok op = true) ->
    fst (fst (autoSync_onTrigger c false e)) = [SyncByConfigItem c] /\
    snd (fires c false (e :: es)) = true /\
    fst (fst (autoSync_onTrigger c (snd (fires c false (e :: es))) e')) =
    match eventName e' with
    | unlink | unlinkDir => [Remove (dstPath c (filepath e'))]
    | addDir =>
        [Copy (filepath e') (dstPath c (filepath e'));
         ConsoleLog (filepath e') (dstPath c (filepath e'))]
    | add | change =>
        [Copy (filepath e') (dstPath c (filepath e'));
         Chmod (dstPath c (filepath e')) 292;
         ConsoleLog (filepath e') (dstPath c (filepath e'))]
    end.
Proof.
  intros c e es e' Hok.
  assert (H1 : autoSync_onTrigger c false e = ([SyncByConfigItem c], true, true)).
  { unfold autoSync_onTrigger. rewrite attempt_all_ok by exact Hok.
    reflexivity. }
  assert (H2 : snd (fires c false (e :: es)) = true).
  { simpl. rewrite H1. pose proof (fires_inited c es Hok) as Hi.
    destruct (fires c true es) as [ls i]. exact Hi. }
  split; [rewrite H1; reflexivity|]. split; [exact H2|].
  rewrite H2. unfold autoSync_onTrigger.
  rewrite !attempt_all_ok by exact Hok.
  destruct (eventName e'); reflexivity.
Qed.

End AutoSync.

(** *** Concrete runs *)

Definition conf_example : TsrpcConfig :=
  (mkConfig
     (Some [mkProtoConf "src/shared/protocols"
                        "src/shared/protocols/serviceProto.ts"
                        (Some "src/api")])
     (Some [mkSyncConf "symlink" "src/shared" "../frontend/src/shared";
            mkSyncConf "copy" "src/shared" "../app/src/shared";
            mkSyncConf "symlink" "src/assets" "../frontend/src/assets"])
     None None)%string.

Example cmdDev_all_links_ok :
  cmdDev (fun _ _ => true) (fun _ => true) conf_example =
  ([Link "src/shared" "../frontend/src/shared";
    Link "src/assets" "../frontend/src/assets";
    LoadOldProto (mkProtoConf "src/shared/protocols"
                              "src/shared/protocols/serviceProto.ts"
                              (Some "src/api"));
    Watch (AutoProto 0) ["src/shared/protocols"] 1000;
    Watch (AutoSync 1) ["src/shared"] 1000;
    Watch DEV_SERVER ["src"] 1000;
    StartDevServer], Some tt)%string.
Proof. reflexivity. Qed.

Definition shared_link_fails (src dst : string) : bool :=
  negb (String.eqb src "src/shared").

Lemma symlinks_first_or_abort_witness :
  cmdDev shared_link_fails (fun _ => true) conf_example
  = ([Link "src/shared" "../frontend/src/shared"], None)%string.
Proof.
  refine (proj2 (symlinks_first_or_abort
                   shared_link_fails (fun _ => true) conf_example)
                []
                (mkSyncConf "symlink" "src/shared" "../frontend/src/shared")
                [mkSyncConf "symlink" "src/assets" "../frontend/src/assets"]
                eq_refl eq_refl eq_refl)%string.
Defined.

Definition proto_example : ProtoConf :=
  (mkProtoConf "src/shared/protocols" "src/shared/protocols/serviceProto.ts"
               (Some "src/api"))%string.

Lemma autoProto_trigger_witness :
  autoProto_onTrigger nat true proto_example (Generated nat 7) true
  = ([CallGenProto nat proto_example;
      GenApiFiles nat 7 "src/shared/protocols" "src/api"], true)%string.
Proof.
  refine (proj2 (autoProto_trigger nat true proto_example (Generated nat 7)
                                   true)
                7 "src/api"%string eq_refl eq_refl eq_refl _).
  discriminate.
Defined.

(** Stand-ins for [path.relative] and [path.resolve], good for a file below
    [from] and relative paths. *)
Definition relative_below (from file : string) : string :=
  String.substring (String.length from + 1)
                   (String.length file - String.length from - 1) file.

Definition resolve_join (dir rel : string) : string :=
  (dir ++ "/" ++ rel)%string.

Definition copy_shared : SyncConf :=
  (mkSyncConf "copy" "src/shared" "../app/src/shared")%string.

Definition changed_a : ChangeEvent :=
  (mkEvent change "src/shared/a.ts" None)%string.
Definition removed_b : ChangeEvent :=
  (mkEvent unlink "src/shared/b.ts" None)%string.
Definition added_models : ChangeEvent :=
  (mkEvent addDir "src/shared/models" None)%string.

Lemma copy_sync_fires_witness :
  fst (fst (autoSync_onTrigger resolve_join relative_below (fun _ => true)
              copy_shared
              (snd (fires resolve_join relative_below (fun _ => true)
                      copy_shared false [changed_a]))
              removed_b))
  = [Remove "../app/src/shared/b.ts"%string].
Proof.
  refine (proj2 (proj2 (copy_sync_fires resolve_join relative_below
                          (fun _ => true) copy_shared
                          changed_a [] removed_b _))).
  reflexivity.
Defined.

(** C7 (as stated) fails: for [addDir], after the first trigger, the
    directory is copied but line 97 skips [chmod]. *)
Lemma copy_sync_addDir_counterexample :
  fst (fst (autoSync_onTrigger resolve_join relative_below (fun _ => true)
              copy_shared true added_models))
  = [Copy "src/shared/models" "../app/src/shared/models";
     ConsoleLog "src/shared/models" "../app/src/shared/models"]%string /\
  ~ In (Chmod "../app/src/shared/models" mode_0o444)
       (fst (fst (autoSync_onTrigger resolve_join relative_below
                    (fun _ => true) copy_shared true added_models))).
Proof.
  split; [reflexivity|].
  simpl. intros [H|[H|[]]]; discriminate.
Qed.

(** *** More about start-up *)

Section CmdDevMore.
Variable ensureSymlink : string -> string -> bool.
Variable loadOldProtoByConfigItem : ProtoConf -> bool.

#[local] Abbreviation start := (cmdDev ensureSymlink loadOldProtoByConfigItem).
#[local] Abbreviation protoWatches :=
  (autoProtoWatches loadOldProtoByConfigItem).

Lemma in_bind : forall (A B : Type) (m : Async A) (f : A -> Async B) x,
    In x (fst (bind m f)) ->
    In x (fst m) \/ exists a, snd m = Some a /\ In x (fst (f a)).
Proof.
  intros A B [l [a|]] f x; simpl.
  - destruct (f a) as [l' r] eqn:Hf. simpl. intros H.
    apply in_app_or in H. destruct H as [H|H]; [left; exact H|].
    right. exists a. rewrite Hf. split; [reflexivity|exact H].
  - intros H. left. exact H.
Qed.

Lemma bind_some : forall (A B : Type) (m : Async A) (f : A -> Async B) b,
    snd (bind m f) = Some b ->
    exists a, snd m = Some a /\ snd (f a) = Some b /\
              fst (bind m f) = fst m ++ fst (f a).
Proof.
  intros A B [l [a|]] f b; simpl; [|discriminate].
  destruct (f a) as [l' r] eqn:Hf. simpl. intros ->.
  exists a. rewrite Hf. auto.
Qed.

Lemma bind_some_intro : forall (A B : Type) (m : Async A) (f : A -> Async B) a b,
    snd m = Some a -> snd (f a) = Some b -> snd (bind m f) = Some b.
Proof.
  intros A B [l r] f a b Hm Hf. simpl in Hm. subst r. simpl.
  destruct (f a) as [l' r']. exact Hf.
Qed.

Lemma bind_none : forall (A B : Type) (m : Async A) (f : A -> Async B),
    snd m = None -> bind m f = (fst m, None).
Proof. intros A B [l r] f H. simpl in H. subst r. reflexivity. Qed.

Lemma forOf_in : forall (A : Type) (l : list A) (body : A -> Async unit) x,
    In x (fst (forOf l body)) -> exists c, In c l /\ In x (fst (body c)).
Proof.
  intros A l body x. induction l as [|c l IH]; simpl; [intros []|].
  intros H. apply in_bind in H. destruct H as [H|(_ & _ & H)].
  - exists c. auto.
  - destruct (IH H) as (c' & Hc & Hx). exists c'. auto.
Qed.

Lemma forEach_from_in :
  forall (A : Type) (l : list A) (i : nat) (body : A -> nat -> Async unit) x,
    In x (fst (forEach_from i l body)) ->
    exists j c, nth_error l j = Some c /\ In x (fst (body c (i + j))).
Proof.
  intros A l. induction l as [|c l IH]; intros i body x; simpl; [intros []|].
  intros H. apply in_bind in H. destruct H as [H|(_ & _ & H)].
  - exists 0, c. rewrite Nat.add_0_r. auto.
  - destruct (IH _ _ _ H) as (j & c' & Hj & Hx).
    exists (S j), c'. rewrite Nat.add_succ_r. auto.
Qed.

Lemma forEach_from_all :
  forall (A : Type) (l : list A) (i : nat) (body : A -> nat -> Async unit),
    snd (forEach_from i l body) = Some tt ->
    forall j c x, nth_error l j = Some c -> In x (fst (body c (i + j))) ->
                  In x (fst (forEach_from i l body)).
Proof.
  intros A l. induction l as [|c l IH]; intros i body Hs j c' x Hj Hx.
  - destruct j; discriminate.
  - simpl in Hs |- *. apply bind_some in Hs.
    destruct Hs as ([] & Hb & Hr & ->). apply in_or_app.
    destruct j as [|j]; simpl in Hj.
    + injection Hj as <-. rewrite Nat.add_0_r in Hx. left. exact Hx.
    + right. apply (IH _ _ Hr j c' x Hj). rewrite Nat.add_succ_r in Hx.
      exact Hx.
Qed.

Lemma forOf_some : forall (A : Type) (l : list A) (body : A -> Async unit),
    snd (forOf l body) = Some tt <->
    forall c, In c l -> snd (body c) = Some tt.
Proof.
  intros A l body. induction l as [|c l IH]; simpl.
  - split; [intros _ c []|reflexivity].
  - split.
    + intros H. apply bind_some in H. destruct H as ([] & Hb & Hr & _).
      intros c' [<-|Hc]; [exact Hb|]. apply IH; assumption.
    + intros H. apply bind_some_intro with (a := tt).
      * apply H. left. reflexivity.
      * apply IH. intros c' Hc. apply H. right. exact Hc.
Qed.

Lemma forEach_from_some :
  forall (A : Type) (l : list A) (i : nat) (body : A -> nat -> Async unit),
    snd (forEach_from i l body) = Some tt <->
    forall j c, nth_error l j = Some c -> snd (body c (i + j)) = Some tt.
Proof.
  intros A l. induction l as [|c l IH]; intros i body; simpl.
  - split; [intros _ [|j] c; discriminate|reflexivity].
  - split.
    + intros H. apply bind_some in H. destruct H as ([] & Hb & Hr & _).
      intros [|j] c' Hj; simpl in Hj.
      * injection Hj as <-. rewrite Nat.add_0_r. exact Hb.
      * rewrite Nat.add_succ_r. apply (proj1 (IH (S i) body) Hr j c' Hj).
    + intros H. apply bind_some_intro with (a := tt).
      * specialize (H 0 c eq_refl). rewrite Nat.add_0_r in H. exact H.
      * apply IH. intros j c' Hj. specialize (H (S j) c' Hj).
        rewrite Nat.add_succ_r in H. exact H.
Qed.

(** The effects that belong to the dev server. *)
Definition is_dev (e : Effect) : bool :=
  match e with
  | Watch DEV_SERVER _ _ | StartDevServer => true
  | _ => false
  end.

Lemma autoLink_not_dev : forall conf x,
    In x (fst (autoLink ensureSymlink conf)) -> is_dev x = false.
Proof.
  intros conf x. rewrite autoLink_forOf. intros H.
  apply forOf_in in H. destruct H as (c & _ & [<-|[]]). reflexivity.
Qed.

Lemma protoWatches_not_dev : forall conf x,
    In x (fst (protoWatches conf)) -> is_dev x = false.
Proof.
  intros conf x. unfold autoProtoWatches.
  destruct (nullish (dev_field conf autoProto) true); [|intros []].
  destruct (proto conf) as [l|]; [|intros []].
  intros H. apply forEach_from_in in H. destruct H as (j & c & _ & H).
  apply in_bind in H. destruct H as [[<-|[]]|(_ & _ & [<-|[]])]; reflexivity.
Qed.

Lemma syncWatches_not_dev : forall conf x,
    In x (fst (autoSyncWatches conf)) -> is_dev x = false.
Proof.
  intros conf x. unfold autoSyncWatches.
  destruct (nullish (dev_field conf autoSync) true); [|intros []].
  intros H. apply forEach_from_in in H. destruct H as (j & c & _ & H).
  destruct (negb (String.eqb (type c) "copy")); [destruct H|].
  destruct H as [<-|[]]. reflexivity.
Qed.

Lemma syncWatches_some : forall conf, snd (autoSyncWatches conf) = Some tt.
Proof.
  intros conf. unfold autoSyncWatches.
  destruct (nullish (dev_field conf autoSync) true); [|reflexivity].
  apply forEach_from_some. intros j c _.
  destruct (negb (String.eqb (type c) "copy")); reflexivity.
Qed.

(** X13.  [startDevServer] is called if and only if start-up got through:
    when a link or the loading of an old proto fails, [cmdDev] rejects
    without having set up the dev server's watch or started the server.
    When start-up gets through, the watch [DEV_SERVER] and the call of
    [startDevServer] are the last two things done, in this order, and are
    done once. *)
Theorem dev_server_started_last : forall conf,
    (In StartDevServer (fst (start conf)) <-> snd (start conf) = Some tt) /\
    (snd (start conf) = None ->
     forall x, In x (fst (start conf)) -> is_dev x = false) /\
    (snd (start conf) = Some tt ->
     exists pre,
       fst (start conf) =
         pre ++ [Watch DEV_SERVER (nullish (dev_field conf watch) ["src"%string])
                       (watchDelay conf);
                 StartDevServer] /\
       forall x, In x pre -> is_dev x = false).
Proof.
  intros conf.
  assert (Hshape :
    (snd (start conf) = None /\
     forall x, In x (fst (start conf)) -> is_dev x = false) \/
    (snd (start conf) = Some tt /\
     exists pre,
       fst (start conf) =
         pre ++ [Watch DEV_SERVER (nullish (dev_field conf watch) ["src"%string])
                       (watchDelay conf);
                 StartDevServer] /\
       forall x, In x pre -> is_dev x = false)).
  { unfold cmdDev.
    pose proof (autoLink_not_dev conf) as HL.
    pose proof (protoWatches_not_dev conf) as HP.
    pose proof (syncWatches_not_dev conf) as HS.
    pose proof (syncWatches_some conf) as HSs.
    destruct (autoLink ensureSymlink conf) as [l1 [[]|]]; simpl in HL;
      [|left; split; [reflexivity|exact HL]].
    destruct (protoWatches conf) as [l2 [[]|]]; simpl in HP;
      [|left; split; [reflexivity|]; simpl; intros x Hx;
        apply in_app_or in Hx; destruct Hx; auto].
    destruct (autoSyncWatches conf) as [l3 r3]; simpl in HS, HSs.
    subst r3. right. simpl. split; [reflexivity|].
    exists (l1 ++ l2 ++ l3). split.
    - rewrite <- !app_assoc. reflexivity.
    - intros x Hx. apply in_app_or in Hx. destruct Hx as [Hx|Hx]; [auto|].
      apply in_app_or in Hx. destruct Hx; auto. }
  split; [|split].
  - destruct Hshape as [[Hn Hd]|[Hs (pre & Hpre & _)]].
    + split; [|congruence]. intros Hin. apply Hd in Hin. discriminate.
    + split; [intros _; exact Hs|]. intros _. rewrite Hpre.
      apply in_or_app. right. right. left. reflexivity.
  - intros Hn. destruct Hshape as [[_ Hd]|[Hs _]]; [exact Hd|congruence].
  - intros Hs. destruct Hshape as [[Hn _]|[_ H]]; [congruence|exact H].
Qed.

(** X14.  Start-up gets through exactly when every symlink can be made
    and, if [autoProto] is on and [conf.proto] is there, the old proto of
    every item can be loaded.  Copy items and the dev server's watch cannot
    make it fail. *)
Theorem startup_completes_iff : forall conf,
    snd (start conf) = Some tt <->
    forallb (link_ok ensureSymlink) (linkConfs conf) = true /\
    (nullish (dev_field conf autoProto) true = true ->
     forall l, proto conf = Some l ->
               forallb loadOldProtoByConfigItem l = true).
Proof.
  intros conf. unfold cmdDev. rewrite autoLink_forOf.
  assert (HL : snd (forOf (linkConfs conf)
                      (fun item => perform (Link (from item) (to item))
                                     (ensureSymlink (from item) (to item))))
               = Some tt <->
               forallb (link_ok ensureSymlink) (linkConfs conf) = true).
  { rewrite forOf_some, forallb_forall. unfold link_ok, perform.
    split; intros H c Hc; specialize (H c Hc); simpl in *;
      destruct (ensureSymlink (from c) (to c)); congruence. }
  assert (HP : snd (protoWatches conf) = Some tt <->
               (nullish (dev_field conf autoProto) true = true ->
                forall l, proto conf = Some l ->
                          forallb loadOldProtoByConfigItem l = true)).
  { unfold autoProtoWatches.
    destruct (nullish (dev_field conf autoProto) true);
      [|split; [intros _ H; discriminate|reflexivity]].
    destruct (proto conf) as [l|];
      [|split; [intros _ _ l H; discriminate|reflexivity]].
    rewrite forEach_from_some. split.
    - intros H _ l' Hl'. injection Hl' as <-. apply forallb_forall.
      intros c Hc. apply In_nth_error in Hc. destruct Hc as [j Hj].
      specialize (H j c Hj). unfold perform in H. simpl in H.
      destruct (loadOldProtoByConfigItem c); [reflexivity|discriminate].
    - intros H j c Hj. specialize (H eq_refl l eq_refl).
      rewrite forallb_forall in H. apply nth_error_In in Hj.
      specialize (H c Hj). unfold perform. simpl. rewrite H. reflexivity. }
  rewrite <- HL, <- HP. split.
  - intros H. apply bind_some in H. destruct H as ([] & H1 & H2 & _).
    apply bind_some in H2. destruct H2 as ([] & H2 & _ & _). auto.
  - intros [H1 H2]. apply bind_some_intro with (a := tt); [exact H1|].
    apply bind_some_intro with (a := tt); [exact H2|].
    apply bind_some_intro with (a := tt); [apply syncWatches_some|].
    reflexivity.
Qed.

(** What [cmdDev] does for the proto items [l], the first of them at
    position [i], when every old proto loads. *)
Fixpoint proto_effects (d : nat) (i : nat) (l : list ProtoConf) : list Effect :=
  match l with
  | [] => []
  | c :: l' =>
      LoadOldProto c :: Watch (AutoProto i) [ptlDir c] d ::
      proto_effects d (S i) l'
  end.

Lemma proto_loop_failure : forall d l1 x l2 i,
    forallb loadOldProtoByConfigItem l1 = true ->
    loadOldProtoByConfigItem x = false ->
    forEach_from i (l1 ++ x :: l2)
      (fun confItem i =>
         perform (LoadOldProto confItem) (loadOldProtoByConfigItem confItem) ;;
         perform (Watch (AutoProto i) [ptlDir confItem] d) true)
    = (proto_effects d i l1 ++ [LoadOldProto x], None).
Proof.
  intros d l1 x l2. induction l1 as [|c l1 IH]; intros i Hl Hx.
  - cbn [app forEach_from proto_effects]. unfold bind, perform.
    rewrite Hx. reflexivity.
  - simpl in Hl. apply andb_prop in Hl. destruct Hl as [Hc Hl].
    cbn [app forEach_from proto_effects]. rewrite (IH (S i) Hl Hx).
    unfold bind, perform. rewrite Hc. reflexivity.
Qed.

(** X15.  When the old proto of an item cannot be loaded, [cmdDev] rejects
    there, half way: the symlinks are made and the proto items before the
    failing one keep their watches, but the failing item and those after it
    get none, no copy item is watched, and the dev server is neither watched
    nor started. *)
Theorem failed_old_proto_aborts_startup : forall conf l1 x l2,
    forallb (link_ok ensureSymlink) (linkConfs conf) = true ->
    nullish (dev_field conf autoProto) true = true ->
    proto conf = Some (l1 ++ x :: l2) ->
    forallb loadOldProtoByConfigItem l1 = true ->
    loadOldProtoByConfigItem x = false ->
    start conf =
      (map link_of (linkConfs conf) ++
       proto_effects (watchDelay conf) 0 l1 ++ [LoadOldProto x], None).
Proof.
  intros conf l1 x l2 Hlinks Hauto Hproto Hl1 Hx.
  unfold cmdDev. rewrite autoLink_forOf, (links_all_ok _ _ Hlinks).
  unfold autoProtoWatches. rewrite Hauto, Hproto.
  rewrite (proto_loop_failure (watchDelay conf) l1 x l2 0 Hl1 Hx).
  reflexivity.
Qed.

(** X16.  Every watch [cmdDev] sets up uses the delay [conf.dev?.delay ??
    1000].  A watch [AutoProto_i] exists only if [autoProto] is on, for the
    item at position [i] of [conf.proto], on its [ptlDir]; a watch
    [AutoSync_idx] only if [autoSync] is on, for the item at position [idx]
    of [conf.sync], which then is a copy item, on its [from].  When start-up
    gets through, every copy item has its watch. *)
Theorem watches_follow_config : forall conf,
    (forall id m d,
        In (Watch id m d) (fst (start conf)) ->
        d = watchDelay conf /\
        match id with
        | AutoProto i =>
            nullish (dev_field conf autoProto) true = true /\
            exists l c, proto conf = Some l /\ nth_error l i = Some c /\
                        m = [ptlDir c]
        | AutoSync idx =>
            nullish (dev_field conf autoSync) true = true /\
            exists l c, sync conf = Some l /\ nth_error l idx = Some c /\
                        type c = "copy"%string /\ m = [from c]
        | DEV_SERVER => m = nullish (dev_field conf watch) ["src"%string]
        end) /\
    (snd (start conf) = Some tt ->
     nullish (dev_field conf autoSync) true = true ->
     forall l idx c,
       sync conf = Some l -> nth_error l idx = Some c ->
       type c = "copy"%string ->
       In (Watch (AutoSync idx) [from c] (watchDelay conf)) (fst (start conf))).
Proof.
  intros conf. split.
  - intros id m d Hin. unfold cmdDev in Hin.
    apply in_bind in Hin. destruct Hin as [Hin|(_ & _ & Hin)].
    { rewrite autoLink_forOf in Hin. apply forOf_in in Hin.
      destruct Hin as (c & _ & [H|[]]). discriminate. }
    apply in_bind in Hin. destruct Hin as [Hin|(_ & _ & Hin)].
    { unfold autoProtoWatches in Hin.
      destruct (nullish (dev_field conf autoProto) true) eqn:Ha;
        [|destruct Hin].
      destruct (proto conf) as [l|] eqn:Hp; [|destruct Hin].
      apply forEach_from_in in Hin. destruct Hin as (j & c & Hj & Hin).
      apply in_bind in Hin.
      destruct Hin as [[H|[]]|(_ & _ & [H|[]])]; [discriminate|].
      injection H as <- <- <-. split; [reflexivity|]. split; [reflexivity|].
      exists l, c. auto. }
    apply in_bind in Hin. destruct Hin as [Hin|(_ & _ & Hin)].
    { unfold autoSyncWatches in Hin.
      destruct (nullish (dev_field conf autoSync) true) eqn:Ha;
        [|destruct Hin].
      apply forEach_from_in in Hin. destruct Hin as (j & c & Hj & Hin).
      destruct (String.eqb_spec (type c) "copy") as [Ht|Ht]; simpl in Hin;
        [|destruct Hin].
      destruct Hin as [H|[]]. injection H as <- <- <-.
      split; [reflexivity|]. split; [reflexivity|].
      destruct (sync conf) as [l|] eqn:Hs; simpl in Hj;
        [|destruct j; discriminate].
      exists l, c. auto. }
    destruct Hin as [H|[H|[]]]; [|discriminate].
    injection H as <- <- <-. auto.
  - intros Hs Ha l idx c Hl Hidx Ht.
    unfold cmdDev in Hs |- *.
    apply bind_some in Hs. destruct Hs as ([] & _ & Hs & ->).
    apply in_or_app. right.
    apply bind_some in Hs. destruct Hs as ([] & _ & Hs & ->).
    apply in_or_app. right.
    apply bind_some in Hs. destruct Hs as ([] & Hsync & _ & ->).
    apply in_or_app. left.
    unfold autoSyncWatches in Hsync |- *. rewrite Ha in Hsync |- *.
    rewrite Hl in Hsync |- *. simpl nullish in Hsync |- *.
    apply (forEach_from_all _ _ _ _ Hsync idx c); [exact Hidx|].
    rewrite Ht. simpl. left. reflexivity.
Qed.

End CmdDevMore.

(** *** More about the triggers *)

Section AutoProtoMore.
Variable ServiceProto : Type.

(** X9.  The proto trigger calls [genApiFiles] only with the proto that
    the regeneration returned, and only when [autoApi] is on and [apiDir]
    is a non-empty string; and its promise rejects only when that call of
    [genApiFiles] was made and failed: a failed regeneration alone never
    makes the trigger fail. *)
Theorem genApiFiles_only_after_success : forall autoApi c gen api_ok,
    (forall p a b,
        In (GenApiFiles ServiceProto p a b)
           (fst (autoProto_onTrigger ServiceProto autoApi c gen api_ok)) ->
        autoApi = true /\ gen = Generated ServiceProto p /\
        a = ptlDir c /\ apiDir c = Some b /\ b <> ""%string) /\
    (snd (autoProto_onTrigger ServiceProto autoApi c gen api_ok) = false ->
     api_ok = false /\
     exists p a b,
       In (GenApiFiles ServiceProto p a b)
          (fst (autoProto_onTrigger ServiceProto autoApi c gen api_ok))).
Proof.
  intros autoApi c gen api_ok. unfold autoProto_onTrigger, truthy_string.
  destruct gen as [p0| |m]; simpl.
  - destruct autoApi; simpl.
    + destruct (apiDir c) as [d|] eqn:Hd; simpl.
      * destruct (String.eqb_spec d ""); simpl.
        -- split; [|discriminate].
           intros p a b [H|[]]. discriminate.
        -- split.
           ++ intros p a b [H|[H|[]]]; [discriminate|].
              inversion H; subst. auto.
           ++ intros H. split; [exact H|].
              exists p0, (ptlDir c), d. right. left. reflexivity.
      * split; [|discriminate]. intros p a b [H|[]]. discriminate.
    + split; [|discriminate]. intros p a b [H|[]]. discriminate.
  - split; [|discriminate]. intros p a b [H|[]]. discriminate.
  - split; [|discriminate]. intros p a b [H|[H|[]]]; discriminate.
Qed.

End AutoProtoMore.

Section AutoSyncMore.
Variable resolve : string -> string -> string.
Variable relative : string -> string -> string.
Variable ok : SyncOp -> bool.

Lemma fires_stay_inited : forall c es,
    snd (fires resolve relative ok c true es) = true.
Proof.
  intros c es. induction es as [|e es IH]; [reflexivity|].
  simpl. unfold autoSync_onTrigger. simpl.
  destruct (attempt ok _) as [l b].
  destruct (fires resolve relative ok c true es) as [ls i]. exact IH.
Qed.

(** X10.  As long as the bulk sync fails, [isInited] stays [false]: every
    trigger tries the bulk sync again and does nothing else, and its
    promise rejects.  Once [isInited] is [true] it stays [true] whatever
    fails later. *)
Theorem bulk_sync_retried_until_success : forall c es,
    (ok (SyncByConfigItem c) = false ->
     fires resolve relative ok c false es =
       (map (fun _ => [SyncByConfigItem c]) es, false) /\
     forall e, snd (autoSync_onTrigger resolve relative ok c false e) = false) /\
    snd (fires resolve relative ok c true es) = true.
Proof.
  intros c es. split.
  - intros Hfail.
    assert (H1 : forall e, autoSync_onTrigger resolve relative ok c false e =
                           ([SyncByConfigItem c], false, false)).
    { intros e. unfold autoSync_onTrigger. simpl. rewrite Hfail. reflexivity. }
    split; [|intros e; rewrite H1; reflexivity].
    induction es as [|e es IH]; [reflexivity|].
    simpl. rewrite H1, IH. reflexivity.
  - apply fires_stay_inited.
Qed.

Ltac sync_cases Hin :=
  repeat match type of Hin with
         | _ \/ _ => destruct Hin as [<-|Hin]
         | False => destruct Hin
         | In _ (_ :: _) => destruct Hin as [<-|Hin]
         | In _ [] => destruct Hin
         end.

(** X11.  After the first sync a trigger acts on one path only: whatever
    it calls is about the event's file and the destination mapped from it,
    and the bulk sync is not run again.  It removes only for [unlink] and
    [unlinkDir], copies only for the other events, sets mode 0444 only for
    [add] and [change] and only after the copy has succeeded, and logs only
    when every call before has succeeded. *)
Theorem incremental_sync_scope : forall c e op,
    In op (fst (fst (autoSync_onTrigger resolve relative ok c true e))) ->
    match op with
    | SyncByConfigItem _ => False
    | Remove dst =>
        dst = dstPath resolve relative c (filepath e) /\
        (eventName e = unlink \/ eventName e = unlinkDir)
    | Copy src dst =>
        src = filepath e /\ dst = dstPath resolve relative c (filepath e) /\
        eventName e <> unlink /\ eventName e <> unlinkDir
    | Chmod dst mode =>
        dst = dstPath resolve relative c (filepath e) /\ mode = 292 /\
        (eventName e = add \/ eventName e = change) /\
        ok (Copy (filepath e) dst) = true
    | ConsoleLog src dst =>
        src = filepath e /\ dst = dstPath resolve relative c (filepath e) /\
        ok (Copy src dst) = true /\
        snd (autoSync_onTrigger resolve relative ok c true e) = true
    end.
Proof.
  intros c e op. unfold autoSync_onTrigger.
  destruct (eventName e) eqn:He; simpl.
  - destruct (ok (Copy _ _)) eqn:Hc; simpl;
      [destruct (ok (Chmod _ _)) eqn:Hm; simpl|];
      intros Hin; sync_cases Hin; simpl; repeat split; auto; discriminate.
  - destruct (ok (Copy _ _)) eqn:Hc; simpl;
      intros Hin; sync_cases Hin; simpl; repeat split; auto; discriminate.
  - destruct (ok (Copy _ _)) eqn:Hc; simpl;
      [destruct (ok (Chmod _ _)) eqn:Hm; simpl|];
      intros Hin; sync_cases Hin; simpl; repeat split; auto; discriminate.
  - destruct (ok (Remove _)) eqn:Hc; simpl;
      intros Hin; sync_cases Hin; simpl; repeat split; auto.
  - destruct (ok (Remove _)) eqn:Hc; simpl;
      intros Hin; sync_cases Hin; simpl; repeat split; auto.
Qed.

(** X12.  A failed call ends an incremental trigger on the spot: the
    trigger's promise rejects and the failed call is the last one made, so
    a file whose copy failed is neither made read-only nor reported as
    copied. *)
Theorem incremental_sync_stops_at_failure : forall c e,
    snd (autoSync_onTrigger resolve relative ok c true e) = false ->
    exists l op,
      fst (fst (autoSync_onTrigger resolve relative ok c true e)) = l ++ [op] /\
      ok op = false /\
      (forall x, In x l -> ok x = true) /\
      forall src dst,
        ~ In (ConsoleLog src dst)
             (fst (fst (autoSync_onTrigger resolve relative ok c true e))).
Proof.
  intros c e. unfold autoSync_onTrigger.
  destruct (eventName e) eqn:He; simpl.
  - destruct (ok (Copy _ _)) eqn:Hc; simpl;
      [destruct (ok (Chmod _ _)) eqn:Hm; simpl|]; intros H; try discriminate.
    + eexists [_], _. split; [reflexivity|]. split; [exact Hm|]. split.
      * intros x [<-|[]]. exact Hc.
      * intros src dst Hin.
        repeat (destruct Hin as [Hin|Hin]; [discriminate|]). exact Hin.
    + eexists [], _. split; [reflexivity|]. split; [exact Hc|]. split.
      * intros x [].
      * intros src dst Hin.
        repeat (destruct Hin as [Hin|Hin]; [discriminate|]). exact Hin.
  - destruct (ok (Copy _ _)) eqn:Hc; simpl; intros H; try discriminate.
    eexists [], _. split; [reflexivity|]. split; [exact Hc|]. split.
    + intros x [].
    + intros src dst Hin.
        repeat (destruct Hin as [Hin|Hin]; [discriminate|]). exact Hin.
  - destruct (ok (Copy _ _)) eqn:Hc; simpl;
      [destruct (ok (Chmod _ _)) eqn:Hm; simpl|]; intros H; try discriminate.
    + eexists [_], _. split; [reflexivity|]. split; [exact Hm|]. split.
      * intros x [<-|[]]. exact Hc.
      * intros src dst Hin.
        repeat (destruct Hin as [Hin|Hin]; [discriminate|]). exact Hin.
    + eexists [], _. split; [reflexivity|]. split; [exact Hc|]. split.
      * intros x [].
      * intros src dst Hin.
        repeat (destruct Hin as [Hin|Hin]; [discriminate|]). exact Hin.
  - destruct (ok (Remove _)) eqn:Hc; simpl; intros H; try discriminate.
    eexists [], _. split; [reflexivity|]. split; [exact Hc|]. split.
    + intros x [].
    + intros src dst Hin.
        repeat (destruct Hin as [Hin|Hin]; [discriminate|]). exact Hin.
  - destruct (ok (Remove _)) eqn:Hc; simpl; intros H; try discriminate.
    eexists [], _. split; [reflexivity|]. split; [exact Hc|]. split.
    + intros x [].
    + intros src dst Hin.
        repeat (destruct Hin as [Hin|Hin]; [discriminate|]). exact Hin.
Qed.

End AutoSyncMore.

(** *** Concrete runs, continued *)

Lemma genApiFiles_only_after_success_witness :
  false = false /\
  exists p a b,
    In (GenApiFiles nat p a b)
       (fst (autoProto_onTrigger nat true proto_example (Generated nat 7) false)).
Proof.
  refine (proj2 (genApiFiles_only_after_success
                   nat true proto_example (Generated nat 7) false) eq_refl).
Defined.

Definition bulk_fails (op : SyncOp) : bool :=
  match op with
  | SyncByConfigItem _ => false
  | _ => true
  end.

Lemma bulk_sync_retried_until_success_witness :
  fires resolve_join relative_below bulk_fails copy_shared false
        [changed_a; removed_b]
  = ([[SyncByConfigItem copy_shared]; [SyncByConfigItem copy_shared]], false).
Proof.
  refine (proj1 (proj1 (bulk_sync_retried_until_success
                          resolve_join relative_below bulk_fails copy_shared
                          [changed_a; removed_b]) eq_refl)).
Defined.

Lemma incremental_sync_scope_witness :
  "../app/src/shared/a.ts"%string =
    dstPath resolve_join relative_below copy_shared (filepath changed_a) /\
  292 = 292 /\
  (eventName changed_a = add \/ eventName changed_a = change) /\
  true = true.
Proof.
  assert (Hin : In (Chmod "../app/src/shared/a.ts" 292)
                   (fst (fst (autoSync_onTrigger resolve_join relative_below
                                (fun _ => true) copy_shared true changed_a)))).
  { right. left. reflexivity. }
  exact (incremental_sync_scope resolve_join relative_below (fun _ => true)
           copy_shared changed_a (Chmod "../app/src/shared/a.ts" 292) Hin).
Defined.

Definition chmod_fails (op : SyncOp) : bool :=
  match op with
  | Chmod _ _ => false
  | _ => true
  end.

Lemma incremental_sync_stops_at_failure_witness :
  exists l op,
    fst (fst (autoSync_onTrigger resolve_join relative_below chmod_fails
                copy_shared true changed_a)) = l ++ [op] /\
    chmod_fails op = false /\
    (forall x, In x l -> chmod_fails x = true) /\
    forall src dst,
      ~ In (ConsoleLog src dst)
           (fst (fst (autoSync_onTrigger resolve_join relative_below
                        chmod_fails copy_shared true changed_a))).
Proof.
  refine (incremental_sync_stops_at_failure resolve_join relative_below
            chmod_fails copy_shared changed_a eq_refl).
Defined.

Lemma dev_server_started_last_witness :
  exists pre,
    fst (cmdDev (fun _ _ => true) (fun _ => true) conf_example) =
      pre ++ [Watch DEV_SERVER ["src"%string] 1000; StartDevServer] /\
    forall x, In x pre -> is_dev x = false.
Proof.
  refine (proj2 (proj2 (dev_server_started_last
                          (fun _ _ => true) (fun _ => true) conf_example))
                eq_refl).
Defined.

Lemma startup_completes_iff_witness :
  forallb (link_ok (fun _ _ => true)) (linkConfs conf_example) = true /\
  (nullish (dev_field conf_example autoProto) true = true ->
   forall l, proto conf_example = Some l ->
             forallb (fun _ => true) l = true).
Proof.
  refine (proj1 (startup_completes_iff
                   (fun _ _ => true) (fun _ => true) conf_example) eq_refl).
Defined.

(** Two proto items; the old proto of the second cannot be loaded. *)
Definition admin_protocols : ProtoConf :=
  (mkProtoConf "src/admin/protocols" "src/admin/protocols/serviceProto.ts"
               None)%string.

Definition conf_two_protos : TsrpcConfig :=
  mkConfig (Some [proto_example; admin_protocols]) (sync conf_example)
           (Some (mkDevConf None None None None None (Some 300))) None.

Definition admin_unreadable (c : ProtoConf) : bool :=
  negb (String.eqb (ptlDir c) "src/admin/protocols").

Lemma failed_old_proto_aborts_startup_witness :
  cmdDev (fun _ _ => true) admin_unreadable conf_two_protos
  = ([Link "src/shared" "../frontend/src/shared";
      Link "src/assets" "../frontend/src/assets";
      LoadOldProto proto_example;
      Watch (AutoProto 0) ["src/shared/protocols"] 300;
      LoadOldProto admin_protocols], None)%string.
Proof.
  refine (failed_old_proto_aborts_startup
            (fun _ _ => true) admin_unreadable conf_two_protos
            [proto_example] admin_protocols []
            eq_refl eq_refl eq_refl eq_refl eq_refl).
Defined.

Lemma watches_follow_config_witness :
  In (Watch (AutoSync 1) ["src/shared"%string] 1000)
     (fst (cmdDev (fun _ _ => true) (fun _ => true) conf_example)).
Proof.
  refine (proj2 (watches_follow_config
                   (fun _ _ => true) (fun _ => true) conf_example)
                eq_refl eq_refl
                (nullish (sync conf_example) []) 1 copy_shared
                eq_refl eq_refl eq_refl).
Defined.

End Dev.

(** ** The dev server and its restart watch (lines 110-147) *)

Module Supervisor.
Import Engine.

(** What happened to the dev server, most recent first. *)
Inductive SEvent :=
| Signalled (g : nat) (p : option nat)
| Exited (p : nat)
| Requested (g : nat)
| Spawned (g : nat) (p : nat)
| Dropped (g : nat).

(** The variables of [cmdDev] that the restart watch shares with
    [startDevServer], and what the runtime holds for them: the calls of
    [startDevServer] suspended on line 117 (when each wakes, and the value
    of [restartTimes] it captured) and, in [alive], the child processes
    that were started and whose exit the program has not been told of.
    The children that run are among these; a child that ended by itself
    stays in [alive] and in [devServer], since nothing listens for its exit
    (lines 123-125).  A [ChildProcess] is named by a number. *)
Record Sup := mkSup {
  devServer : option nat;
  devServerRestartTimes : nat;
  settling : list (nat * nat);
  alive : list nat;
  next_pid : nat;
  history : list SEvent
}.

Definition sup0 : Sup :=
  {| devServer := None; devServerRestartTimes := 0; settling := [];
     alive := []; next_pid := 1; history := [] |}.

Definition SETTLE : nat := 200.

(** Lines 113-117: capture the counter, go to sleep for 200 ms. *)
Definition startDevServer (t : nat) (u : Sup) : Sup :=
  {| devServer := devServer u;
     devServerRestartTimes := devServerRestartTimes u;
     settling := settling u ++ [(t + SETTLE, devServerRestartTimes u)];
     alive := alive u; next_pid := next_pid u;
     history := Requested (devServerRestartTimes u) :: history u |}.

(** Lines 118-125: back from the sleep, with [restartTimes] captured. *)
Definition wake (restartTimes : nat) (u : Sup) : Sup :=
  if negb (devServerRestartTimes u =? restartTimes) then
    {| devServer := devServer u;
       devServerRestartTimes := devServerRestartTimes u;
       settling := settling u; alive := alive u; next_pid := next_pid u;
       history := Dropped restartTimes :: history u |}
  else
    {| devServer := Some (next_pid u);
       devServerRestartTimes := devServerRestartTimes u;
       settling := settling u;
       alive := alive u ++ [next_pid u];
       next_pid := S (next_pid u);
       history := Spawned restartTimes (next_pid u) :: history u |}.

Section Session.
(** How long a child takes to exit once [kill()] was sent to it. *)
Variable exit_latency : nat -> nat.
(** The time at which a child ends by itself, if it does. *)
Variable ends_at : nat -> option nat.
(** [conf.dev?.delay ?? DEFAULT_DELAY] *)
Variable delay : nat.

(** Lines 134-137 at time [t], for the child [p] in [devServer]: the promise
    is fulfilled by the child's next ['exit'] event.  A child that is gone
    already emits none, and [kill()] does nothing to it: the promise never
    settles.  Otherwise the event comes when the signal has done its work,
    or sooner if the child ends by itself before that. *)
Definition exit_wait (p t : nat) : Outcome (option nat) :=
  match ends_at p with
  | Some te =>
      if te <=? t then Never
      else Resolves (Nat.min (exit_latency p) (te - t)) (Some p)
  | None => Resolves (exit_latency p) (Some p)
  end.

(** Lines 129-137, up to the suspension: count the request; if [devServer]
    is set, register for the child's exit and send the signal. *)
Definition dev_onWillTrigger (e : ChangeEvent) (t : nat) (u : Sup)
  : Sup * Outcome (option nat) :=
  let g := S (devServerRestartTimes u) in
  ({| devServer := devServer u;
      devServerRestartTimes := g;
      settling := settling u; alive := alive u; next_pid := next_pid u;
      history := Signalled g (devServer u) :: history u |},
   match devServer u with
   | Some p => exit_wait p t
   | None => Resolves 0 None
   end).

(** The child reported its exit: line 138. *)
Definition dev_willTriggerRest (k : option nat) (u : Sup) : Sup :=
  match k with
  | Some p =>
      {| devServer := None;
         devServerRestartTimes := devServerRestartTimes u;
         settling := settling u;
         alive := filter (fun q => negb (q =? p)) (alive u);
         next_pid := next_pid u;
         history := Exited p :: history u |}
  | None => u
  end.

(** Lines 141-143. *)
Definition dev_onTrigger (e : ChangeEvent) (t : nat) (u : Sup) : Sup :=
  startDevServer t u.

Definition dev_options : Options Sup (option nat) :=
  mkOptions delay (Some dev_onWillTrigger) (Some dev_onTrigger)
            dev_willTriggerRest.

Definition Session : Type := State Sup (option nat).

(** After line 147: the watch is registered and the first
    [startDevServer] is asleep. *)
Definition session_init : Session := init (startDevServer 0 sup0).

(** *** The event loop of the session *)

(** The sleeper that wakes first (the oldest among equals). *)
Fixpoint earliest_sleeper (l : list (nat * nat)) : option (nat * nat) :=
  match l with
  | [] => None
  | en :: l' =>
      match earliest_sleeper l' with
      | Some en' => if fst en' <? fst en then Some en' else Some en
      | None => Some en
      end
  end.

Fixpoint remove_first (en : nat * nat) (l : list (nat * nat))
  : list (nat * nat) :=
  match l with
  | [] => []
  | x :: l' =>
      if (fst x =? fst en) && (snd x =? snd en) then l'
      else x :: remove_first en l'
  end.

Inductive STask :=
| Eng (k : Task)
| Wake (en : nat * nat).

Definition snext_task (s : Session) : option (nat * STask) :=
  match next_task s, earliest_sleeper (settling (user s)) with
  | Some (d, k), Some en =>
      if d <=? fst en then Some (d, Eng k) else Some (fst en, Wake en)
  | Some (d, k), None => Some (d, Eng k)
  | None, Some en => Some (fst en, Wake en)
  | None, None => None
  end.

Definition set_settling (l : list (nat * nat)) (u : Sup) : Sup :=
  {| devServer := devServer u;
     devServerRestartTimes := devServerRestartTimes u;
     settling := l; alive := alive u; next_pid := next_pid u;
     history := history u |}.

Definition wake_sleeper (en : nat * nat) (s : Session) : Session :=
  set_user
    (wake (snd en) (set_settling (remove_first en (settling (user s))) (user s)))
    s.

Definition srun_task (k : STask) (s : Session) : Session :=
  match k with
  | Eng k' => run_task dev_options k' s
  | Wake en => wake_sleeper en s
  end.

Definition sstep (target : nat) (s : Session) : option Session :=
  match snext_task s with
  | Some (d, k) =>
      if d <=? target then Some (srun_task k (set_now (Nat.max (now s) d) s))
      else None
  | None => None
  end.

Definition spending (s : Session) : nat :=
  (match awaiting s with Some _ => 3 | None => 0 end) +
  2 * List.length (timers s) + List.length (settling (user s)).

Definition sadvance (target : nat) (s : Session) : Session :=
  let s' := settle (sstep target) spending s in
  set_now (Nat.max (now s') target) s'.

Definition sexec (s : Session) (a : Action) : Session :=
  match a with
  | Emit e => handler dev_options e s
  | Sleep dt => sadvance (now s + dt) s
  end.

Definition srun (acts : list Action) (s : Session) : Session :=
  fold_left sexec acts s.

(** *** Facts about the loop *)

Lemma earliest_sleeper_In : forall l en,
    earliest_sleeper l = Some en -> In en l.
Proof.
  induction l as [|x l IH]; simpl; intros en H; [discriminate|].
  destruct (earliest_sleeper l) as [en'|].
  - destruct (fst en' <? fst x); inversion H; subst; auto.
  - inversion H; auto.
Qed.

Lemma same_entry : forall x en : nat * nat,
    (fst x =? fst en) && (snd x =? snd en) = true -> x = en.
Proof.
  intros [a b] [c d] H. simpl in H. apply andb_prop in H.
  destruct H as [H1 H2]. apply Nat.eqb_eq in H1, H2. congruence.
Qed.

Lemma remove_first_length : forall en l,
    In en l -> S (List.length (remove_first en l)) = List.length l.
Proof.
  intros en l. induction l as [|x l IH]; simpl; intros H; [contradiction|].
  destruct ((fst x =? fst en) && (snd x =? snd en)) eqn:E; [reflexivity|].
  destruct H as [->|H].
  - rewrite !Nat.eqb_refl in E. discriminate.
  - simpl. rewrite (IH H). reflexivity.
Qed.

Lemma remove_first_In : forall en l x,
    In x (remove_first en l) -> In x l.
Proof.
  intros en l. induction l as [|y l IH]; simpl; intros x H; [contradiction|].
  destruct ((fst y =? fst en) && (snd y =? snd en)); [auto|].
  destruct H as [->|H]; auto.
Qed.

Lemma sstep_decr : forall target s s',
    sstep target s = Some s' -> spending s' < spending s.
Proof.
  intros target s s'. unfold sstep.
  destruct (snext_task s) as [[d k]|] eqn:Hn; [|discriminate].
  destruct (d <=? target); [|discriminate].
  intros H; inversion H; subst; clear H.
  unfold snext_task, next_task in Hn.
  destruct k as [k|en].
  - (* a task of the watch *)
    assert (Hk : match k with
                 | TResume => awaiting s <> None
                 | TFire t => In t (timers s)
                 end).
    { destruct (awaiting s) as [a|];
        destruct (earliest (timers s)) as [t|] eqn:Et;
        destruct (earliest_sleeper (settling (user s))) as [en|];
        repeat match type of Hn with
               | context [if ?c then _ else _] => destruct c
               end;
        inversion Hn; subst; try discriminate;
        apply earliest_In; exact Et. }
    destruct k as [|t]; unfold spending, srun_task, run_task.
    + unfold resume; simpl.
      destruct (awaiting s) as [a|]; [|contradiction].
      destruct (fulfilled a); simpl; rewrite ?length_app; simpl.
      * destruct (cont a) as [[p|]|]; simpl; lia.
      * destruct (cont a) as [[p|]|]; simpl; lia.
    + pose proof (filter_drops _ _ Hk) as Hd.
      unfold fire, clearTimeout; simpl. rewrite length_app. simpl. lia.
  - (* a sleeper wakes *)
    assert (Hin : In en (settling (user s))).
    { destruct (awaiting s) as [a|];
        destruct (earliest (timers s)) as [t|];
        destruct (earliest_sleeper (settling (user s))) as [en'|] eqn:Es;
        repeat match type of Hn with
               | context [if ?c then _ else _] => destruct c
               end;
        inversion Hn; subst; apply earliest_sleeper_In; exact Es. }
    pose proof (remove_first_length _ _ Hin) as Hl.
    unfold spending, srun_task, wake_sleeper, wake; simpl.
    destruct (negb (devServerRestartTimes (user s) =? snd en)); simpl; lia.
Qed.

Lemma sadvance_idle : forall target s,
    snext_task s = None ->
    sadvance target s = set_now (Nat.max (now s) target) s.
Proof.
  intros target s H. unfold sadvance.
  rewrite (settle_unfold _ _ (sstep_decr target)).
  unfold sstep. rewrite H. reflexivity.
Qed.

Lemma sadvance_wait : forall target s d k,
    snext_task s = Some (d, k) -> target < d ->
    sadvance target s = set_now (Nat.max (now s) target) s.
Proof.
  intros target s d k H Hlt. unfold sadvance.
  rewrite (settle_unfold _ _ (sstep_decr target)).
  unfold sstep. rewrite H.
  destruct (Nat.leb_spec d target); [lia|reflexivity].
Qed.

Lemma sadvance_step : forall target s d k,
    snext_task s = Some (d, k) -> d <= target ->
    sadvance target s =
    sadvance target (srun_task k (set_now (Nat.max (now s) d) s)).
Proof.
  intros target s d k H Hle.
  assert (Hs : sstep target s =
               Some (srun_task k (set_now (Nat.max (now s) d) s))).
  { unfold sstep. rewrite H.
    destruct (Nat.leb_spec d target); [reflexivity|lia]. }
  unfold sadvance.
  rewrite (settle_unfold _ _ (sstep_decr target) s), Hs. reflexivity.
Qed.

Lemma sadvance_quiescent : forall target s,
    sstep target (sadvance target s) = None.
Proof.
  intros target s. unfold sadvance.
  pose proof (settle_quiescent _ _ (sstep_decr target) s) as Hq.
  set (s' := settle (sstep target) spending s) in *.
  unfold sstep in *.
  change (snext_task (set_now (Nat.max (now s') target) s'))
    with (snext_task s').
  destruct (snext_task s') as [[d k]|]; [|reflexivity].
  destruct (d <=? target); [discriminate|reflexivity].
Qed.

Lemma srun_app : forall a1 a2 s, srun (a1 ++ a2) s = srun a2 (srun a1 s).
Proof. intros. unfold srun. apply fold_left_app. Qed.

(** *** Reachable states

    As for a single watch: the runtime may run pending tasks in any order
    and at any time. *)

Inductive sreachable : Session -> Prop :=
| sreach_init : sreachable session_init
| sreach_emit : forall s e,
    sreachable s -> sreachable (handler dev_options e s)
| sreach_resume : forall s,
    sreachable s -> sreachable (resume dev_options s)
| sreach_fire : forall s t,
    sreachable s -> In t (timers s) -> sreachable (fire dev_options t s)
| sreach_wake : forall s en,
    sreachable s -> In en (settling (user s)) ->
    sreachable (wake_sleeper en s)
| sreach_clock : forall s n, sreachable s -> sreachable (set_now n s).

Lemma sreachable_exec : forall s a, sreachable s -> sreachable (sexec s a).
Proof.
  intros s [e|dt] H; simpl.
  - apply sreach_emit; exact H.
  - unfold sadvance. apply sreach_clock.
    apply settle_ind; [|exact H].
    intros s1 s2 H1. unfold sstep.
    destruct (snext_task s1) as [[d k]|] eqn:Hn; [|discriminate].
    destruct (d <=? now s + dt); [|discriminate].
    intros E; inversion E; subst; clear E.
    unfold snext_task, next_task in Hn.
    destruct k as [[|t]|en]; simpl.
    + apply sreach_resume, sreach_clock, H1.
    + apply sreach_fire; [apply sreach_clock, H1|]. simpl.
      destruct (awaiting s1) as [a|];
        destruct (earliest (timers s1)) as [t'|] eqn:Et;
        destruct (earliest_sleeper (settling (user s1))) as [en|];
        repeat match type of Hn with
               | context [if ?c then _ else _] => destruct c
               end;
        inversion Hn; subst; apply earliest_In; exact Et.
    + apply sreach_wake; [apply sreach_clock, H1|]. simpl.
      destruct (awaiting s1) as [a|];
        destruct (earliest (timers s1)) as [t'|];
        destruct (earliest_sleeper (settling (user s1))) as [en'|] eqn:Es;
        repeat match type of Hn with
               | context [if ?c then _ else _] => destruct c
               end;
        inversion Hn; subst; apply earliest_sleeper_In; exact Es.
Qed.

Lemma sreachable_run : forall acts s,
    sreachable s -> sreachable (srun acts s).
Proof.
  induction acts as [|a acts IH]; intros s H; simpl.
  - exact H.
  - apply IH, sreachable_exec, H.
Qed.

(** *** The invariant of the session *)

(** A sleeper is fresh when no restart was requested since it fell
    asleep: it will spawn when it wakes. *)
Definition is_fresh (g : nat) (en : nat * nat) : bool := snd en =? g.

Definition fresh_entries (u : Sup) : list (nat * nat) :=
  filter (is_fresh (devServerRestartTimes u)) (settling u).

Definition slot (u : Sup) : list nat :=
  match devServer u with
  | Some p => [p]
  | None => []
  end.

Lemma stale_after_increment : forall g l,
    Forall (fun en : nat * nat => snd en <= g) l ->
    filter (is_fresh (S g)) l = [].
Proof.
  intros g l H. induction H as [|x l Hx _ IH]; [reflexivity|].
  simpl. unfold is_fresh at 1.
  destruct (Nat.eqb_spec (snd x) (S g)); [lia|exact IH].
Qed.

Lemma filter_remove_stale : forall g en l,
    is_fresh g en = false ->
    filter (is_fresh g) (remove_first en l) = filter (is_fresh g) l.
Proof.
  intros g en l Hen. induction l as [|x l IH]; [reflexivity|].
  simpl. destruct ((fst x =? fst en) && (snd x =? snd en)) eqn:E.
  - apply same_entry in E. subst x. rewrite Hen. reflexivity.
  - simpl. rewrite IH. reflexivity.
Qed.

Lemma filter_remove_fresh : forall g en l,
    In en l -> is_fresh g en = true ->
    S (List.length (filter (is_fresh g) (remove_first en l))) =
    List.length (filter (is_fresh g) l).
Proof.
  intros g en l Hin Hen. induction l as [|x l IH]; [contradiction|].
  simpl. destruct ((fst x =? fst en) && (snd x =? snd en)) eqn:E.
  - apply same_entry in E. subst x. rewrite Hen. reflexivity.
  - destruct Hin as [->|Hin].
    + rewrite !Nat.eqb_refl in E. discriminate.
    + simpl. destruct (is_fresh g x); simpl; rewrite (IH Hin); reflexivity.
Qed.

Lemma Forall_remove_first : forall (P : nat * nat -> Prop) en l,
    Forall P l -> Forall P (remove_first en l).
Proof.
  intros P en l H. induction H as [|x l Hx Hl IH]; simpl; [constructor|].
  destruct ((fst x =? fst en) && (snd x =? snd en)); [exact Hl|].
  constructor; assumption.
Qed.

Lemma exit_wait_cases : forall p t,
    exit_wait p t = Never \/ exists d, exit_wait p t = Resolves d (Some p).
Proof.
  intros p t. unfold exit_wait.
  destruct (ends_at p) as [te|]; [|right; eexists; reflexivity].
  destruct (te <=? t); [left; reflexivity|right; eexists; reflexivity].
Qed.

(** The child runs, and does not end by itself before the signal has done
    its work. *)
Definition runs_until_killed (p t : nat) : Prop :=
  forall te, ends_at p = Some te -> t < te /\ t + exit_latency p <= te.

Lemma exit_wait_running : forall p t,
    runs_until_killed p t ->
    exit_wait p t = Resolves (exit_latency p) (Some p).
Proof.
  intros p t H. unfold exit_wait.
  destruct (ends_at p) as [te|] eqn:E; [|reflexivity].
  destruct (H te E) as [H1 H2].
  destruct (Nat.leb_spec te t); [lia|].
  rewrite Nat.min_l by lia. reflexivity.
Qed.

Lemma exit_wait_gone : forall p t te,
    ends_at p = Some te -> te <= t -> exit_wait p t = Never.
Proof.
  intros p t te H Hle. unfold exit_wait. rewrite H.
  destruct (Nat.leb_spec te t); [reflexivity|lia].
Qed.

Definition J (s : Session) : Prop :=
  inv dev_options s /\
  alive (user s) = slot (user s) /\
  Forall (fun en => snd en <= devServerRestartTimes (user s))
         (settling (user s)) /\
  List.length (fresh_entries (user s)) <= 1 /\
  (fresh_entries (user s) <> [] -> closed s /\ devServer (user s) = None) /\
  (timer s <> None -> devServer (user s) = None) /\
  (forall a, awaiting s = Some a ->
     fulfilled a = true /\
     match cont a with
     | Some (Some p) => devServer (user s) = Some p
     | Some None => devServer (user s) = None
     | None => False
     end).

Lemma J_init : J session_init.
Proof.
  unfold J. split; [apply inv_init|].
  split; [reflexivity|]. split; [repeat constructor|].
  split; [simpl; lia|]. split; [intros _; split; [split|]; reflexivity|].
  split; [intros H; exfalso; apply H; reflexivity|].
  intros a H. discriminate.
Qed.

Lemma J_clock : forall s n, J s -> J (set_now n s).
Proof. intros s n H. exact H. Qed.

Lemma J_wf : forall s, J s -> wf s.
Proof. intros s (Hinv & _). apply Hinv. Qed.

Lemma J_open_no_fresh : forall s,
    J s -> ~ closed s -> fresh_entries (user s) = [].
Proof.
  intros s (_ & _ & _ & _ & Hf & _) Hopen.
  destruct (fresh_entries (user s)) eqn:E; [reflexivity|].
  exfalso. apply Hopen. apply Hf. discriminate.
Qed.

Lemma J_handler : forall s e, J s -> J (handler dev_options e s).
Proof.
  intros s e HJ. pose proof HJ as (Hinv & Hal & Hle & Hcnt & Hfr & Htm & Haw).
  pose proof (inv_handler dev_options s e Hinv) as Hinv'.
  pose proof (proj1 Hinv) as Hwf. unfold wf in Hwf.
  unfold J. split; [exact Hinv'|]. clear Hinv'.
  unfold handler. destruct (isProcessing s) eqn:Hp.
  { repeat (split; [assumption|]). assumption. }
  simpl. destruct (timer s) as [h|] eqn:Ht.
  - (* the window is open: the timer slides, nothing else changes *)
    destruct Hwf as (t & Hts & Hid & _ & Ha).
    unfold arm, clearTimeout; simpl.
    split; [exact Hal|]. split; [exact Hle|]. split; [exact Hcnt|].
    split; [|split].
    + intros Hne. destruct (Hfr Hne) as [[_ Hc] _]. congruence.
    + intros _. apply Htm. discriminate.
    + intros a. rewrite Ha. discriminate.
  - (* leading edge: the request is counted and every sleeper is stale *)
    destruct Hwf as [Hts Hproc0].
    assert (Haw0 : awaiting s = None).
    { destruct (awaiting s); [|reflexivity].
      assert (false = true) by (apply Hproc0; discriminate).
      discriminate. }
    assert (Hstale : filter (is_fresh (S (devServerRestartTimes (user s))))
                            (settling (user s)) = [])
      by (apply stale_after_increment; exact Hle).
    assert (Hle' : Forall (fun en : nat * nat =>
                             snd en <= S (devServerRestartTimes (user s)))
                          (settling (user s))).
    { eapply Forall_impl; [|exact Hle]. simpl. intros; lia. }
    unfold dev_onWillTrigger; simpl.
    destruct (devServer (user s)) as [p|] eqn:Hd; simpl;
      [destruct (exit_wait_cases p (now s)) as [Hw|[d Hw]]; rewrite Hw|];
      unfold fresh_entries, slot; simpl; rewrite Hstale; simpl.
    + (* the child is gone: the handler never comes back *)
      split; [rewrite Hal; unfold slot; rewrite Hd; reflexivity|].
      split; [exact Hle'|]. split; [lia|].
      split; [intros H; contradiction|].
      split; [intros H; contradiction|].
      intros a Ha. rewrite Haw0 in Ha. discriminate.
    + split; [rewrite Hal; unfold slot; rewrite Hd; reflexivity|].
      split; [exact Hle'|]. split; [lia|].
      split; [intros H; contradiction|].
      split; [intros H; contradiction|].
      intros a Ha. inversion Ha; subst; simpl. auto.
    + split; [rewrite Hal; unfold slot; rewrite Hd; reflexivity|].
      split; [exact Hle'|]. split; [lia|].
      split; [intros H; contradiction|].
      split; [intros H; contradiction|].
      intros a Ha. inversion Ha; subst; simpl. auto.
Qed.

Lemma J_resume : forall s, J s -> J (resume dev_options s).
Proof.
  intros s HJ. pose proof HJ as (Hinv & Hal & Hle & Hcnt & Hfr & Htm & Haw).
  pose proof (inv_resume dev_options s Hinv) as Hinv'.
  pose proof (proj1 Hinv) as Hwf. unfold wf in Hwf.
  unfold J. split; [exact Hinv'|]. clear Hinv'.
  unfold resume. destruct (awaiting s) as [a|] eqn:Ha.
  2:{ repeat (split; [assumption|]). intros a. rewrite Ha. discriminate. }
  destruct (Haw a eq_refl) as [Hful Hcont]. rewrite Hful.
  destruct (timer s) as [h|] eqn:Ht.
  { destruct Hwf as (t & _ & _ & _ & H). discriminate. }
  destruct Hwf as [Hts Hp].
  assert (Hproc : isProcessing s = true) by (apply Hp; discriminate).
  assert (Hnofresh : fresh_entries (user s) = []).
  { apply J_open_no_fresh; [exact HJ|]. intros [H _]. congruence. }
  unfold arm; simpl.
  destruct (cont a) as [[p|]|]; [| |contradiction]; simpl.
  - (* the child has exited: the slot is cleared *)
    unfold fresh_entries, slot in *; simpl.
    rewrite Hal, Hcont; simpl. rewrite Nat.eqb_refl; simpl.
    split; [reflexivity|]. split; [exact Hle|]. split; [exact Hcnt|].
    rewrite Hnofresh.
    split; [intros H; contradiction|]. split; [reflexivity|].
    discriminate.
  - split; [exact Hal|]. split; [exact Hle|]. split; [exact Hcnt|].
    rewrite Hnofresh.
    split; [intros H; contradiction|]. split; [intros _; exact Hcont|].
    discriminate.
Qed.

Lemma J_fire : forall s t, J s -> In t (timers s) -> J (fire dev_options t s).
Proof.
  intros s t HJ Hin.
  pose proof HJ as (Hinv & Hal & Hle & Hcnt & Hfr & Htm & Haw).
  pose proof (inv_fire dev_options s t Hinv Hin) as Hinv'.
  pose proof (proj1 Hinv) as Hwf. unfold wf in Hwf.
  unfold J. split; [exact Hinv'|]. clear Hinv'.
  destruct (timer s) as [h|] eqn:Ht.
  2:{ destruct Hwf as [Hts _]. rewrite Hts in Hin. contradiction. }
  destruct Hwf as (t0 & Hts & Hid & Hp & Ha).
  assert (Hd : devServer (user s) = None) by (apply Htm; discriminate).
  assert (Hnofresh : fresh_entries (user s) = []).
  { apply J_open_no_fresh; [exact HJ|]. intros [_ H]. congruence. }
  unfold fire, clearTimeout, dev_options; simpl.
  unfold dev_onTrigger, startDevServer, fresh_entries, slot, closed in *;
    simpl.
  rewrite filter_app, Hnofresh; simpl. unfold is_fresh at 1; simpl.
  rewrite Nat.eqb_refl; simpl.
  split; [exact Hal|]. split.
  { apply Forall_app. split; [exact Hle|]. constructor; [simpl; lia|constructor]. }
  split; [lia|]. split; [intros _; auto|]. split; [intros _; exact Hd|].
  intros a. rewrite Ha. discriminate.
Qed.

Lemma J_wake : forall s en,
    J s -> In en (settling (user s)) -> J (wake_sleeper en s).
Proof.
  intros s en HJ Hin.
  pose proof HJ as (Hinv & Hal & Hle & Hcnt & Hfr & Htm & Haw).
  pose proof (proj1 Hinv) as Hwf. unfold wf in Hwf.
  unfold J. split; [exact Hinv|].
  unfold wake_sleeper, wake; simpl.
  destruct (Nat.eqb_spec (devServerRestartTimes (user s)) (snd en)) as [Hg|Hg];
    simpl.
  - (* fresh: the window is closed and the slot empty; spawn *)
    assert (Hfresh : is_fresh (devServerRestartTimes (user s)) en = true).
    { unfold is_fresh. rewrite Hg. apply Nat.eqb_refl. }
    pose proof (filter_remove_fresh _ _ _ Hin Hfresh) as Hrem.
    assert (Hne : fresh_entries (user s) <> []).
    { unfold fresh_entries. intros E. rewrite E in Hrem. discriminate. }
    destruct (Hfr Hne) as [[Hp Ht] Hd].
    unfold fresh_entries, slot, closed in *; simpl.
    rewrite Hal, Hd; simpl.
    assert (Hzero : filter (is_fresh (devServerRestartTimes (user s)))
                           (remove_first en (settling (user s))) = []).
    { destruct (filter (is_fresh (devServerRestartTimes (user s)))
                       (remove_first en (settling (user s)))); [reflexivity|].
      simpl in Hrem. lia. }
    rewrite Hzero.
    split; [reflexivity|].
    split; [apply Forall_remove_first; exact Hle|].
    split; [simpl; lia|]. split; [intros H; contradiction|].
    split; [intros H; contradiction|].
    intros a Ha. exfalso.
    rewrite Ht in Hwf. destruct Hwf as [_ Hproc].
    assert (isProcessing s = true) by (apply Hproc; congruence). congruence.
  - (* stale: dropped *)
    assert (Hstale : is_fresh (devServerRestartTimes (user s)) en = false).
    { unfold is_fresh. apply Nat.eqb_neq. congruence. }
    unfold fresh_entries, slot in *; simpl.
    rewrite (filter_remove_stale _ _ _ Hstale).
    split; [exact Hal|].
    split; [apply Forall_remove_first; exact Hle|].
    repeat (split; [assumption|]). assumption.
Qed.

Lemma sreachable_J : forall s, sreachable s -> J s.
Proof.
  intros s H. induction H.
  - apply J_init.
  - apply J_handler; assumption.
  - apply J_resume; assumption.
  - apply J_fire; assumption.
  - apply J_wake; assumption.
  - apply J_clock; assumption.
Qed.

(** *** The order of kill and spawn *)

(** A spawn for request number [g] comes after that request was counted
    (after its [onWillTrigger] ran) and, if a child was sent the signal
    then, after that child has exited.  [g = 0] is the start of the
    session, which no request precedes. *)
Definition spawn_ok (g : nat) (older : list SEvent) : Prop :=
  1 <= g ->
  (exists q, In (Signalled g q) older) /\
  (forall q, In (Signalled g (Some q)) older -> In (Exited q) older).

Fixpoint ordered (h : list SEvent) : Prop :=
  match h with
  | [] => True
  | ev :: older =>
      match ev with
      | Spawned g _ => spawn_ok g older
      | _ => True
      end /\ ordered older
  end.

Definition Hist (s : Session) : Prop :=
  ordered (history (user s)) /\
  (forall g, 1 <= g <= devServerRestartTimes (user s) ->
             exists q, In (Signalled g q) (history (user s))) /\
  (forall g q, In (Signalled g (Some q)) (history (user s)) ->
               In (Exited q) (history (user s)) \/
               (exists a, awaiting s = Some a /\ cont a = Some (Some q)) \/
               (isProcessing s = true /\ awaiting s = None)).

Lemma closed_not_awaiting : forall s, J s -> closed s -> awaiting s = None.
Proof.
  intros s HJ [Hp Ht]. pose proof (J_wf s HJ) as Hwf. unfold wf in Hwf.
  rewrite Ht in Hwf. destruct Hwf as [_ H].
  destruct (awaiting s); [|reflexivity].
  assert (isProcessing s = true) by (apply H; discriminate). congruence.
Qed.

Lemma Hist_handler : forall s e,
    J s -> Hist s -> Hist (handler dev_options e s).
Proof.
  intros s e HJ HH.
  destruct (isProcessing s) eqn:Hp.
  { unfold handler. rewrite Hp. exact HH. }
  destruct HH as (Ho & Hall & Hex). unfold handler. rewrite Hp.
  pose proof (J_wf s HJ) as Hwf. unfold wf in Hwf. simpl.
  destruct (timer s) as [h|] eqn:Ht.
  - destruct Hwf as (t & _ & _ & _ & Ha).
    unfold Hist, arm, clearTimeout; simpl.
    split; [exact Ho|]. split; [exact Hall|].
    intros g q Hin.
    destruct (Hex g q Hin) as [H|[(a & H & _)|[H _]]]; [auto|congruence|].
    congruence.
  - assert (Ha : awaiting s = None)
      by (apply closed_not_awaiting; [exact HJ|split; assumption]).
    assert (Hold : forall g q, In (Signalled g (Some q)) (history (user s)) ->
                               In (Exited q) (history (user s))).
    { intros g q Hin.
      destruct (Hex g q Hin) as [H|[(a & H & _)|[H _]]]; [auto|congruence|].
      congruence. }
    assert (Hall' : forall q g,
               1 <= g <= S (devServerRestartTimes (user s)) ->
               exists q',
                 In (Signalled g q')
                    (Signalled (S (devServerRestartTimes (user s))) q ::
                     history (user s))).
    { intros q g Hg.
      destruct (Nat.eq_dec g (S (devServerRestartTimes (user s)))) as [->|Hn].
      - exists q. left. reflexivity.
      - destruct (Hall g) as [q' Hq]; [lia|]. exists q'. right. exact Hq. }
    unfold dev_onWillTrigger; simpl.
    destruct (devServer (user s)) as [p|] eqn:Hd;
      [destruct (exit_wait_cases p (now s)) as [Hw|[d Hw]]; rewrite Hw|];
      unfold Hist; simpl.
    + split; [auto|]. split; [apply Hall'|].
      intros g q _. right. right. split; [reflexivity|exact Ha].
    + split; [auto|]. split; [apply Hall'|].
      intros g q [E|Hin].
      * inversion E; subst. right. left. eexists. split; reflexivity.
      * left. right. apply (Hold g q Hin).
    + split; [auto|]. split; [apply Hall'|].
      intros g q [E|Hin]; [discriminate|].
      left. right. apply (Hold g q Hin).
Qed.

Lemma Hist_resume : forall s, J s -> Hist s -> Hist (resume dev_options s).
Proof.
  intros s HJ HH. pose proof HH as (Ho & Hall & Hex). unfold resume.
  destruct (awaiting s) as [a|] eqn:Ha; [|exact HH].
  destruct HJ as (_ & _ & _ & _ & _ & _ & Haw).
  destruct (Haw a Ha) as [Hful Hcont]. rewrite Hful.
  unfold Hist, arm; simpl.
  destruct (cont a) as [[p|]|] eqn:Hc; [| |contradiction]; simpl.
  - split; [auto|]. split.
    + intros g Hg. destruct (Hall g Hg) as [q Hq]. exists q. right. exact Hq.
    + intros g q [E|Hin]; [discriminate|]. left.
      destruct (Hex g q Hin) as [H|[(a' & H1 & H2)|[_ H]]];
        [right; exact H| |discriminate].
      left. congruence.
  - split; [auto|]. split; [exact Hall|].
    intros g q Hin. left.
    destruct (Hex g q Hin) as [H|[(a' & H1 & H2)|[_ H]]];
      [exact H|congruence|discriminate].
Qed.

Lemma Hist_fire : forall s t,
    J s -> In t (timers s) -> Hist s -> Hist (fire dev_options t s).
Proof.
  intros s t HJ Hin (Ho & Hall & Hex).
  pose proof (J_wf s HJ) as Hwf. unfold wf in Hwf.
  destruct (timer s) as [h|] eqn:Ht.
  2:{ destruct Hwf as [Hts _]. rewrite Hts in Hin. contradiction. }
  destruct Hwf as (_ & _ & _ & Hp & Ha).
  unfold Hist, fire, clearTimeout; simpl.
  split; [auto|]. split.
  - intros g Hg. destruct (Hall g Hg) as [q Hq]. exists q. right. exact Hq.
  - intros g q [E|Hi]; [discriminate|].
    destruct (Hex g q Hi) as [H|[(a & H & _)|[H _]]];
      [left; right; exact H|congruence|congruence].
Qed.

Lemma Hist_wake : forall s en,
    J s -> In en (settling (user s)) -> Hist s -> Hist (wake_sleeper en s).
Proof.
  intros s en HJ Hin (Ho & Hall & Hex).
  pose proof HJ as (_ & _ & Hle & _ & Hfr & _ & _).
  unfold Hist, wake_sleeper, wake; simpl.
  destruct (Nat.eqb_spec (devServerRestartTimes (user s)) (snd en)) as [Hg|Hg];
    simpl.
  - assert (Hne : fresh_entries (user s) <> []).
    { unfold fresh_entries. intros E.
      assert (Hi : In en (filter (is_fresh (devServerRestartTimes (user s)))
                                 (settling (user s)))).
      { apply filter_In. split; [exact Hin|].
        unfold is_fresh. rewrite Hg. apply Nat.eqb_refl. }
      rewrite E in Hi. contradiction. }
    destruct (Hfr Hne) as [Hcl _].
    pose proof (closed_not_awaiting s HJ Hcl) as Ha.
    split; [split; [|exact Ho]|split].
    + intros Hpos. split.
      * apply Hall. lia.
      * intros q Hq.
        destruct (Hex _ q Hq) as [H|[(a & H & _)|[H _]]];
          [exact H|congruence|].
        destruct Hcl as [Hp _]. congruence.
    + intros g Hgg. destruct (Hall g Hgg) as [q Hq]. exists q. right. exact Hq.
    + intros g q [E|Hi]; [discriminate|].
      destruct (Hex g q Hi) as [H|H]; [left; right; exact H|right; exact H].
  - split; [auto|]. split.
    + intros g Hgg. destruct (Hall g Hgg) as [q Hq]. exists q. right. exact Hq.
    + intros g q [E|Hi]; [discriminate|].
      destruct (Hex g q Hi) as [H|H]; [left; right; exact H|right; exact H].
Qed.

Lemma sreachable_Hist : forall s, sreachable s -> Hist s.
Proof.
  intros s H. induction H.
  - unfold Hist; simpl. split; [auto|]. split.
    + intros g Hg. lia.
    + intros g q [E|[]]. discriminate.
  - apply Hist_handler; [apply sreachable_J|]; assumption.
  - apply Hist_resume; [apply sreachable_J|]; assumption.
  - apply Hist_fire; [apply sreachable_J| |]; assumption.
  - apply Hist_wake; [apply sreachable_J| |]; assumption.
  - exact IHsreachable.
Qed.

(** *** The claims about the dev server *)

(** The spawns recorded in a history: request number and child. *)
Definition spawned (h : list SEvent) : list (nat * nat) :=
  flat_map (fun ev => match ev with
                      | Spawned g p => [(g, p)]
                      | _ => []
                      end) h.

Ltac red_in E := cbn -[Nat.eqb Nat.leb Nat.ltb Nat.max] in E.

Ltac norm_in E :=
  unfold srun_task, run_task, resume, fire, wake_sleeper in E; red_in E;
  unfold arm, setTimeout, clearTimeout in E; red_in E;
  unfold wake, set_settling, dev_onTrigger, startDevServer, SETTLE in E;
  red_in E;
  unfold record, set_user, set_timer, set_timers, set_isProcessing,
    set_awaiting, set_now in E;
  red_in E; rewrite ?Nat.eqb_refl in E; red_in E.

Ltac next_is :=
  unfold snext_task, next_task; cbn -[Nat.leb Nat.ltb];
  repeat match goal with
         | |- context [?x <=? ?y] => destruct (Nat.leb_spec x y); try lia
         | |- context [?x <? ?y] => destruct (Nat.ltb_spec x y); try lia
         end;
  try reflexivity.

Lemma wake_stale : forall u r,
    devServerRestartTimes u <> r ->
    devServer (wake r u) = devServer u /\
    alive (wake r u) = alive u /\
    next_pid (wake r u) = next_pid u /\
    history (wake r u) = Dropped r :: history u.
Proof.
  intros u r Hne. unfold wake.
  destruct (Nat.eqb_spec (devServerRestartTimes u) r); [contradiction|].
  simpl. auto.
Qed.

#[local] Opaque sadvance.

(** C5.  A call of [startDevServer] that wakes after the counter has moved
    on returns without spawning, and at any time at most one of the calls
    asleep is still current.  In particular: while one call is asleep (its
    200 ms not yet over) and still current, a change arrives; that change's
    burst counts a new request, so the sleeper finds the counter changed and
    is dropped, and the one spawn that follows is that of the new request,
    200 ms after its trigger. *)
Theorem stale_restart_suppressed : forall s T g a e H,
    sreachable s ->
    settling (user s) = [(T, g)] ->
    g = devServerRestartTimes (user s) ->
    T <= now s + SETTLE ->
    now s + a < T ->
    timer_ms delay + SETTLE <= H ->
    (forall u r, devServerRestartTimes u <> r ->
                 devServer (wake r u) = devServer u /\
                 alive (wake r u) = alive u /\
                 spawned (history (wake r u)) = spawned (history u)) /\
    (forall s', sreachable s' -> List.length (fresh_entries (user s')) <= 1) /\
    spawned (history (user (srun [Sleep a; Emit e; Sleep H] s))) =
      (S g, next_pid (user s)) :: spawned (history (user s)) /\
    In (Dropped g) (history (user (srun [Sleep a; Emit e; Sleep H] s))) /\
    devServer (user (srun [Sleep a; Emit e; Sleep H] s)) =
      Some (next_pid (user s)) /\
    alive (user (srun [Sleep a; Emit e; Sleep H] s)) = [next_pid (user s)] /\
    settling (user (srun [Sleep a; Emit e; Sleep H] s)) = [].
Proof.
  intros s T g a e H Hr Hs Hg HT Ha HH.
  split.
  { intros u r Hne. destruct (wake_stale u r Hne) as (H1 & H2 & _ & H4).
    rewrite H4. auto. }
  split.
  { intros s' Hr'. apply (sreachable_J s' Hr'). }
  pose proof (sreachable_J s Hr) as HJ.
  pose proof HJ as (_ & Hal & _ & _ & Hfr & _ & _).
  assert (Hne : fresh_entries (user s) <> []).
  { unfold fresh_entries. rewrite Hs. simpl. unfold is_fresh. simpl.
    rewrite Hg, Nat.eqb_refl. discriminate. }
  destruct (Hfr Hne) as [Hcl Hd].
  pose proof (closed_not_awaiting s HJ Hcl) as Haw.
  pose proof (J_wf s HJ) as Hwf. unfold wf in Hwf.
  destruct Hcl as [Hp Ht]. rewrite Ht in Hwf. destruct Hwf as [Hts _].
  unfold slot in Hal. rewrite Hd in Hal.
  clear Hr HJ Hfr Hne.
  destruct s as [n tm ip aw ts nt cs u].
  destruct u as [ds gen sl al np hi]. simpl in Hs, Hg, HT, Ha, Hal, Hd, Haw, Hp, Ht, Hts.
  subst. unfold SETTLE in *.
  remember (srun _ _) as sf eqn:E. cbn [user next_pid history].
  cbn [srun fold_left sexec now] in E.
  match type of E with
  | context [sadvance (n + a) ?x] =>
      assert (E1 : sadvance (n + a) x = set_now (n + a) x)
  end.
  { erewrite sadvance_wait; [|next_is|cbn; lia].
    cbn [now]. rewrite Nat.max_r by lia. reflexivity. }
  rewrite E1 in E. clear E1.
  unfold handler in E. red_in E.
  assert (Hstale : (S gen =? gen) = false) by (apply Nat.eqb_neq; lia).
  erewrite sadvance_step in E; [|clear E; next_is|clear E; cbn; lia].
  norm_in E. replace (Nat.max (n + a) (n + a + 0)) with (n + a) in E by (clear E; lia).
  destruct (Nat.le_gt_cases (n + a + timer_ms delay) T) as [Hc|Hc].
  - (* the trigger comes first, then the stale sleeper wakes *)
    erewrite sadvance_step in E; [|clear E; next_is|clear E; cbn; lia].
    norm_in E.
    replace (Nat.max (n + a) (n + a + timer_ms delay))
      with (n + a + timer_ms delay) in E by (clear E; lia).
    erewrite sadvance_step in E; [|clear E; next_is|clear E; cbn; lia].
    norm_in E. rewrite Hstale in E; red_in E.
    erewrite sadvance_step in E; [|clear E; next_is|clear E; cbn; lia].
    norm_in E.
    erewrite sadvance_idle in E; [|clear E; next_is].
    subst sf. cbn. auto 10.
  - (* the stale sleeper wakes first, then the trigger *)
    erewrite sadvance_step in E; [|clear E; next_is|clear E; cbn; lia].
    norm_in E. rewrite Hstale in E; red_in E.
    erewrite sadvance_step in E; [|clear E; next_is|clear E; cbn; lia].
    norm_in E.
    erewrite sadvance_step in E; [|clear E; next_is|clear E; cbn; lia].
    norm_in E.
    erewrite sadvance_idle in E; [|clear E; next_is].
    subst sf. cbn. auto 10.
Qed.

#[local] Transparent sadvance.

(** C6.  In every reachable state of the session at most one child is
    alive, and it is the one in [devServer]; an [onWillTrigger] that finds a
    child in [devServer] waits for that child's exit (for as long as the
    signal takes if the child does not end by itself; for ever if the child
    is gone already) and leaves the variable alone until then, and while it
    waits that child is still the one in [devServer]; a sleeper that is
    going to spawn finds no child alive; and every spawn recorded comes
    after the [onWillTrigger] of its request and after the exit of the child
    that request signalled. *)
Theorem one_live_process : forall s,
    sreachable s ->
    List.length (alive (user s)) <= 1 /\
    alive (user s) = slot (user s) /\
    (forall e t u p, devServer u = Some p ->
       (snd (dev_onWillTrigger e t u) = Never \/
        exists d, snd (dev_onWillTrigger e t u) = Resolves d (Some p)) /\
       (ends_at p = None ->
        snd (dev_onWillTrigger e t u) = Resolves (exit_latency p) (Some p)) /\
       devServer (fst (dev_onWillTrigger e t u)) = Some p /\
       devServer (dev_willTriggerRest (Some p) (fst (dev_onWillTrigger e t u)))
       = None) /\
    (forall a p, awaiting s = Some a -> cont a = Some (Some p) ->
                 devServer (user s) = Some p) /\
    (forall en, In en (settling (user s)) ->
                snd en = devServerRestartTimes (user s) ->
                alive (user s) = [] /\ awaiting s = None) /\
    ordered (history (user s)).
Proof.
  intros s Hr. pose proof (sreachable_J s Hr) as HJ.
  pose proof HJ as (_ & Hal & _ & _ & Hfr & _ & Haw).
  split; [rewrite Hal; unfold slot; destruct (devServer (user s)); simpl; lia|].
  split; [exact Hal|].
  split.
  { intros e t u p Hu. unfold dev_onWillTrigger. simpl. rewrite Hu.
    split; [apply exit_wait_cases|]. split; [|auto].
    intros Hn. unfold exit_wait. rewrite Hn. reflexivity. }
  split; [|split].
  - intros a p Ha Hc. destruct (Haw a Ha) as [_ H]. rewrite Hc in H. exact H.
  - intros en Hin Hg.
    assert (Hne : fresh_entries (user s) <> []).
    { unfold fresh_entries. intros E.
      assert (Hi : In en (filter (is_fresh (devServerRestartTimes (user s)))
                                 (settling (user s)))).
      { apply filter_In. split; [exact Hin|].
        unfold is_fresh. rewrite Hg. apply Nat.eqb_refl. }
      rewrite E in Hi. contradiction. }
    destruct (Hfr Hne) as [Hcl Hd]. split.
    + rewrite Hal. unfold slot. rewrite Hd. reflexivity.
    + apply closed_not_awaiting; assumption.
  - apply (sreachable_Hist s Hr).
Qed.

(** *** More about the dev server *)

Definition is_will (c : Call) : bool :=
  match c with
  | WillTrigger _ _ => true
  | Trigger _ _ => false
  end.

Definition is_requested (ev : SEvent) : bool :=
  match ev with
  | Requested _ => true
  | _ => false
  end.

Definition count {A : Type} (f : A -> bool) (l : list A) : nat :=
  List.length (filter f l).

Lemma count_snoc : forall (A : Type) (f : A -> bool) l x,
    count f (l ++ [x]) = count f l + (if f x then 1 else 0).
Proof.
  intros A f l x. unfold count. rewrite filter_app, length_app. simpl.
  destruct (f x); reflexivity.
Qed.

(** The counter and the log of callbacks agree: one increment per call of
    [onWillTrigger], one call of [startDevServer] per call of [onTrigger]
    besides the one at start-up. *)
Definition counted (s : Session) : Prop :=
  devServerRestartTimes (user s) = count is_will (calls s) /\
  count is_requested (history (user s)) =
    S (count (fun c => negb (is_will c)) (calls s)).

Lemma counted_handler : forall s e,
    counted s -> counted (handler dev_options e s).
Proof.
  intros s e [H1 H2]. unfold handler.
  destruct (isProcessing s); [split; assumption|]. simpl.
  destruct (timer s); [split; assumption|].
  unfold dev_onWillTrigger; simpl.
  destruct (devServer (user s)) as [p|];
    [destruct (exit_wait_cases p (now s)) as [Hw|[d Hw]]; rewrite Hw|];
    unfold counted; simpl;
    rewrite !count_snoc; simpl; unfold count in *; simpl; lia.
Qed.

Lemma counted_resume : forall s, counted s -> counted (resume dev_options s).
Proof.
  intros s [H1 H2]. unfold resume.
  destruct (awaiting s) as [a|]; [|split; assumption].
  destruct (fulfilled a); unfold counted, arm; simpl;
    destruct (cont a) as [[p|]|]; simpl; unfold count in *; simpl; lia.
Qed.

Lemma counted_fire : forall s t, counted s -> counted (fire dev_options t s).
Proof.
  intros s t [H1 H2]. unfold counted, fire; simpl.
  rewrite !count_snoc; simpl. unfold count in *; simpl. lia.
Qed.

Lemma counted_wake : forall s en, counted s -> counted (wake_sleeper en s).
Proof.
  intros s en [H1 H2]. unfold counted, wake_sleeper, wake; simpl.
  destruct (negb (devServerRestartTimes (user s) =? snd en)); simpl;
    unfold count in *; simpl; lia.
Qed.

(** X5.  In every reachable state of the session the restart counter is
    the number of calls of the restart watch's [onWillTrigger] so far, and
    [startDevServer] was called once more than [onTrigger]. *)
Theorem counter_counts_bursts : forall s,
    sreachable s ->
    devServerRestartTimes (user s) = count is_will (calls s) /\
    count is_requested (history (user s)) =
      S (count (fun c => negb (is_will c)) (calls s)).
Proof.
  intros s H. change (counted s). induction H.
  - split; reflexivity.
  - apply counted_handler; assumption.
  - apply counted_resume; assumption.
  - apply counted_fire; assumption.
  - apply counted_wake; assumption.
  - exact IHsreachable.
Qed.

(** The request numbers for which a child was spawned. *)
Definition spawn_gens (h : list SEvent) : list nat := map fst (spawned h).

Definition spawn_once (s : Session) : Prop :=
  (forall g, In g (spawn_gens (history (user s))) ->
             g <= devServerRestartTimes (user s)) /\
  NoDup (spawn_gens (history (user s))) /\
  (~ closed s \/ fresh_entries (user s) <> [] ->
   ~ In (devServerRestartTimes (user s)) (spawn_gens (history (user s)))).

Lemma spawn_once_handler : forall s e,
    J s -> spawn_once s -> spawn_once (handler dev_options e s).
Proof.
  intros s e HJ HS. pose proof HS as (Hle & Hnd & Hno).
  pose proof (J_wf s HJ) as Hwf. unfold wf in Hwf.
  destruct (isProcessing s) eqn:Hp.
  { unfold handler. rewrite Hp. exact HS. }
  destruct (timer s) as [h|] eqn:Ht.
  - unfold handler. rewrite Hp. simpl. rewrite Ht.
    unfold spawn_once, arm, clearTimeout; simpl.
    split; [exact Hle|]. split; [exact Hnd|]. intros _. apply Hno.
    left. intros [_ Hc]. congruence.
  - unfold handler. rewrite Hp. simpl. rewrite Ht.
    unfold dev_onWillTrigger; simpl.
    assert (Hfresh : ~ In (S (devServerRestartTimes (user s)))
                          (spawn_gens (history (user s)))).
    { intros Hin. apply Hle in Hin. lia. }
    destruct (devServer (user s)) as [p|];
      [destruct (exit_wait_cases p (now s)) as [Hw|[d Hw]]; rewrite Hw|];
      unfold spawn_once, spawn_gens in *; simpl;
      (split; [intros g Hg; specialize (Hle g Hg); lia|]);
      (split; [exact Hnd|intros _; exact Hfresh]).
Qed.

Lemma spawn_once_resume : forall s,
    J s -> spawn_once s -> spawn_once (resume dev_options s).
Proof.
  intros s HJ HS. pose proof HS as (Hle & Hnd & Hno).
  pose proof (J_wf s HJ) as Hwf. unfold wf in Hwf.
  destruct (awaiting s) as [a|] eqn:Ha.
  2:{ unfold resume. rewrite Ha. exact HS. }
  assert (Hopen : ~ closed s).
  { intros [Hp Ht]. rewrite Ht in Hwf. destruct Hwf as [_ Hw].
    assert (isProcessing s = true) by (apply Hw; congruence). congruence. }
  specialize (Hno (or_introl Hopen)).
  unfold resume. rewrite Ha.
  destruct (fulfilled a); unfold spawn_once, spawn_gens, arm in *; simpl;
    destruct (cont a) as [[p|]|]; simpl;
    (split; [exact Hle|split; [exact Hnd|intros _; exact Hno]]).
Qed.

Lemma spawn_once_fire : forall s t,
    J s -> In t (timers s) -> spawn_once s -> spawn_once (fire dev_options t s).
Proof.
  intros s t HJ Hin (Hle & Hnd & Hno).
  pose proof (J_wf s HJ) as Hwf. unfold wf in Hwf.
  assert (Hopen : ~ closed s).
  { intros [_ Ht]. rewrite Ht in Hwf. destruct Hwf as [Hts _].
    rewrite Hts in Hin. contradiction. }
  specialize (Hno (or_introl Hopen)).
  unfold spawn_once, spawn_gens, fire, clearTimeout in *; simpl.
  split; [exact Hle|split; [exact Hnd|intros _; exact Hno]].
Qed.

Lemma spawn_once_wake : forall s en,
    J s -> In en (settling (user s)) -> spawn_once s ->
    spawn_once (wake_sleeper en s).
Proof.
  intros s en HJ Hin (Hle & Hnd & Hno).
  pose proof HJ as (_ & _ & _ & Hcnt & Hfr & _ & _).
  unfold spawn_once, wake_sleeper, wake; simpl.
  destruct (Nat.eqb_spec (devServerRestartTimes (user s)) (snd en)) as [Hg|Hg];
    simpl.
  - assert (Hfresh : is_fresh (devServerRestartTimes (user s)) en = true).
    { unfold is_fresh. rewrite Hg. apply Nat.eqb_refl. }
    pose proof (filter_remove_fresh _ _ _ Hin Hfresh) as Hrem.
    assert (Hne : fresh_entries (user s) <> []).
    { unfold fresh_entries. intros E. rewrite E in Hrem. discriminate. }
    destruct (Hfr Hne) as [Hcl _].
    specialize (Hno (or_intror Hne)).
    unfold fresh_entries, spawn_gens in *; simpl.
    split; [|split].
    + intros g [<-|Hg']; [lia|apply Hle, Hg'].
    + constructor; [rewrite <- Hg; exact Hno|exact Hnd].
    + intros [Hopen|Hstill].
      * exfalso. apply Hopen. exact Hcl.
      * exfalso. apply Hstill.
        destruct (filter (is_fresh (devServerRestartTimes (user s)))
                         (remove_first en (settling (user s))));
          [reflexivity|simpl in Hrem; lia].
  - assert (Hstale : is_fresh (devServerRestartTimes (user s)) en = false).
    { unfold is_fresh. apply Nat.eqb_neq. congruence. }
    unfold fresh_entries, spawn_gens in *; simpl.
    rewrite (filter_remove_stale _ _ _ Hstale).
    split; [exact Hle|split; [exact Hnd|exact Hno]].
Qed.

(** X6.  No restart request is answered twice: among the children spawned
    in the course of a session, no two were spawned for the same value of
    the restart counter. *)
Theorem one_spawn_per_request : forall s,
    sreachable s -> NoDup (spawn_gens (history (user s))).
Proof.
  intros s H.
  assert (HS : spawn_once s).
  { induction H.
    - unfold spawn_once, spawn_gens; simpl.
      split; [intros g []|]. split; [constructor|]. intros _ [].
    - apply spawn_once_handler; [apply sreachable_J|]; assumption.
    - apply spawn_once_resume; [apply sreachable_J|]; assumption.
    - apply spawn_once_fire; [apply sreachable_J| |]; assumption.
    - apply spawn_once_wake; [apply sreachable_J| |]; assumption.
    - exact IHsreachable. }
  apply HS.
Qed.

(** *** A server that ended by itself *)

(** The restart watch is blocked: its handler is inside the critical
    section and will not come back, and no call of [startDevServer] that is
    asleep is still current. *)
Definition blocked (s : Session) : Prop :=
  isProcessing s = true /\ awaiting s = None /\ timers s = [] /\
  Forall (fun en : nat * nat => snd en <> devServerRestartTimes (user s))
         (settling (user s)).

(** Nothing was called, counted or spawned between [s] and [s']. *)
Definition same_server (s s' : Session) : Prop :=
  calls s' = calls s /\
  devServer (user s') = devServer (user s) /\
  devServerRestartTimes (user s') = devServerRestartTimes (user s) /\
  spawned (history (user s')) = spawned (history (user s)).

Lemma same_server_refl : forall s, same_server s s.
Proof. intros s. repeat split. Qed.

Lemma same_server_trans : forall s1 s2 s3,
    same_server s1 s2 -> same_server s2 s3 -> same_server s1 s3.
Proof.
  intros s1 s2 s3 (A1 & A2 & A3 & A4) (B1 & B2 & B3 & B4).
  repeat split; congruence.
Qed.

Lemma blocked_wake : forall s en,
    blocked s -> In en (settling (user s)) ->
    blocked (wake_sleeper en s) /\ same_server s (wake_sleeper en s).
Proof.
  intros s en (Hp & Ha & Hts & Hst) Hin.
  assert (Hne : devServerRestartTimes (user s) <> snd en).
  { rewrite Forall_forall in Hst. intros E. apply (Hst en Hin). congruence. }
  unfold blocked, same_server, wake_sleeper, wake. simpl.
  destruct (Nat.eqb_spec (devServerRestartTimes (user s)) (snd en));
    [contradiction|].
  simpl. repeat split; try assumption.
  apply Forall_remove_first. exact Hst.
Qed.

Lemma blocked_sstep : forall target s s',
    blocked s -> sstep target s = Some s' ->
    blocked s' /\ same_server s s'.
Proof.
  intros target s s' Hb. pose proof Hb as (Hp & Ha & Hts & Hst).
  unfold sstep, snext_task, next_task. rewrite Ha, Hts. simpl.
  destruct (earliest_sleeper (settling (user s))) as [en|] eqn:Es;
    [|discriminate].
  destruct (fst en <=? target); [|discriminate].
  intros E. inversion E; subst; clear E.
  apply earliest_sleeper_In in Es.
  apply (blocked_wake (set_now (Nat.max (now s) (fst en)) s) en Hb Es).
Qed.

Lemma blocked_sexec : forall s a,
    blocked s -> blocked (sexec s a) /\ same_server s (sexec s a).
Proof.
  intros s [e|dt] Hb.
  - simpl. rewrite handler_processing by apply Hb.
    split; [exact Hb|apply same_server_refl].
  - simpl. unfold sadvance.
    change (blocked (settle (sstep (now s + dt)) spending s) /\
            same_server s (settle (sstep (now s + dt)) spending s)).
    apply (settle_ind (sstep (now s + dt)) spending
             (fun s' => blocked s' /\ same_server s s')).
    + intros s1 s2 [Hb1 Hs1] Hstep.
      destruct (blocked_sstep _ _ _ Hb1 Hstep) as [Hb2 Hs2].
      split; [exact Hb2|]. apply (same_server_trans s s1 s2); assumption.
    + split; [exact Hb|apply same_server_refl].
Qed.

Lemma blocked_srun : forall acts s,
    blocked s -> blocked (srun acts s) /\ same_server s (srun acts s).
Proof.
  induction acts as [|a acts IH]; intros s Hb; simpl.
  - split; [exact Hb|apply same_server_refl].
  - destruct (blocked_sexec s a Hb) as [Hb1 Hs1].
    destruct (IH _ Hb1) as [Hb2 Hs2].
    split; [exact Hb2|].
    apply (same_server_trans s (sexec s a)); assumption.
Qed.

(** X21.  A child that ended by itself is never replaced.  [devServer]
    still names it, so the first change after its end counts a request,
    registers for an exit that has already happened and waits for it for
    ever.  From then on, whatever comes (changes, time), the restart
    watch calls nothing more, no child is spawned and [devServer] keeps
    naming the dead child. *)
Theorem dead_server_never_restarted : forall s p te e acts,
    sreachable s -> closed s ->
    devServer (user s) = Some p ->
    ends_at p = Some te -> te <= now s ->
    isProcessing (srun (Emit e :: acts) s) = true /\
    calls (srun (Emit e :: acts) s) = calls s ++ [WillTrigger (now s) e] /\
    devServer (user (srun (Emit e :: acts) s)) = Some p /\
    devServerRestartTimes (user (srun (Emit e :: acts) s)) =
      S (devServerRestartTimes (user s)) /\
    spawned (history (user (srun (Emit e :: acts) s))) =
      spawned (history (user s)).
Proof.
  intros s p te e acts Hr Hcl Hd He Hle.
  pose proof (sreachable_J s Hr) as HJ.
  pose proof HJ as (_ & _ & Hst & _ & _ & _ & _).
  pose proof (closed_not_awaiting s HJ Hcl) as Haw.
  pose proof (J_wf s HJ) as Hwf. unfold wf in Hwf.
  destruct Hcl as [Hp Ht]. rewrite Ht in Hwf. destruct Hwf as [Hts _].
  pose proof (exit_wait_gone p (now s) te He Hle) as Hw.
  assert (H1 : blocked (handler dev_options e s) /\
               calls (handler dev_options e s) =
                 calls s ++ [WillTrigger (now s) e] /\
               devServer (user (handler dev_options e s)) = Some p /\
               devServerRestartTimes (user (handler dev_options e s)) =
                 S (devServerRestartTimes (user s)) /\
               spawned (history (user (handler dev_options e s))) =
                 spawned (history (user s))).
  { unfold handler. rewrite Hp. simpl. rewrite Ht.
    unfold dev_onWillTrigger. simpl. rewrite Hd, Hw.
    unfold blocked. simpl. rewrite Haw, Hts.
    repeat split; try assumption; try reflexivity.
    eapply Forall_impl; [|exact Hst]. simpl. intros en H. lia. }
  destruct H1 as (Hb & Hc & Hds & Hg & Hsp).
  change (srun (Emit e :: acts) s) with (srun acts (handler dev_options e s)).
  destruct (blocked_srun acts _ Hb) as [Hb' (S1 & S2 & S3 & S4)].
  split; [apply Hb'|]. repeat split; congruence.
Qed.

Ltac norm_all_in E :=
  unfold srun_task, run_task, resume, fire, wake_sleeper in E; red_in E;
  unfold rest, dev_options, dev_willTriggerRest in E; red_in E;
  unfold arm, setTimeout, clearTimeout in E; red_in E;
  unfold wake, set_settling, dev_onTrigger, startDevServer, SETTLE in E;
  red_in E;
  unfold record, set_user, set_timer, set_timers, set_isProcessing,
    set_awaiting, set_now in E;
  red_in E; rewrite ?Nat.eqb_refl in E; red_in E.

#[local] Opaque sadvance.

(** X7.  The restart itself.  With the server running (the child in
    [devServer] has not ended, and does not end by itself before the signal
    has done its work) and nothing else pending, one change and then quiet
    (long enough for the child to exit, for the timer and for the 200 ms of
    [startDevServer]) replace the server: the old child is sent the signal
    at once, it exits, and only then one new child is spawned and put in
    [devServer]. *)
Theorem restart_replaces_server : forall s p e H,
    sreachable s -> closed s ->
    devServer (user s) = Some p ->
    runs_until_killed p (now s) ->
    settling (user s) = [] ->
    exit_latency p + timer_ms delay + SETTLE <= H ->
    user (srun [Emit e; Sleep H] s) =
    {| devServer := Some (next_pid (user s));
       devServerRestartTimes := S (devServerRestartTimes (user s));
       settling := [];
       alive := [next_pid (user s)];
       next_pid := S (next_pid (user s));
       history :=
         Spawned (S (devServerRestartTimes (user s))) (next_pid (user s))
         :: Requested (S (devServerRestartTimes (user s)))
         :: Exited p
         :: Signalled (S (devServerRestartTimes (user s))) (Some p)
         :: history (user s) |}.
Proof.
  intros s p e H Hr Hcl Hd Hrun Hs HH.
  apply exit_wait_running in Hrun.
  pose proof (sreachable_J s Hr) as HJ.
  pose proof HJ as (_ & Hal & _ & _ & _ & _ & _).
  pose proof (closed_not_awaiting s HJ Hcl) as Haw.
  pose proof (J_wf s HJ) as Hwf. unfold wf in Hwf.
  destruct Hcl as [Hp Ht]. rewrite Ht in Hwf. destruct Hwf as [Hts _].
  unfold slot in Hal. rewrite Hd in Hal.
  clear Hr HJ.
  destruct s as [n tm ip aw ts nt cs u].
  destruct u as [ds gen sl al np hi].
  simpl in Hs, Hal, Hd, Haw, Hp, Ht, Hts, Hrun. subst. unfold SETTLE in *.
  remember (srun _ _) as sf eqn:E.
  cbn [user next_pid history devServerRestartTimes].
  cbn [srun fold_left sexec now] in E.
  unfold handler, dev_options, dev_onWillTrigger in E.
  cbn [isProcessing set_isProcessing timer onWillTrigger now user devServer]
    in E.
  rewrite Hrun in E. fold dev_options in E. red_in E.
  erewrite sadvance_step in E; [|clear E; next_is|clear E; cbn; lia].
  norm_all_in E.
  replace (Nat.max n (n + exit_latency p)) with (n + exit_latency p) in E
    by (clear E; lia).
  erewrite sadvance_step in E; [|clear E; next_is|clear E; cbn; lia].
  norm_all_in E.
  replace (Nat.max (n + exit_latency p) (n + exit_latency p + timer_ms delay))
    with (n + exit_latency p + timer_ms delay) in E by (clear E; lia).
  erewrite sadvance_step in E; [|clear E; next_is|clear E; cbn; lia].
  norm_all_in E.
  erewrite sadvance_idle in E; [|clear E; next_is].
  subst sf. reflexivity.
Qed.

(** X8.  A call of [startDevServer] that nothing overtakes does start the
    server: if it is the only one asleep and still current, and no change
    arrives before its 200 ms are over, a child is spawned when it wakes
    and put in [devServer]. *)
Theorem undisturbed_start_spawns : forall s T g H,
    sreachable s ->
    settling (user s) = [(T, g)] ->
    g = devServerRestartTimes (user s) ->
    T <= now s + H ->
    user (srun [Sleep H] s) =
    {| devServer := Some (next_pid (user s));
       devServerRestartTimes := g;
       settling := [];
       alive := [next_pid (user s)];
       next_pid := S (next_pid (user s));
       history := Spawned g (next_pid (user s)) :: history (user s) |}.
Proof.
  intros s T g H Hr Hs Hg HT.
  pose proof (sreachable_J s Hr) as HJ.
  pose proof HJ as (_ & Hal & _ & _ & Hfr & _ & _).
  assert (Hne : fresh_entries (user s) <> []).
  { unfold fresh_entries. rewrite Hs. simpl. unfold is_fresh. simpl.
    rewrite Hg, Nat.eqb_refl. discriminate. }
  destruct (Hfr Hne) as [Hcl Hd].
  pose proof (closed_not_awaiting s HJ Hcl) as Haw.
  pose proof (J_wf s HJ) as Hwf. unfold wf in Hwf.
  destruct Hcl as [Hp Ht]. rewrite Ht in Hwf. destruct Hwf as [Hts _].
  unfold slot in Hal. rewrite Hd in Hal.
  clear Hr HJ Hfr Hne.
  destruct s as [n tm ip aw ts nt cs u].
  destruct u as [ds gen sl al np hi].
  simpl in Hs, Hg, HT, Hal, Hd, Haw, Hp, Ht, Hts. subst.
  remember (srun _ _) as sf eqn:E. cbn [user next_pid history].
  cbn [srun fold_left sexec now] in E.
  erewrite sadvance_step in E; [|clear E; next_is|clear E; cbn; lia].
  norm_all_in E.
  erewrite sadvance_idle in E; [|clear E; next_is].
  subst sf. reflexivity.
Qed.

#[local] Transparent sadvance.

End Session.

(** *** Concrete runs: [delay] 1000, a child exits 50 ms after [kill()],
    and no child ends by itself *)

Definition never_ends : nat -> option nat := fun _ => None.

Definition session (acts : list Action) : Session :=
  srun (fun _ => 50) never_ends 1000 acts session_init.

(** A change 100 ms after start-up: the first [startDevServer] is dropped,
    the dev server starts once, for the request of that change. *)
Example change_during_startup :
  history (user (session [Sleep 100; Emit ev_a; Sleep 1500]))
  = [Spawned 1 1; Requested 1; Dropped 0; Signalled 1 None; Requested 0].
Proof. reflexivity. Qed.

(** A change once the server runs: it is killed at the leading edge, and its
    successor starts 200 ms after the trigger. *)
Example change_while_running :
  history (user (session [Sleep 1000; Emit ev_a; Sleep 1500]))
  = [Spawned 1 2; Requested 1; Exited 1; Signalled 1 (Some 1);
     Spawned 0 1; Requested 0].
Proof. reflexivity. Qed.

Lemma stale_restart_suppressed_witness :
  sreachable (fun _ => 50) never_ends 1000 session_init /\
  spawned (history (user (session [Sleep 100; Emit ev_a; Sleep 1500])))
  = [(1, 1)].
Proof.
  split; [apply sreach_init|].
  refine (proj1 (proj2 (proj2 (stale_restart_suppressed
                          (fun _ => 50) never_ends 1000
                          session_init 200 0 100 ev_a 1500
                          (sreach_init _ _ _) eq_refl eq_refl _ _ _)))).
  - apply Nat.leb_le. reflexivity.
  - apply Nat.ltb_lt. reflexivity.
  - apply Nat.leb_le. reflexivity.
Defined.

Lemma one_live_process_witness :
  sreachable (fun _ => 50) never_ends 1000
             (session [Sleep 1000; Emit ev_a; Sleep 20]) /\
  alive (user (session [Sleep 1000; Emit ev_a; Sleep 20])) = [1] /\
  List.length (alive (user (session [Sleep 1000; Emit ev_a; Sleep 20]))) <= 1.
Proof.
  split; [apply sreachable_run, sreach_init|]. split; [reflexivity|].
  apply (one_live_process (fun _ => 50) never_ends 1000).
  apply sreachable_run, sreach_init.
Defined.

(** *** Concrete runs, continued *)

Lemma counter_counts_bursts_witness :
  sreachable (fun _ => 50) never_ends 1000
             (session [Sleep 1000; Emit ev_a; Sleep 1500]) /\
  devServerRestartTimes (user (session [Sleep 1000; Emit ev_a; Sleep 1500]))
  = 1.
Proof.
  split; [apply sreachable_run, sreach_init|].
  refine (eq_trans
            (proj1 (counter_counts_bursts (fun _ => 50) never_ends 1000
                      (session [Sleep 1000; Emit ev_a; Sleep 1500]) _)) _).
  - apply sreachable_run, sreach_init.
  - reflexivity.
Defined.

Lemma one_spawn_per_request_witness :
  sreachable (fun _ => 50) never_ends 1000
             (session [Sleep 1000; Emit ev_a; Sleep 1500]) /\
  NoDup (spawn_gens
           (history (user (session [Sleep 1000; Emit ev_a; Sleep 1500])))).
Proof.
  split; [apply sreachable_run, sreach_init|].
  apply (one_spawn_per_request (fun _ => 50) never_ends 1000).
  apply sreachable_run, sreach_init.
Defined.

(** The first child ends by itself 3000 ms into the session. *)
Definition first_ends_at_3000 (p : nat) : option nat :=
  if p =? 1 then Some 3000 else None.

Definition fragile (acts : list Action) : Session :=
  srun (fun _ => 50) first_ends_at_3000 1000 acts session_init.

(** A change at 1000, while the first child still runs. *)
Lemma restart_replaces_server_witness :
  devServer (user (fragile [Sleep 1000])) = Some 1 /\
  user (fragile ([Sleep 1000] ++ [Emit ev_a; Sleep 1500])) =
  {| devServer := Some 2; devServerRestartTimes := 1; settling := [];
     alive := [2]; next_pid := 3;
     history := [Spawned 1 2; Requested 1; Exited 1; Signalled 1 (Some 1);
                 Spawned 0 1; Requested 0] |}.
Proof.
  split; [reflexivity|].
  unfold fragile. rewrite srun_app.
  refine (restart_replaces_server (fun _ => 50) first_ends_at_3000 1000
            (fragile [Sleep 1000]) 1 ev_a 1500
            _ (conj eq_refl eq_refl) eq_refl _ eq_refl _).
  - apply sreachable_run, sreach_init.
  - intros te E. injection E as <-.
    split; [apply Nat.ltb_lt|apply Nat.leb_le]; reflexivity.
  - apply Nat.leb_le. reflexivity.
Defined.

(** The same change at 3500, after the first child has ended: nothing is
    started again, neither by that change nor by the next. *)
Lemma dead_server_never_restarted_witness :
  devServer (user (fragile [Sleep 3500])) = Some 1 /\
  calls (fragile ([Sleep 3500] ++
                  [Emit ev_a; Sleep 2000; Emit ev_b; Sleep 2000]))
  = [WillTrigger 3500 ev_a] /\
  spawned (history (user (fragile ([Sleep 3500] ++
                  [Emit ev_a; Sleep 2000; Emit ev_b; Sleep 2000]))))
  = [(0, 1)].
Proof.
  split; [reflexivity|].
  unfold fragile. rewrite srun_app.
  refine (let H := dead_server_never_restarted
                     (fun _ => 50) first_ends_at_3000 1000
                     (fragile [Sleep 3500]) 1 3000 ev_a
                     [Sleep 2000; Emit ev_b; Sleep 2000]
                     _ (conj eq_refl eq_refl) eq_refl eq_refl _ in
          conj (proj1 (proj2 H)) (proj2 (proj2 (proj2 (proj2 H))))).
  - apply sreachable_run, sreach_init.
  - apply Nat.leb_le. reflexivity.
Defined.

Lemma undisturbed_start_spawns_witness :
  settling (user session_init) = [(200, 0)] /\
  user (srun (fun _ => 50) never_ends 1000 [Sleep 200] session_init) =
  {| devServer := Some 1; devServerRestartTimes := 0; settling := [];
     alive := [1]; next_pid := 2;
     history := [Spawned 0 1; Requested 0] |}.
Proof.
  split; [reflexivity|].
  refine (undisturbed_start_spawns (fun _ => 50) never_ends 1000
            session_init 200 0 200
            (sreach_init _ _ _) eq_refl eq_refl _).
  apply Nat.leb_le. reflexivity.
Defined.

End Supervisor.

(** * The [doc] command ([commands/doc.ts]) *)

Module Doc.

(** The fields of an entry of [TsrpcApi.apis] that [generateMarkdown]
    reads. *)
Record Api := mkApi {
  path : string;
  title : option string;
  req_ts : string;
  res_ts : string
}.

(** [s.split('/')] *)
Fixpoint split (s : string) : list string :=
  match s with
  | EmptyString => [EmptyString]
  | String c r =>
      if Ascii.eqb c "/"%char then EmptyString :: split r
      else match split r with
           | h :: t => String c h :: t
           | [] => [String c EmptyString]
           end
  end.

(** The number of ['/'] in [s]. *)
Fixpoint slashes (s : string) : nat :=
  match s with
  | EmptyString => 0
  | String c r => (if Ascii.eqb c "/"%char then 1 else 0) + slashes r
  end.

Lemma split_length : forall s, List.length (split s) = S (slashes s).
Proof.
  induction s as [|c r IH]; [reflexivity|].
  simpl. destruct (Ascii.eqb c "/"%char); simpl.
  - rewrite IH. reflexivity.
  - destruct (split r) as [|h t]; [discriminate|]. exact IH.
Qed.

(** *** [generateMarkdown], lines 81-85 *)

Section Markdown.
(** [groupBy] is an array extension from outside these sources; [Groups] is
    what it returns.  [template] is the template literal of lines 87-125,
    which reads [groupApis] and [rootApis] and nothing else. *)
Variable Groups : Type.
Variable groupBy :
  list (Api * list string) -> (Api * list string -> option string) -> Groups.
Variable template : Groups -> list Api -> string.

Definition rootApis (apis : list Api) : list Api :=
  filter (fun v => List.length (split (path v)) =? 2) apis.

(** The array that [groupBy] is called on. *)
Definition nested (apis : list Api) : list (Api * list string) :=
  filter (fun v => 2 <? List.length (snd v))
         (map (fun v => (v, split (path v))) apis).

(** [v.pathArr[1]] *)
Definition groupKey (v : Api * list string) : option string :=
  nth_error (snd v) 1.

Definition groupApis (apis : list Api) : Groups :=
  groupBy (nested apis) groupKey.

Definition markdown (apis : list Api) : string :=
  template (groupApis apis) (rootApis apis).

Definition has_slash (v : Api) : bool := 0 <? slashes (path v).

Lemma filter_filter_weaker : forall (A : Type) (f g : A -> bool) l,
    (forall x, f x = true -> g x = true) ->
    filter f (filter g l) = filter f l.
Proof.
  intros A f g l H. induction l as [|x l IH]; [reflexivity|].
  simpl. destruct (g x) eqn:Hg; simpl.
  - rewrite IH. reflexivity.
  - destruct (f x) eqn:Hf; [|exact IH].
    apply H in Hf. congruence.
Qed.

Lemma filter_map_comm : forall (A B : Type) (h : A -> B) (f : B -> bool) l,
    filter f (map h l) = map h (filter (fun x => f (h x)) l).
Proof.
  intros A B h f l. induction l as [|x l IH]; [reflexivity|].
  simpl. destruct (f (h x)); simpl; rewrite IH; reflexivity.
Qed.

(** X17.  The Markdown document sorts the APIs by the number of ['/'] in
    their path: exactly one puts an API in the root list, two or more put
    it in a group, keyed by what stands between the first and the second
    ['/'] (the key is never [undefined]).  An API whose path has no ['/']
    is in neither: it is left out of the document, which is the same as if
    the API were not there. *)
Theorem markdown_sorts_by_slashes : forall apis,
    (forall v, In v (rootApis apis) <-> In v apis /\ slashes (path v) = 1) /\
    (forall v arr, In (v, arr) (nested apis) <->
                   In v apis /\ arr = split (path v) /\ 2 <= slashes (path v)) /\
    (forall x, In x (nested apis) -> exists k, groupKey x = Some k) /\
    markdown apis = markdown (filter has_slash apis).
Proof.
  intros apis. split; [|split; [|split]].
  - intros v. unfold rootApis. rewrite filter_In, split_length.
    rewrite Nat.eqb_eq. split; intros [H1 H2]; split; auto; lia.
  - intros v arr. unfold nested. rewrite filter_In, in_map_iff. simpl.
    rewrite Nat.ltb_lt. split.
    + intros [(v' & Hv & Hin) Hlen]. injection Hv as -> <-.
      rewrite split_length in Hlen. repeat split; auto. lia.
    + intros (Hin & -> & Hs). rewrite split_length. split; [|lia].
      exists v. auto.
  - intros [v arr]. unfold nested, groupKey. rewrite filter_In. simpl.
    rewrite Nat.ltb_lt. intros [_ Hlen].
    destruct arr as [|a [|k t]]; simpl in Hlen; try lia.
    exists k. reflexivity.
  - unfold markdown, groupApis, rootApis, nested.
    rewrite !filter_map_comm. f_equal; [f_equal; f_equal|].
    + symmetry. apply filter_filter_weaker. intros x. simpl.
      unfold has_slash. rewrite split_length, !Nat.ltb_lt. lia.
    + symmetry. apply filter_filter_weaker. intros x.
      unfold has_slash. rewrite split_length, Nat.eqb_eq, Nat.ltb_lt. lia.
Qed.

End Markdown.

(** *** [cmdDoc] and the three generators *)

Inductive CmdDocOptions :=
| Params (input output ignore : option string) (verbose : option bool)
| Config (config : Dev.TsrpcConfig).

(** The calls [cmdDoc] makes to the outside, in order. *)
Inductive Effect :=
| ConsoleLog (text : string)
| GenerateServiceProto (protocolDir : string) (ignore : option string)
                       (verbose : option bool)
| EnsureDir (dir : string)
| WriteFile (file data : string)
| LogSuccess.

Inductive Error :=
| MissingConfigItem (item : string)
| MissingParam (param : string)
| Failed.

(** An [async] body: from the calls made so far to the calls made when it
    is done, with its value, or the error it throws. *)
Definition M (A : Type) : Type := list Effect -> list Effect * (Error + A).

Definition ret {A : Type} (a : A) : M A := fun h => (h, inr a).

Definition throw {A : Type} (e : Error) : M A := fun h => (h, inl e).

Definition bind {A B : Type} (m : M A) (f : A -> M B) : M B :=
  fun h =>
    match m h with
    | (h', inr a) => f a h'
    | (h', inl e) => (h', inl e)
    end.

Notation "x <- m ;; k" := (bind m (fun x => k))
  (at level 61, m at next level, right associativity).
Notation "m ;; k" := (bind m (fun _ => k))
  (at level 61, right associativity).

Definition console_log (e : Effect) : M unit := fun h => (h ++ [e], inr tt).

(** The value of a call that may reject. *)
Definition settled {A : Type} (e : Effect) (r : option A) : M A :=
  fun h => (h ++ [e], match r with Some a => inr a | None => inl Failed end).

(** A value computed by code from outside, which may throw. *)
Definition computed {A : Type} (r : option A) : M A :=
  fun h => (h, match r with Some a => inr a | None => inl Failed end).

Fixpoint forOf {A : Type} (l : list A) (body : A -> M unit) : M unit :=
  match l with
  | [] => ret tt
  | x :: l' => body x ;; forOf l' body
  end.

Definition truthy (b : option bool) : bool :=
  match b with
  | Some true => true
  | _ => false
  end.

Section CmdDoc.
Variables ServiceProto OpenAPI TsrpcApi : Type.
(** [ProtoUtil.generateServiceProto] (called with [checkOptimize: false] and
    [keepComment: true]), [ApiDocUtil.toOpenAPI] and [ApiDocUtil.toTsrpcApi]:
    [None] when the call throws or rejects. *)
Variable generateServiceProto :
  string -> option string -> option bool -> option ServiceProto.
Variable toOpenAPI : ServiceProto -> option OpenAPI.
Variable toTsrpcApi : ServiceProto -> option TsrpcApi.
(** [JSON.stringify(_, null, 2)] and [path.join]. *)
Variable stringify_openapi : OpenAPI -> string.
Variable stringify_api : TsrpcApi -> string.
Variable join : string -> string -> string.
(** [api.apis], and what [generateMarkdown] leaves to others. *)
Variable apis : TsrpcApi -> list Api.
Variable Groups : Type.
Variable groupBy :
  list (Api * list string) -> (Api * list string -> option string) -> Groups.
Variable template : Groups -> list Api -> string.
(** Does this call of [fs], made after the calls [h], come back normally? *)
Variable fs_ok : list Effect -> Effect -> bool.

Definition fs (e : Effect) : M unit :=
  fun h => (h ++ [e], if fs_ok h e then inr tt else inl Failed).

Definition generateOpenApi (proto : ServiceProto) (outputDir : string)
  : M unit :=
  openAPI <- computed (toOpenAPI proto) ;;
  fs (EnsureDir outputDir) ;;
  fs (WriteFile (join outputDir "openapi.json") (stringify_openapi openAPI)).

Definition generateTsrpcApi (proto : ServiceProto) (outputDir : string)
  : M TsrpcApi :=
  tsrpcAPI <- computed (toTsrpcApi proto) ;;
  fs (EnsureDir outputDir) ;;
  fs (WriteFile (join outputDir "tsrpc-api.js")
                ("var tsrpcAPI = " ++ stringify_api tsrpcAPI)) ;;
  ret tsrpcAPI.

Definition generateMarkdown (api : TsrpcApi) (outputDir : string) : M unit :=
  let md := markdown Groups groupBy template (apis api) in
  fs (EnsureDir outputDir) ;;
  fs (WriteFile (join outputDir "tsrpc-api.md") md).

Definition cmdDoc (options : CmdDocOptions) : M unit :=
  match options with
  | Config config =>
      match Dev.proto config with
      | None => throw (MissingConfigItem "proto")
      | Some l =>
          forOf l (fun conf =>
                     if truthy (Dev.verbose config)
                     then console_log
                            (ConsoleLog ("Start to generate " ++
                                         Dev.output conf ++ "..."))
                     else ret tt)
      end
  | Params input output ignore verbose =>
      match input with
      | None => throw (MissingParam "input")
      | Some input =>
          match output with
          | None => throw (MissingParam "output")
          | Some output =>
              newProto <- settled (GenerateServiceProto input ignore verbose)
                                  (generateServiceProto input ignore verbose) ;;
              generateOpenApi newProto output ;;
              tsrpcAPI <- generateTsrpcApi newProto output ;;
              generateMarkdown tsrpcAPI output ;;
              console_log LogSuccess
          end
      end
  end.

Definition is_log (e : Effect) : bool :=
  match e with
  | ConsoleLog _ => true
  | _ => false
  end.

Lemma config_loop : forall (f : Dev.ProtoConf -> Effect) (b : bool) l h,
    forOf l (fun conf => if b then console_log (f conf) else ret tt) h =
    (h ++ (if b then map f l else []), inr tt).
Proof.
  intros f b l. induction l as [|c l IH]; intros h.
  - simpl. unfold ret. destruct b; rewrite app_nil_r; reflexivity.
  - cbn [forOf]. unfold bind. destruct b.
    + unfold console_log at 1. rewrite IH. rewrite <- app_assoc. reflexivity.
    + unfold ret at 1. rewrite IH. reflexivity.
Qed.

(** X18.  Called with a configuration, [cmdDoc] generates nothing: it
    throws when [config.proto] is missing, and otherwise only prints one
    line per proto item when [verbose] is set, then fulfils.  No directory
    is made, no file written, no proto generated. *)
Theorem cmdDoc_with_config_writes_nothing : forall config,
    (Dev.proto config = None ->
     cmdDoc (Config config) [] = ([], inl (MissingConfigItem "proto"))) /\
    (forall l, Dev.proto config = Some l ->
               snd (cmdDoc (Config config) []) = inr tt /\
               List.length (fst (cmdDoc (Config config) [])) =
                 (if truthy (Dev.verbose config) then List.length l else 0)) /\
    forallb is_log (fst (cmdDoc (Config config) [])) = true.
Proof.
  intros config. unfold cmdDoc.
  destruct (Dev.proto config) as [l|].
  - rewrite config_loop. simpl. split; [discriminate|]. split.
    + intros l' H. injection H as <-. split; [reflexivity|].
      destruct (truthy (Dev.verbose config)); [apply length_map|reflexivity].
    + destruct (truthy (Dev.verbose config)); [|reflexivity].
      apply forallb_forall. intros x Hx. apply in_map_iff in Hx.
      destruct Hx as (c & <- & _). reflexivity.
  - split; [reflexivity|]. split; [discriminate|reflexivity].
Qed.

(** X19.  Called with parameters, [cmdDoc] checks them before it does
    anything: it throws the missing-parameter error for [input] exactly
    when [input] is not a string, and for [output] exactly when [input] is
    a string and [output] is not; in both cases nothing has been called.
    An empty string passes the check. *)
Theorem cmdDoc_checks_params_first : forall input output ignore verbose p,
    (snd (cmdDoc (Params input output ignore verbose) []) =
       inl (MissingParam p) <->
     (input = None /\ p = "input"%string) \/
     (input <> None /\ output = None /\ p = "output"%string)) /\
    (input = None \/ output = None ->
     fst (cmdDoc (Params input output ignore verbose) []) = []).
Proof.
  intros input output ignore verbose p. unfold cmdDoc.
  destruct input as [i|]; [destruct output as [o|]|]; simpl.
  - split; [|intros [H|H]; discriminate]. split.
    + unfold bind, settled, generateOpenApi, generateTsrpcApi,
        generateMarkdown, computed, fs, bind, console_log, ret.
      repeat match goal with
             | |- context [match ?x with _ => _ end] =>
                 match x with
                 | generateServiceProto _ _ _ => destruct x
                 | toOpenAPI _ => destruct x
                 | toTsrpcApi _ => destruct x
                 | fs_ok _ _ => destruct x
                 end; simpl
             end; discriminate.
    + intros [[H _]|[_ [H _]]]; discriminate.
  - split; [|reflexivity]. split.
    + intros H. injection H as <-. right. split; [discriminate|]. auto.
    + intros [[H _]|[_ [_ ->]]]; [discriminate|reflexivity].
  - split; [|reflexivity]. split.
    + intros H. injection H as <-. left. auto.
    + intros [[_ ->]|[H _]]; [reflexivity|contradiction].
Qed.

(** The three files, in the order they are written. *)
Definition outputs (output : string) : list string :=
  [join output "openapi.json"; join output "tsrpc-api.js";
   join output "tsrpc-api.md"]%string.

Definition written (h : list Effect) : list string :=
  flat_map (fun e => match e with WriteFile f _ => [f] | _ => [] end) h.

Ltac run_doc :=
  unfold cmdDoc, bind, settled, generateOpenApi, generateTsrpcApi,
    generateMarkdown, computed, fs, bind, console_log, ret; simpl.

Ltac next_call :=
  match goal with
  | |- context [match ?x with _ => _ end] =>
      match x with
      | generateServiceProto _ _ _ => destruct x eqn:?
      | toOpenAPI _ => destruct x eqn:?
      | toTsrpcApi _ => destruct x eqn:?
      | fs_ok _ _ => destruct x eqn:?
      end; simpl
  end.

(** X20.  With both parameters given, [cmdDoc] fulfils exactly when the
    success line is printed, and then it has generated the proto and, for
    each of [openapi.json], [tsrpc-api.js] and [tsrpc-api.md] in this
    order, made sure of the output directory and written the file.  When
    a step fails it rejects there: the files it has got to are a leading
    part of the three, and the success line is not printed. *)
Theorem cmdDoc_writes_three_files : forall input output ignore verbose,
    let r := cmdDoc (Params (Some input) (Some output) ignore verbose) [] in
    (In LogSuccess (fst r) <-> snd r = inr tt) /\
    (snd r = inr tt ->
     exists p o a,
       generateServiceProto input ignore verbose = Some p /\
       toOpenAPI p = Some o /\ toTsrpcApi p = Some a /\
       fst r =
         [GenerateServiceProto input ignore verbose;
          EnsureDir output;
          WriteFile (join output "openapi.json") (stringify_openapi o);
          EnsureDir output;
          WriteFile (join output "tsrpc-api.js")
                    ("var tsrpcAPI = " ++ stringify_api a);
          EnsureDir output;
          WriteFile (join output "tsrpc-api.md")
                    (markdown Groups groupBy template (apis a));
          LogSuccess]) /\
    (snd r <> inr tt ->
     snd r = inl Failed /\
     exists n, written (fst r) = firstn n (outputs output)).
Proof.
  intros input output ignore verbose r. subst r. run_doc.
  repeat next_call;
    (split; [split; [intros H; simpl in H;
                     repeat (destruct H as [H|H]; [discriminate|]);
                     try contradiction; try reflexivity
                    |intros H; try discriminate; simpl; auto 10]
            |split; [intros H; try discriminate
                    |intros H; try (exfalso; apply H; reflexivity)]]).
  all: try (split; [reflexivity|]).
  all: try (exists 3; reflexivity).
  all: try (exists 2; reflexivity).
  all: try (exists 1; reflexivity).
  all: try (exists 0; reflexivity).
  eexists _, _, _. repeat split; eassumption.
Qed.

End CmdDoc.

(** *** Concrete runs *)

Definition api_login : Api :=
  mkApi "/user/Login" (Some "Login"%string) "interface ReqLogin {}"
        "interface ResLogin {}".
Definition api_ping : Api :=
  mkApi "/Ping" None "interface ReqPing {}" "interface ResPing {}".
Definition api_bare : Api :=
  mkApi "Bare" None "interface ReqBare {}" "interface ResBare {}".

Example split_login : split (path api_login) = [""; "user"; "Login"]%string.
Proof. reflexivity. Qed.

(** Stand-ins for [groupBy] and the template: the groups are the array
    itself, the text lists the paths. *)
Definition ungrouped (l : list (Api * list string))
           (key : Api * list string -> option string)
  : list (Api * list string) := l.

Definition paths_only (g : list (Api * list string)) (root : list Api)
  : string :=
  String.concat ";" (map (fun v => path (fst v)) g ++ map path root).

Lemma markdown_sorts_by_slashes_witness :
  In api_ping (rootApis [api_login; api_ping; api_bare]).
Proof.
  refine (proj2 (proj1 (markdown_sorts_by_slashes
                          (list (Api * list string)) ungrouped paths_only
                          [api_login; api_ping; api_bare]) api_ping)
                (conj _ eq_refl)).
  right. left. reflexivity.
Defined.

(** A run of [cmdDoc] where the collaborators succeed and the proto has the
    three APIs above; [fs_ok] is left open. *)
Definition doc_run (fs_ok : list Effect -> Effect -> bool)
           (options : CmdDocOptions) : list Effect * (Error + unit) :=
  cmdDoc unit unit (list Api)
         (fun _ _ _ => Some tt) (fun _ => Some tt)
         (fun _ => Some [api_login; api_ping; api_bare])
         (fun _ => "{}"%string) (fun _ => "[]"%string)
         Dev.resolve_join (fun l => l)
         (list (Api * list string)) ungrouped paths_only
         fs_ok options [].

Lemma cmdDoc_with_config_writes_nothing_witness :
  snd (doc_run (fun _ _ => true) (Config Dev.conf_example)) = inr tt /\
  List.length (fst (doc_run (fun _ _ => true) (Config Dev.conf_example))) = 0.
Proof.
  refine (proj1 (proj2 (cmdDoc_with_config_writes_nothing
                          unit unit (list Api)
                          (fun _ _ _ => Some tt) (fun _ => Some tt)
                          (fun _ => Some [api_login; api_ping; api_bare])
                          (fun _ => "{}"%string) (fun _ => "[]"%string)
                          Dev.resolve_join (fun l => l)
                          (list (Api * list string)) ungrouped paths_only
                          (fun _ _ => true) Dev.conf_example))
                _ eq_refl).
Defined.

Lemma cmdDoc_checks_params_first_witness :
  fst (doc_run (fun _ _ => true)
         (Params (Some "src/shared/protocols"%string) None None None)) = [].
Proof.
  refine (proj2 (cmdDoc_checks_params_first
                   unit unit (list Api)
                   (fun _ _ _ => Some tt) (fun _ => Some tt)
                   (fun _ => Some [api_login; api_ping; api_bare])
                   (fun _ => "{}"%string) (fun _ => "[]"%string)
                   Dev.resolve_join (fun l => l)
                   (list (Api * list string)) ungrouped paths_only
                   (fun _ _ => true)
                   (Some "src/shared/protocols"%string) None None None
                   "output"%string)
                (or_intror eq_refl)).
Defined.

Example cmdDoc_all_written :
  doc_run (fun _ _ => true)
          (Params (Some "src/shared/protocols") (Some "docs") None None)%string
  = ([GenerateServiceProto "src/shared/protocols" None None;
      EnsureDir "docs"; WriteFile "docs/openapi.json" "{}";
      EnsureDir "docs"; WriteFile "docs/tsrpc-api.js" "var tsrpcAPI = []";
      EnsureDir "docs"; WriteFile "docs/tsrpc-api.md" "/user/Login;/Ping";
      LogSuccess], inr tt)%string.
Proof. reflexivity. Qed.

(** The second file cannot be written. *)
Definition second_write_fails (h : list Effect) (e : Effect) : bool :=
  match e with
  | WriteFile f _ => negb (String.eqb f "docs/tsrpc-api.js")
  | _ => true
  end.

Lemma cmdDoc_writes_three_files_witness :
  snd (doc_run second_write_fails
         (Params (Some "src/shared/protocols"%string) (Some "docs"%string)
                 None None)) = inl Failed /\
  exists n,
    written (fst (doc_run second_write_fails
                    (Params (Some "src/shared/protocols"%string)
                            (Some "docs"%string) None None)))
    = firstn n (outputs Dev.resolve_join "docs"%string).
Proof.
  refine (proj2 (proj2 (cmdDoc_writes_three_files
                          unit unit (list Api)
                          (fun _ _ _ => Some tt) (fun _ => Some tt)
                          (fun _ => Some [api_login; api_ping; api_bare])
                          (fun _ => "{}"%string) (fun _ => "[]"%string)
                          Dev.resolve_join (fun l => l)
                          (list (Api * list string)) ungrouped paths_only
                          second_write_fails
                          "src/shared/protocols"%string "docs"%string
                          None None)) _).
  discriminate.
Defined.

End Doc.
